(** * Predictive-coding networks (src/models.py): shallow embedding

    The multilayer predictive-coding models of [src/models.py]
    ([MultilayerPCN], [HierarchicalPCN], [HybridPCN]) are embedded as
    functions over dense tensors of rank at most two.  Tensor arithmetic
    follows the broadcasting rules of the tensor library the source is
    written against; scalar arithmetic is kept abstract (class [Scalar]),
    so that the structural results hold for every interpretation of the
    scalar operations, and is instantiated with [Z] for evaluation and
    with binary64 floats where rounding and non-finite values matter. *)

From Stdlib Require Import ZArith.
From Stdlib Require PrimFloat.
From stdpp Require Import base list strings.

(** ** Exceptions *)

Inductive error : Type :=
| RuntimeError
| TypeError
| IndexError
| AttributeError
| NotImplementedError.

Inductive result (A : Type) : Type :=
| Ok (a : A)
| Raise (e : error).
Arguments Ok {A} a.
Arguments Raise {A} e.

Definition bind {A B : Type} (m : result A) (k : A → result B) : result B :=
  match m with
  | Ok a => k a
  | Raise e => Raise e
  end.

Notation "'do' x <- m ; k" := (bind m (λ x, k))
  (at level 10, x name, m at level 100, k at level 200,
   format "'[v' 'do'  x  <-  m ; '/' k ']'").

Fixpoint mapM {A B : Type} (f : A → result B) (l : list A) : result (list B) :=
  match l with
  | [] => Ok []
  | x :: xs => do y <- f x; do ys <- mapM f xs; Ok (y :: ys)
  end.

Fixpoint zipM {A B C : Type} (f : A → B → result C)
    (la : list A) (lb : list B) : result (list C) :=
  match la, lb with
  | a :: la', b :: lb' => do c <- f a b; do cs <- zipM f la' lb'; Ok (c :: cs)
  | _, _ => Ok []
  end.

(** [for l in range(...)] over a state that each iteration may fail on. *)
Fixpoint for_range {S : Type} (body : S → nat → result S)
    (range : list nat) (s : S) : result S :=
  match range with
  | [] => Ok s
  | l :: range' => do s' <- body s l; for_range body range' s'
  end.

(** [xs[i]] and [xs[i] = v] on a Python list; [xs[-1]] is the last slot. *)
Definition getitem {A : Type} (xs : list A) (i : nat) : result A :=
  match xs !! i with
  | Some x => Ok x
  | None => Raise IndexError
  end.

Definition setitem {A : Type} (xs : list A) (i : nat) (v : A) : result (list A) :=
  if decide (i < length xs) then Ok (<[i:=v]> xs) else Raise IndexError.

Definition last_index {A : Type} (xs : list A) : result nat :=
  match length xs with
  | 0 => Raise IndexError
  | S k => Ok k
  end.

(** ** Scalars *)

Class Scalar (R : Type) : Type := {
  szero : R;
  sadd : R → R → R;
  ssub : R → R → R;
  smul : R → R → R;
  sneg : R → R;
  ssign : R → R
}.

(** The laws of exact arithmetic used by the value-level results. *)
Class ScalarLaws (R : Type) `{Scalar R} : Prop := {
  sadd_0_r : ∀ x, sadd x szero = x;
  smul_0_r : ∀ x, smul x szero = szero;
  smul_0_l : ∀ x, smul szero x = szero;
  ssub_0_0 : ssub szero szero = szero;
  sneg_0 : sneg szero = szero;
  ssign_0 : ssign szero = szero
}.

#[export] Instance Z_Scalar : Scalar Z := {
  szero := 0%Z;
  sadd := Z.add;
  ssub := Z.sub;
  smul := Z.mul;
  sneg := Z.opp;
  ssign := Z.sgn
}.

Section Tensors.
Context {R : Type} `{Scalar R}.

(** ** Tensors of rank 0, 1 and 2 *)

Inductive tensor : Type :=
| T0 (x : R)
| T1 (v : list R)
| T2 (ncols : nat) (rows : list (list R)).

Definition shape (t : tensor) : list nat :=
  match t with
  | T0 _ => []
  | T1 v => [length v]
  | T2 n rows => [length rows; n]
  end.

Definition wf (t : tensor) : Prop :=
  match t with
  | T2 n rows => Forall (λ r, length r = n) rows
  | _ => True
  end.

Definition tmap (f : R → R) (t : tensor) : tensor :=
  match t with
  | T0 x => T0 (f x)
  | T1 v => T1 (map f v)
  | T2 n rows => T2 n (map (map f) rows)
  end.

(** Broadcasting of one dimension: equal sizes, or one of them is 1. *)
Definition bdim (n m : nat) : result nat :=
  if decide (n = m) then Ok n
  else if decide (n = 1) then Ok m
  else if decide (m = 1) then Ok n
  else Raise RuntimeError.

Definition bcast {A B C : Type} (f : A → B → result C)
    (la : list A) (lb : list B) : result (list C) :=
  if decide (length la = length lb) then zipM f la lb
  else match la, lb with
       | [a], _ => mapM (f a) lb
       | _, [b] => mapM (λ a, f a b) la
       | _, _ => Raise RuntimeError
       end.

Definition bvec (f : R → R → R) (a b : list R) : result (list R) :=
  bcast (λ x y, Ok (f x y)) a b.

(** Elementwise binary operation with broadcasting. *)
Definition bop (f : R → R → R) (a b : tensor) : result tensor :=
  match a, b with
  | T0 x, T0 y => Ok (T0 (f x y))
  | T0 x, T1 v => Ok (T1 (map (f x) v))
  | T0 x, T2 n rows => Ok (T2 n (map (map (f x)) rows))
  | T1 v, T0 y => Ok (T1 (map (λ x, f x y) v))
  | T2 n rows, T0 y => Ok (T2 n (map (map (λ x, f x y)) rows))
  | T1 va, T1 vb => do v <- bvec f va vb; Ok (T1 v)
  | T1 va, T2 n rows =>
      do c <- bdim (length va) n;
      do rs <- mapM (λ r, bvec f va r) rows;
      Ok (T2 c rs)
  | T2 n rows, T1 vb =>
      do c <- bdim n (length vb);
      do rs <- mapM (λ r, bvec f r vb) rows;
      Ok (T2 c rs)
  | T2 n ra, T2 m rb =>
      do c <- bdim n m;
      do rs <- bcast (bvec f) ra rb;
      Ok (T2 c rs)
  end.

Definition tadd : tensor → tensor → result tensor := bop sadd.
Definition tsub : tensor → tensor → result tensor := bop ssub.
Definition tmul : tensor → tensor → result tensor := bop smul.
Definition tneg : tensor → tensor := tmap sneg.
Definition tsign : tensor → tensor := tmap ssign.
(** [c * t] for a Python number [c]. *)
Definition scale (c : R) : tensor → tensor := tmap (smul c).

Definition ssum (xs : list R) : R := foldl sadd szero xs.
Definition dot (a b : list R) : R := ssum (zip_with smul a b).

Definition column (j : nat) (rows : list (list R)) : list R :=
  map (λ r, nth j r szero) rows.
Definition columns (n : nat) (rows : list (list R)) : list (list R) :=
  map (λ j, column j rows) (seq 0 n).

(** [x.t()]: transposes a matrix, leaves lower ranks alone. *)
Definition transpose (t : tensor) : tensor :=
  match t with
  | T2 n rows => T2 (length rows) (columns n rows)
  | _ => t
  end.

(** [torch.matmul] on ranks 1 and 2. *)
Definition matmul (a b : tensor) : result tensor :=
  match a, b with
  | T1 va, T1 vb =>
      if decide (length va = length vb) then Ok (T0 (dot va vb))
      else Raise RuntimeError
  | T2 n ra, T1 vb =>
      if decide (n = length vb) then Ok (T1 (map (λ r, dot r vb) ra))
      else Raise RuntimeError
  | T1 va, T2 m rb =>
      if decide (length va = length rb)
      then Ok (T1 (map (dot va) (columns m rb)))
      else Raise RuntimeError
  | T2 n ra, T2 m rb =>
      if decide (n = length rb)
      then Ok (T2 m (map (λ r, map (dot r) (columns m rb)) ra))
      else Raise RuntimeError
  | _, _ => Raise RuntimeError
  end.

(** [torch.sum(t, axis=0)]. *)
Definition sum0 (t : tensor) : tensor :=
  match t with
  | T0 x => T0 x
  | T1 v => T0 (ssum v)
  | T2 n rows => T1 (map ssum (columns n rows))
  end.

(** [t.fill_diagonal_(0)]. *)
Definition fill_diagonal_0 (t : tensor) : result tensor :=
  match t with
  | T2 n rows => Ok (T2 n (imap (λ i r, <[i:=szero]> r) rows))
  | _ => Raise RuntimeError
  end.

Definition zeros1 (n : nat) : tensor := T1 (replicate n szero).
Definition zeros2 (b n : nat) : tensor := T2 n (replicate b (replicate n szero)).

End Tensors.

Arguments tensor R : clear implicits.

(** ** The models *)

Section Model.
Context {R : Type} `{Scalar R}.

(** Modelled from the spec: the nonlinearity objects of [src/utils.py]
    (not part of the sources at hand): an elementwise function with a
    paired derivative, applied by calling the object and through its
    [deriv] method. *)
Record Nonlin : Type := {
  nl_apply : R → R;
  nl_deriv : R → R
}.

(** What the constructor's [nonlin] argument may hold, and what ends up
    in [self.nonlins]: a nonlinearity object, or a string left as it is. *)
Inductive pyobj : Type :=
| Callable (f : Nonlin)
| Str (s : string).

Definition call (o : pyobj) (x : tensor R) : result (tensor R) :=
  match o with
  | Callable f => Ok (tmap (nl_apply f) x)
  | Str _ => Raise TypeError
  end.

Definition call_deriv (o : pyobj) (x : tensor R) : result (tensor R) :=
  match o with
  | Callable f => Ok (tmap (nl_deriv f) x)
  | Str _ => Raise AttributeError
  end.

(** [nn.Parameter]: a value and its [.grad] field. *)
Record Param : Type := {
  data : tensor R;
  grad : option (tensor R)
}.

Definition new_parameter (t : tensor R) : Param :=
  {| data := t; grad := None |}.

(** [p.grad = g]: the assignment checks that the sizes agree. *)
Definition set_grad (p : Param) (g : tensor R) : result Param :=
  if decide (shape g = shape (data p))
  then Ok {| data := data p; grad := Some g |}
  else Raise RuntimeError.

(** [nn.Linear]: [weight] of shape (out_features, in_features). *)
Record Linear : Type := {
  weight : Param;
  bias : option Param
}.

(** [layer(x)], that is [x @ weight.T + bias]. *)
Definition linear_forward (ly : Linear) (x : tensor R) : result (tensor R) :=
  do y <- matmul x (transpose (data (weight ly)));
  match bias ly with
  | None => Ok y
  | Some b => tadd y (data b)
  end.

(** The class of the object: the base class, or one of its two subclasses
    ([HybridPCN] owns the recurrent weight [Wr]). *)
Inductive variant : Type :=
| Multilayer
| Hierarchical
| Hybrid (Wr : Param).

Record MultilayerPCN : Type := {
  n_layers : nat;
  layers : list Linear;
  mem_dim : nat;
  memory : Param;
  Dt : R;
  nonlins : list pyobj;
  use_bias : bool;
  lamb : R;
  cls : variant
}.

Definition with_layers (self : MultilayerPCN) (ls : list Linear) : MultilayerPCN :=
  {| n_layers := n_layers self; layers := ls; mem_dim := mem_dim self;
     memory := memory self; Dt := Dt self; nonlins := nonlins self;
     use_bias := use_bias self; lamb := lamb self; cls := cls self |}.

Definition with_memory (self : MultilayerPCN) (p : Param) : MultilayerPCN :=
  {| n_layers := n_layers self; layers := layers self; mem_dim := mem_dim self;
     memory := p; Dt := Dt self; nonlins := nonlins self;
     use_bias := use_bias self; lamb := lamb self; cls := cls self |}.

Definition with_cls (self : MultilayerPCN) (c : variant) : MultilayerPCN :=
  {| n_layers := n_layers self; layers := layers self; mem_dim := mem_dim self;
     memory := memory self; Dt := Dt self; nonlins := nonlins self;
     use_bias := use_bias self; lamb := lamb self; cls := c |}.

(** The per-episode buffers [self.val_nodes], [self.preds], [self.errs]:
    Python lists whose slots hold a tensor, or the empty list that
    [initialize] puts there ([None] here). *)
Record buffers : Type := {
  val_nodes : list (option (tensor R));
  preds : list (option (tensor R));
  errs : list (option (tensor R))
}.

Definition with_val_nodes (st : buffers) (vs : list (option (tensor R))) : buffers :=
  {| val_nodes := vs; preds := preds st; errs := errs st |}.

(** Reading a slot as a tensor operand. *)
Definition read (xs : list (option (tensor R))) (i : nat) : result (tensor R) :=
  do x <- getitem xs i;
  match x with
  | Some t => Ok t
  | None => Raise TypeError
  end.

(** *** MultilayerPCN.__init__

    [nn_Linear in_features out_features bias] stands for the library
    constructor with its random initial values. *)
Section Init.
Variable nn_Linear : nat → nat → bool → Linear.
Variable utils_Tanh utils_ReLU : Nonlin.
Variable randn1 : nat → tensor R.
Variable randn2 : nat → nat → tensor R.

Definition MultilayerPCN_init (nodes : list nat) (nonlin : pyobj) (Dt : R)
    (lamb : R) (use_bias : bool) : result MultilayerPCN :=
  let n_layers := length nodes in
  do layers <- mapM (λ l,
      do n_in <- getitem nodes l;
      do n_out <- getitem nodes (l + 1);
      Ok (nn_Linear n_in n_out use_bias)) (seq 0 (n_layers - 1));
  do mem_dim <- getitem nodes 0;
  let nonlin :=
    match nonlin with
    | Str s =>
        if decide (s = "Tanh") then Callable utils_Tanh
        else if decide (s = "ReLU") then Callable utils_ReLU
        else nonlin
    | _ => nonlin
    end in
  Ok {| n_layers := n_layers; layers := layers; mem_dim := mem_dim;
        memory := new_parameter (zeros1 mem_dim); Dt := Dt;
        nonlins := replicate (n_layers - 1) nonlin;
        use_bias := use_bias; lamb := lamb; cls := Multilayer |}.

Definition HierarchicalPCN_init (nodes : list nat) (nonlin : pyobj) (Dt : R)
    (init_std : R) (lamb : R) (use_bias : bool) : result MultilayerPCN :=
  do self <- MultilayerPCN_init nodes nonlin Dt lamb use_bias;
  let self := with_memory self
    (new_parameter (scale init_std (randn1 (mem_dim self)))) in
  Ok (with_cls self Hierarchical).

Definition HybridPCN_init (nodes : list nat) (nonlin : pyobj) (Dt : R)
    (init_std init_std_Wr : R) (lamb : R) (use_bias : bool) : result MultilayerPCN :=
  do self <- MultilayerPCN_init nodes nonlin Dt lamb use_bias;
  let self := with_memory self
    (new_parameter (scale init_std (randn1 (mem_dim self)))) in
  Ok (with_cls self
        (Hybrid (new_parameter
           (scale init_std_Wr (randn2 (mem_dim self) (mem_dim self)))))).

End Init.

(** *** initialize *)
Definition initialize (self : MultilayerPCN) : buffers :=
  {| val_nodes := replicate (n_layers self) None;
     preds := replicate (n_layers self) None;
     errs := replicate (n_layers self) None |}.

(** *** update_err_nodes (HierarchicalPCN, HybridPCN) *)

(** The prediction of layer 0: [memory], plus the lateral term in the
    hybrid class. *)
Definition pred_top (self : MultilayerPCN) (vals : list (option (tensor R)))
    : result (tensor R) :=
  match cls self with
  | Multilayer => Raise NotImplementedError
  | Hierarchical => Ok (data (memory self))
  | Hybrid Wr =>
      do v <- read vals 0;
      do r <- matmul v (transpose (data Wr));
      tadd (data (memory self)) r
  end.

(** [self.layers[l-1](self.nonlins[l-1](self.val_nodes[l-1]))]. *)
Definition pred_from_above (self : MultilayerPCN) (vals : list (option (tensor R)))
    (l : nat) : result (tensor R) :=
  do ly <- getitem (layers self) (l - 1);
  do nl <- getitem (nonlins self) (l - 1);
  do v <- read vals (l - 1);
  do a <- call nl v;
  linear_forward ly a.

Definition prediction (self : MultilayerPCN) (vals : list (option (tensor R)))
    (l : nat) : result (tensor R) :=
  if decide (l = 0) then pred_top self vals else pred_from_above self vals l.

Definition update_err_body (self : MultilayerPCN) (st : buffers) (l : nat)
    : result buffers :=
  do p <- prediction self (val_nodes st) l;
  do ps <- setitem (preds st) l (Some p);
  do v <- read (val_nodes st) l;
  do e <- tsub v p;
  do es <- setitem (errs st) l (Some e);
  Ok {| val_nodes := val_nodes st; preds := ps; errs := es |}.

Definition update_err_nodes (self : MultilayerPCN) (st : buffers) : result buffers :=
  match cls self with
  | Multilayer => Raise NotImplementedError
  | _ => for_range (update_err_body self) (seq 0 (n_layers self)) st
  end.

(** *** set_nodes *)
Definition set_nodes_body (self : MultilayerPCN) (st : buffers) (l : nat)
    : result buffers :=
  do y <- pred_from_above self (val_nodes st) l;
  do vs <- setitem (val_nodes st) l (Some y);
  Ok (with_val_nodes st vs).

Definition set_nodes (self : MultilayerPCN) (st : buffers) (batch_inp : tensor R)
    : result buffers :=
  do vs <- setitem (val_nodes st) 0 (Some (data (memory self)));
  do st <- for_range (set_nodes_body self)
             (seq 1 (n_layers self - 1 - 1)) (with_val_nodes st vs);
  do i <- last_index (val_nodes st);
  do vs <- setitem (val_nodes st) i (Some batch_inp);
  update_err_nodes self (with_val_nodes st vs).

(** *** update_val_nodes *)
(** Lines 119-121: [delta] of layer [l]. *)
Definition layer_delta (self : MultilayerPCN) (st : buffers) (l : nat)
    : result (tensor R) :=
  do nl <- getitem (nonlins self) l;
  do v <- read (val_nodes st) l;
  do derivative <- call_deriv nl v;
  let penalty := if decide (l = 0) then lamb self else szero in
  do e <- read (errs st) l;
  do a <- tsub (tneg e) (scale penalty (tsign v));
  do e1 <- read (errs st) (l + 1);
  do ly <- getitem (layers self) l;
  do m <- matmul e1 (data (weight ly));
  do b <- tmul derivative m;
  tadd a b.

Definition update_val_body (self : MultilayerPCN) (st : buffers) (l : nat)
    : result buffers :=
  do delta <- layer_delta self st l;
  do v <- read (val_nodes st) l;
  do v' <- tadd v (scale (Dt self) delta);
  do vs <- setitem (val_nodes st) l (Some v');
  Ok (with_val_nodes st vs).

Definition relax_sensory (self : MultilayerPCN) (st : buffers)
    (update_mask : tensor R) : result buffers :=
  do i <- last_index (val_nodes st);
  do v <- read (val_nodes st) i;
  do j <- last_index (errs st);
  do e <- read (errs st) j;
  do m <- tmul (tneg e) update_mask;
  do v' <- tadd v (scale (Dt self) m);
  do vs <- setitem (val_nodes st) i (Some v');
  Ok (with_val_nodes st vs).

Definition update_val_nodes (self : MultilayerPCN) (st : buffers)
    (update_mask : tensor R) (recon : bool) : result buffers :=
  do st <- for_range (update_val_body self) (seq 0 (n_layers self - 1)) st;
  do st <- (if recon then relax_sensory self st update_mask else Ok st);
  update_err_nodes self st.

(** *** update_grads (HierarchicalPCN, HybridPCN) *)
(** Lines 167-170 (192-195): layer [l] with its gradients assigned. *)
Definition graded_layer (st : buffers) (self : MultilayerPCN) (l : nat)
    : result Linear :=
  do e1 <- read (errs st) (l + 1);
  do nl <- getitem (nonlins self) l;
  do v <- read (val_nodes st) l;
  do a <- call nl v;
  do g <- matmul (transpose e1) a;
  let grad_w := tneg g in
  do ly <- getitem (layers self) l;
  do w <- set_grad (weight ly) grad_w;
  if use_bias self then
    do e1 <- read (errs st) (l + 1);
    let grad_b := tneg (sum0 e1) in
    match bias ly with
    | None => Raise AttributeError
    | Some b =>
        do b <- set_grad b grad_b;
        Ok {| weight := w; bias := Some b |}
    end
  else Ok {| weight := w; bias := bias ly |}.

Definition update_grads_body (st : buffers) (self : MultilayerPCN) (l : nat)
    : result MultilayerPCN :=
  do ly <- graded_layer st self l;
  Ok (with_layers self (<[l:=ly]> (layers self))).

Definition update_grads (self : MultilayerPCN) (st : buffers)
    : result MultilayerPCN :=
  match cls self with
  | Multilayer => Raise NotImplementedError
  | Hierarchical =>
      do e0 <- read (errs st) 0;
      do mem <- set_grad (memory self) (tneg (sum0 e0));
      for_range (update_grads_body st) (seq 0 (n_layers self - 1))
        (with_memory self mem)
  | Hybrid Wr =>
      do e0 <- read (errs st) 0;
      do mem <- set_grad (memory self) (tneg (sum0 e0));
      do e0 <- read (errs st) 0;
      do v0 <- read (val_nodes st) 0;
      do g <- matmul (transpose e0) v0;
      do g <- fill_diagonal_0 g;
      do wr <- set_grad Wr (tneg g);
      for_range (update_grads_body st) (seq 0 (n_layers self - 1))
        (with_cls (with_memory self mem) (Hybrid wr))
  end.

(** *** train_pc_generative, test_pc_generative *)
Definition relax (self : MultilayerPCN) (update_mask : tensor R) (recon : bool)
    (n_iters : nat) (st : buffers) : result buffers :=
  for_range (λ st _, update_val_nodes self st update_mask recon)
    (seq 0 n_iters) st.

(** [initialize], [set_nodes] and the relaxation loop, shared by the two
    entry points below. *)
Definition episode (self : MultilayerPCN) (inp : tensor R) (n_iters : nat)
    (update_mask : tensor R) (recon : bool) : result buffers :=
  let st := initialize self in
  do st <- set_nodes self st inp;
  relax self update_mask recon n_iters st.

Definition train_pc_generative (self : MultilayerPCN) (batch_inp : tensor R)
    (n_iters : nat) (update_mask : tensor R) : result (MultilayerPCN * buffers) :=
  do st <- episode self batch_inp n_iters update_mask false;
  do self <- update_grads self st;
  Ok (self, st).

Definition test_pc_generative (self : MultilayerPCN) (corrupt_inp : tensor R)
    (n_iters : nat) (update_mask : tensor R) (sensory : bool)
    : result (option (tensor R)) :=
  do st <- episode self corrupt_inp n_iters update_mask true;
  if sensory then
    do i <- last_index (val_nodes st);
    getitem (val_nodes st) i
  else
    do i <- last_index (preds st);
    getitem (preds st) i.

End Model.

Arguments Nonlin R : clear implicits.
Arguments pyobj R : clear implicits.
Arguments Param R : clear implicits.
Arguments Linear R : clear implicits.
Arguments variant R : clear implicits.
Arguments MultilayerPCN R : clear implicits.
Arguments buffers R : clear implicits.

(** * The rest of the file *)

(** ** MultilayerPCN.forward *)

Section Forward.
Context {R : Type} `{Scalar R}.

(** [val = self.layers[l](self.nonlins[l](val))]. *)
Definition forward_body (self : MultilayerPCN R) (val : tensor R) (l : nat)
    : result (tensor R) :=
  do ly <- getitem (layers self) l;
  do nl <- getitem (nonlins self) l;
  do a <- call nl val;
  linear_forward ly a.

Definition forward (self : MultilayerPCN R) : result (tensor R) :=
  for_range (forward_body self) (seq 0 (n_layers self - 1)) (data (memory self)).

(** What an optimizer's [zero_grad(set_to_none=True)] leaves: every
    [.grad] field empty. *)
Definition clear_grad (p : Param R) : Param R :=
  {| data := data p; grad := None |}.

Definition clear_layer (ly : Linear R) : Linear R :=
  {| weight := clear_grad (weight ly);
     bias := match bias ly with
             | Some b => Some (clear_grad b)
             | None => None
             end |}.

Definition clear_grads (self : MultilayerPCN R) : MultilayerPCN R :=
  {| n_layers := n_layers self;
     layers := map clear_layer (layers self);
     mem_dim := mem_dim self;
     memory := clear_grad (memory self);
     Dt := Dt self; nonlins := nonlins self;
     use_bias := use_bias self; lamb := lamb self;
     cls := match cls self with
            | Hybrid Wr => Hybrid (clear_grad Wr)
            | c => c
            end |}.

(** The entries of a tensor, row after row. *)
Definition flatten (t : tensor R) : list R :=
  match t with
  | T0 x => [x]
  | T1 v => v
  | T2 _ rows => concat rows
  end.

End Forward.

(** ** RecPCN *)

(** A constructor that returns, or raises [ValueError]. *)
Inductive construction (A : Type) : Type :=
| Constructed (a : A)
| ValueError (message : string).
Arguments Constructed {A} a.
Arguments ValueError {A} message.

Module RecPCN.
Section Defs.
Context {R : Type} `{Scalar R}.

(** The nonlinearity objects of [src/utils.py] the constructor chooses
    from, and the library's mean of the entries of a tensor. *)
Variable utils_Linear utils_Sigmoid utils_Binary : Nonlin R.
Variable torch_mean : list R → R.

(** The object: [train_mse] exists once [learning] has run. *)
Record model : Type := {
  dim : nat;
  dendrite : bool;
  Wr : Param R;
  mu : Param R;
  nonlin : Nonlin R;
  train_mse : option R
}.

Definition init (dim : nat) (dendrite : bool) (mode : string) : construction model :=
  let Wr := new_parameter (zeros2 dim dim) in
  let mu := new_parameter (zeros1 dim) in
  let built nl :=
    {| dim := dim; dendrite := dendrite; Wr := Wr; mu := mu; nonlin := nl;
       train_mse := None |} in
  if decide (mode = "linear") then Constructed (built utils_Linear)
  else if decide (mode = "rate") then Constructed (built utils_Sigmoid)
  else if decide (mode = "binary") then Constructed (built utils_Binary)
  else ValueError "no such nonlinearity!".

Definition forward (self : model) (X : tensor R) : result (tensor R) :=
  do y <- matmul (tmap (nl_apply (nonlin self)) X) (transpose (data (Wr self)));
  tadd y (data (mu self)).

Definition learning (self : model) (X : tensor R) : result model :=
  do preds <- forward self X;
  do errs <- tsub X preds;
  do g <- matmul (transpose errs) (tmap (nl_apply (nonlin self)) X);
  do grad_Wr <- fill_diagonal_0 g;
  let grad_mu := sum0 errs in
  do wr <- set_grad (Wr self) (tneg grad_Wr);
  do m <- set_grad (mu self) (tneg grad_mu);
  Ok {| dim := dim self; dendrite := dendrite self; Wr := wr; mu := m;
        nonlin := nonlin self;
        train_mse := Some (torch_mean (flatten (tmap (λ x, smul x x) errs))) |}.

Definition inference (self : model) (X_c : tensor R) : result (tensor R) :=
  do preds <- forward self X_c;
  do errs_X <- tsub X_c preds;
  if dendrite self then Ok (tneg errs_X)
  else
    do m <- matmul errs_X (data (Wr self));
    tadd (tneg errs_X) m.

End Defs.
End RecPCN.

Arguments RecPCN.model R : clear implicits.

(** ** AutoEncoder *)

Module AutoEncoder.
Section Defs.
Context {R : Type} `{Scalar R}.

(** The library's [nn.Linear] constructor and elementwise [nn.Tanh]. *)
Variable nn_Linear : nat → nat → bool → Linear R.
Variable torch_tanh : R → R.

Record model : Type := {
  dim : nat;
  latent_dim : nat;
  We : Linear R;
  Wd : Linear R
}.

Definition init (dim latent_dim : nat) : model :=
  {| dim := dim; latent_dim := latent_dim;
     We := nn_Linear dim latent_dim false;
     Wd := nn_Linear latent_dim dim false |}.

Definition forward (self : model) (X : tensor R) : result (tensor R) :=
  do h <- linear_forward (We self) X;
  do y <- linear_forward (Wd self) (tmap torch_tanh h);
  Ok (tmap torch_tanh y).

End Defs.
End AutoEncoder.

Arguments AutoEncoder.model R : clear implicits.

(** * Specification vocabulary *)

Section Vocabulary.
Context {R : Type} `{Scalar R}.
Implicit Types (self : MultilayerPCN R) (st : buffers R) (p : Param R).
Implicit Types (nodes : list nat) (xs : list (option (tensor R))).

(** ** Shapes *)

Definition has_shape (t : tensor R) (s : list nat) : Prop :=
  wf t ∧ shape t = s.

(** The shape of a layer-[l] tensor of width [n]: a vector, or a batch
    of [B] vectors. *)
Definition lshape (B n : nat) (batched : bool) : list nat :=
  if batched then [B; n] else [n].

Definition slot_shape xs (l : nat) (s : list nat) : Prop :=
  ∃ t, xs !! l = Some (Some t) ∧ has_shape t s.

(** The entry (i, j) of a matrix. *)
Definition tensor_get (t : tensor R) (i j : nat) : option R :=
  match t with
  | T2 _ rows =>
      match rows !! i with
      | Some r => r !! j
      | None => None
      end
  | _ => None
  end.

(** ** Well-formed models *)

Definition wf_layer (use_b : bool) (n_in n_out : nat) (ly : Linear R) : Prop :=
  has_shape (data (weight ly)) [n_out; n_in] ∧
  match bias ly with
  | None => use_b = false
  | Some b => use_b = true ∧ has_shape (data b) [n_out]
  end.

(** A model over the node dimensions [nodes]: what the constructors
    build (with a nonlinearity object in every slot of [nonlins]),
    whatever values the parameters have taken since. *)
Record wf_model nodes self : Prop := {
  wf_n_layers : n_layers self = length nodes;
  wf_two : 2 ≤ length nodes;
  wf_memory : ∀ n0, nodes !! 0 = Some n0 → has_shape (data (memory self)) [n0];
  wf_layers_len : length (layers self) = length nodes - 1;
  wf_layers : ∀ l n_in n_out,
    nodes !! l = Some n_in → nodes !! (l + 1) = Some n_out →
    ∃ ly, layers self !! l = Some ly ∧ wf_layer (use_bias self) n_in n_out ly;
  wf_nonlins : ∀ l, l < length nodes - 1 →
    ∃ f, nonlins self !! l = Some (Callable f);
  wf_cls : match cls self with
           | Multilayer => False
           | Hierarchical => True
           | Hybrid Wr => ∀ n0, nodes !! 0 = Some n0 → has_shape (data Wr) [n0; n0]
           end
}.

(** ** The buffers along an episode *)

(** Layers [k] and below it (towards the sensory layer) hold batches,
    the layers above [k] still hold single vectors. *)
Definition profile nodes (B k : nat) xs : Prop :=
  ∀ l n, nodes !! l = Some n → slot_shape xs l (lshape B n (bool_decide (k ≤ l))).

Record Inv nodes (B k : nat) st : Prop := {
  inv_k : k ≤ length nodes - 1;
  inv_len_val : length (val_nodes st) = length nodes;
  inv_len_preds : length (preds st) = length nodes;
  inv_len_errs : length (errs st) = length nodes;
  inv_val : profile nodes B k (val_nodes st);
  inv_errs : profile nodes B k (errs st)
}.

(** The predictions in the buffers are those of the value nodes in the
    buffers: every step ends with [update_err_nodes]. *)
Definition coherent self st : Prop :=
  ∀ l, l < n_layers self →
    ∃ t, prediction self (val_nodes st) l = Ok t ∧ preds st !! l = Some (Some t).

(** ** Gradients *)

(** A parameter after the gradient step: same value, and a gradient of
    the shape of the value. *)
Definition param_ready p p' : Prop :=
  data p' = data p ∧ ∃ g, grad p' = Some g ∧ shape g = shape (data p').

(** The fields the gradient loop leaves alone. *)
Definition same_frame self self' : Prop :=
  n_layers self' = n_layers self ∧ memory self' = memory self ∧
  nonlins self' = nonlins self ∧ use_bias self' = use_bias self ∧
  cls self' = cls self ∧ length (layers self') = length (layers self).

(** Every learnable parameter of [self'] is the one of [self] with a
    gradient of the shape of its value. *)
Definition grads_ready self self' : Prop :=
  param_ready (memory self) (memory self') ∧
  length (layers self') = length (layers self) ∧
  (∀ l ly', layers self' !! l = Some ly' →
     ∃ ly, layers self !! l = Some ly ∧
           param_ready (weight ly) (weight ly') ∧
           match bias ly' with
           | Some b' => ∃ b, bias ly = Some b ∧ param_ready b b'
           | None => bias ly = None
           end) ∧
  match cls self' with
  | Hybrid Wr' => ∃ Wr, cls self = Hybrid Wr ∧ param_ready Wr Wr'
  | c => cls self = c
  end.

(** ** Zero tensors *)

(** Every entry of the tensor satisfies [P]. *)
Definition tForall (P : R → Prop) (t : tensor R) : Prop :=
  match t with
  | T0 x => P x
  | T1 v => Forall P v
  | T2 _ rows => Forall (Forall P) rows
  end.

Definition all_zero (t : tensor R) : Prop := tForall (λ x, x = szero) t.

(** Every tensor in the list of slots is zero. *)
Definition zero_slots xs : Prop :=
  ∀ l t, xs !! l = Some (Some t) → all_zero t.

(** Zero memory, zero layer weights, no bias. *)
Definition zero_model self : Prop :=
  all_zero (data (memory self)) ∧
  Forall (λ ly, all_zero (data (weight ly)) ∧ bias ly = None) (layers self).

(** The buffers hold zero value nodes and zero errors. *)
Definition zero_buffers st : Prop :=
  zero_slots (val_nodes st) ∧ zero_slots (errs st).

End Vocabulary.

(** ** Vocabulary for the rest of the file *)

Section MoreVocabulary.
Context {R : Type} `{Scalar R}.

(** The buffers agree with each other: every prediction is the one of
    the value nodes in the buffers, every error is value minus
    prediction. *)
Definition consistent (self : MultilayerPCN R) (st : buffers R) : Prop :=
  ∀ l, l < n_layers self →
    ∃ p v e, prediction self (val_nodes st) l = Ok p ∧
             val_nodes st !! l = Some (Some v) ∧
             tsub v p = Ok e ∧
             preds st !! l = Some (Some p) ∧
             errs st !! l = Some (Some e).

(** The [nonlin] arguments the constructor resolves to an object. *)
Definition known_nonlin (o : pyobj R) : Prop :=
  match o with
  | Callable _ => True
  | Str s => s = "Tanh" ∨ s = "ReLU"
  end.

(** Every gradient held by the parameter is zero. *)
Definition grad_zero (p : Param R) : Prop :=
  ∃ g, grad p = Some g ∧ all_zero g.

(** Every learnable parameter holds an all-zero gradient. *)
Definition grads_zero (self : MultilayerPCN R) : Prop :=
  grad_zero (memory self) ∧
  Forall (λ ly, grad_zero (weight ly) ∧
                match bias ly with
                | Some b => grad_zero b
                | None => True
                end) (layers self) ∧
  match cls self with
  | Hybrid Wr => grad_zero Wr
  | _ => True
  end.

(** A [RecPCN] object of dimension [d]. *)
Definition wf_RecPCN (d : nat) (self : RecPCN.model R) : Prop :=
  has_shape (data (RecPCN.Wr self)) [d; d] ∧
  has_shape (data (RecPCN.mu self)) [d].

(** An [AutoEncoder] object: two layers without bias, of shapes
    (latent, dim) and (dim, latent). *)
Definition wf_AutoEncoder (self : AutoEncoder.model R) : Prop :=
  wf_layer false (AutoEncoder.dim self) (AutoEncoder.latent_dim self)
    (AutoEncoder.We self) ∧
  wf_layer false (AutoEncoder.latent_dim self) (AutoEncoder.dim self)
    (AutoEncoder.Wd self).

(** The entries (i, j) at which the mask is zero hold the same values
    in [a] and in [b]. *)
Definition agree_where_zero (mask a b : tensor R) : Prop :=
  ∀ i j, tensor_get mask i j = Some szero → tensor_get a i j = tensor_get b i j.

(** Sample [i] of a layer tensor: row [i] of a batch, as a batch of one
    row; a single vector is shared by all the samples. *)
Definition sample (i : nat) (t : tensor R) : option (tensor R) :=
  match t with
  | T2 n rows => (λ r, T2 n [r]) <$> rows !! i
  | _ => Some t
  end.

Definition sample_slot (i : nat) (x y : option (tensor R)) : Prop :=
  match x, y with
  | None, None => True
  | Some t, Some t' => sample i t = Some t'
  | _, _ => False
  end.

(** The buffers [st'] hold, slot by slot, sample [i] of the buffers
    [st]. *)
Definition sample_buffers (i : nat) (st st' : buffers R) : Prop :=
  Forall2 (sample_slot i) (val_nodes st) (val_nodes st') ∧
  Forall2 (sample_slot i) (preds st) (preds st') ∧
  Forall2 (sample_slot i) (errs st) (errs st').

End MoreVocabulary.

(** * Concrete models over [Z] *)

Module Examples.
Open Scope Z_scope.

(** Modelled from the spec: the rectified-linear nonlinearity of
    [src/utils.py], with derivative the indicator of [x > 0]. *)
Definition relu : Nonlin Z :=
  {| nl_apply := λ x, Z.max 0 x; nl_deriv := λ x, if (0 <? x)%Z then 1 else 0 |}.

(** Modelled from the spec: the hyperbolic-tangent object of
    [src/utils.py]; over [Z] only its value at 0 is exact, and no
    result below depends on it. *)
Definition tanh_stub : Nonlin Z :=
  {| nl_apply := λ x, Z.sgn x; nl_deriv := λ x, if (x =? 0)%Z then 1 else 0 |}.

(** Stand-ins for the library's random initial values: all zero. *)
Definition zero_Linear (n_in n_out : nat) (use_bias : bool) : Linear Z :=
  {| weight := new_parameter (zeros2 n_out n_in);
     bias := if use_bias then Some (new_parameter (zeros1 n_out)) else None |}.
Definition zero_randn1 (n : nat) : tensor Z := zeros1 n.

(** A hierarchical model on nodes [2; 3], without bias. *)
Definition hier2 : MultilayerPCN Z :=
  {| n_layers := 2;
     layers := [ {| weight := new_parameter (T2 2 [[1; 2]; [3; 4]; [5; 6]]);
                    bias := None |} ];
     mem_dim := 2;
     memory := new_parameter (T1 [1; 1]);
     Dt := 1;
     nonlins := [Callable relu];
     use_bias := false;
     lamb := 0;
     cls := Hierarchical |}.

(** A batch of two sensory vectors for [hier2], and a mask for it. *)
Definition batch2 : tensor Z := T2 3 [[1; 0; 0]; [0; 1; 0]].
Definition ones2 : tensor Z := T2 3 [[1; 1; 1]; [1; 1; 1]].

(** A hybrid model on nodes [2; 3; 1], with bias. *)
Definition hybrid3 : MultilayerPCN Z :=
  {| n_layers := 3;
     layers := [ {| weight := new_parameter (T2 2 [[1; 2]; [3; 4]; [5; 6]]);
                    bias := Some (new_parameter (T1 [1; 1; 1])) |};
                 {| weight := new_parameter (T2 3 [[1; 2; 0]]);
                    bias := Some (new_parameter (T1 [1])) |} ];
     mem_dim := 2;
     memory := new_parameter (T1 [1; 1]);
     Dt := 1;
     nonlins := [Callable relu; Callable relu];
     use_bias := true;
     lamb := 1;
     cls := Hybrid (new_parameter (T2 2 [[0; 1]; [1; 0]])) |}.

(** A batch of four sensory vectors for [hybrid3]. *)
Definition batch3 : tensor Z := T2 1 [[1]; [0]; [2]; [3]].

(** The buffers of [hier2] after one relaxation step on [batch2], and of
    [hybrid3] after two steps on [batch3]. *)
Definition hier2_relaxed : buffers Z :=
  Eval vm_compute in
    match episode hier2 batch2 1 ones2 false with
    | Ok st => st
    | Raise _ => initialize hier2
    end.

Definition hybrid3_relaxed : buffers Z :=
  Eval vm_compute in
    match episode hybrid3 batch3 2 batch3 false with
    | Ok st => st
    | Raise _ => initialize hybrid3
    end.

(** A hybrid model on nodes [2; 3] whose memory and layer weight are
    zero, without bias. *)
Definition zero_hybrid2 : MultilayerPCN Z :=
  {| n_layers := 2;
     layers := [ zero_Linear 2 3 false ];
     mem_dim := 2;
     memory := new_parameter (zeros1 2);
     Dt := 1;
     nonlins := [Callable tanh_stub];
     use_bias := false;
     lamb := 1;
     cls := Hybrid (new_parameter (T2 2 [[0; 1]; [1; 0]])) |}.

End Examples.

(** ** More concrete inputs *)

Module MoreExamples.
Import Examples.
Open Scope Z_scope.

(** A batch whose two rows are what [hier2] predicts, and the buffers
    after one relaxation step on it. *)
Definition predicted2 : tensor Z := T2 3 [[3; 7; 11]; [3; 7; 11]].

Definition hier2_settled : buffers Z :=
  Eval vm_compute in
    match episode hier2 predicted2 1 ones2 false with
    | Ok st => st
    | Raise _ => initialize hier2
    end.

(** A mask that freezes the first and the last entry of the first row
    and the last entry of the second. *)
Definition partial_mask2 : tensor Z := T2 3 [[0; 1; 0]; [1; 1; 0]].

(** An empty batch for [hybrid3]. *)
Definition empty3 : tensor Z := T2 1 [].

(** A stand-in for the library's random matrix: all zero. *)
Definition zero_randn2 (n m : nat) : tensor Z := zeros2 n m.

(** [hier2] as an object of the base class. *)
Definition base2 : MultilayerPCN Z := with_cls hier2 Multilayer.

(** [hier2] with gradients left by an earlier step. *)
Definition hier2_stale : MultilayerPCN Z :=
  {| n_layers := 2;
     layers := [ {| weight := {| data := T2 2 [[1; 2]; [3; 4]; [5; 6]];
                                grad := Some (T2 2 [[9; 9]; [9; 9]; [9; 9]]) |};
                    bias := None |} ];
     mem_dim := 2;
     memory := {| data := T1 [1; 1]; grad := Some (T1 [7; 7]) |};
     Dt := 1;
     nonlins := [Callable relu];
     use_bias := false;
     lamb := 0;
     cls := Hierarchical |}.

(** Stand-ins over [Z] for the nonlinearity objects [RecPCN] chooses
    from, modelled from the spec: identity (derivative 1) and the hard
    binary step (derivative 0); the logistic function has no
    counterpart over [Z] and is stood in for by the step. *)
Definition linear_Z : Nonlin Z := {| nl_apply := λ x, x; nl_deriv := λ _, 1 |}.
Definition binary_Z : Nonlin Z :=
  {| nl_apply := λ x, if (0 <? x)%Z then 1 else 0; nl_deriv := λ _, 0 |}.

(** A stand-in for the library's mean: the floor of sum over count. *)
Definition mean_Z (xs : list Z) : Z := (foldl Z.add 0 xs / Z.of_nat (length xs))%Z.

(** A trained [RecPCN] of dimension 2 and a batch of three vectors. *)
Definition rec2 : RecPCN.model Z :=
  {| RecPCN.dim := 2; RecPCN.dendrite := false;
     RecPCN.Wr := new_parameter (T2 2 [[0; 2]; [-1; 0]]);
     RecPCN.mu := new_parameter (T1 [1; 0]);
     RecPCN.nonlin := linear_Z;
     RecPCN.train_mse := None |}.

Definition rec_batch : tensor Z := T2 2 [[1; 2]; [0; 1]; [3; -1]].

(** An autoencoder of dimension 3 with 2 latent units. *)
Definition ae32 : AutoEncoder.model Z :=
  {| AutoEncoder.dim := 3; AutoEncoder.latent_dim := 2;
     AutoEncoder.We := {| weight := new_parameter (T2 3 [[1; 0; 1]; [0; 1; 0]]);
                          bias := None |};
     AutoEncoder.Wd := {| weight := new_parameter (T2 2 [[1; 0]; [0; 1]; [1; 1]]);
                          bias := None |} |}.

End MoreExamples.

(** * A concrete model over binary64 floats *)

Module FloatExamples.
Import PrimFloat.
Open Scope float_scope.

(** The scalars of the tensor library in double precision: IEEE 754
    binary64 arithmetic; [sign] is 1, -1 or 0 by comparison with 0. *)
#[export] Instance float_Scalar : Scalar float := {
  szero := 0;
  sadd := PrimFloat.add;
  ssub := PrimFloat.sub;
  smul := PrimFloat.mul;
  sneg := PrimFloat.opp;
  ssign := λ x, if 0 <? x then 1 else if x <? 0 then -1 else 0
}.




End FloatExamples.

(** * Properties *)

#[export] Instance Z_ScalarLaws : ScalarLaws Z.
Proof. constructor; simpl; intros; lia. Qed.

(** ** The exception monad *)

Lemma bind_Ok {A B : Type} (m : result A) (k : A → result B) (b : B) :
  bind m k = Ok b → ∃ a, m = Ok a ∧ k a = Ok b.
Proof. destruct m as [a|e]; simpl; [eauto | discriminate]. Qed.

Ltac inv_bind H :=
  let x := fresh "x" in
  let Hx := fresh "Hx" in
  apply bind_Ok in H; destruct H as (x & Hx & H).

Lemma mapM_Forall {A B : Type} (g : A → result B) (h : A → B) (l : list A) :
  Forall (λ x, g x = Ok (h x)) l → mapM g l = Ok (map h l).
Proof.
  induction 1 as [|x l Hx _ IH]; simpl; [done |].
  by rewrite Hx, IH.
Qed.

Lemma mapM_Ok_Forall {A B : Type} (g : A → result B) (P : A → Prop) (Q : B → Prop)
    (l : list A) (l' : list B) :
  (∀ x y, P x → g x = Ok y → Q y) →
  Forall P l → mapM g l = Ok l' → Forall Q l'.
Proof.
  intros Hg Hl. revert l'. induction Hl as [|x l Hx _ IH]; simpl; intros l' Hm.
  - injection Hm as <-. constructor.
  - inv_bind Hm. inv_bind Hm. injection Hm as <-. constructor; eauto.
Qed.

Lemma zipM_pure {A B C : Type} (f : A → B → C) (la : list A) (lb : list B) :
  zipM (λ x y, Ok (f x y)) la lb = Ok (zip_with f la lb).
Proof.
  revert lb. induction la as [|a la IH]; intros [|b lb]; simpl; try done.
  by rewrite IH.
Qed.

Lemma zipM_Forall2 {A B C : Type} (g : A → B → result C) (h : A → B → C)
    (la : list A) (lb : list B) :
  Forall2 (λ a b, g a b = Ok (h a b)) la lb →
  zipM g la lb = Ok (zip_with h la lb).
Proof.
  induction 1 as [|a b la lb Hab _ IH]; simpl; [done |].
  by rewrite Hab, IH.
Qed.

Lemma zipM_Ok_Forall {A B C : Type} (g : A → B → result C)
    (P : A → Prop) (Q : B → Prop) (S : C → Prop) (la : list A) (lb : list B)
    (lc : list C) :
  (∀ a b c, P a → Q b → g a b = Ok c → S c) →
  Forall P la → Forall Q lb → zipM g la lb = Ok lc → Forall S lc.
Proof.
  intros Hg Ha. revert lb lc.
  induction Ha as [|a la Hpa _ IH]; intros lb lc Hb Hz; simpl in Hz.
  - injection Hz as <-. constructor.
  - destruct Hb as [|b lb Hqb Hb].
    + injection Hz as <-. constructor.
    + inv_bind Hz. inv_bind Hz. injection Hz as <-. constructor; eauto.
Qed.

(** ** Shapes *)

Section TensorFacts.
Context {R : Type} `{Scalar R}.
Implicit Types (t a b : tensor R) (f : R → R → R).

Lemma has_shape_T1 (t : tensor R) (n : nat) :
  has_shape t [n] → ∃ v, t = T1 v ∧ length v = n.
Proof.
  intros [_ Hs]. destruct t as [x|v|c rows]; simpl in Hs; try discriminate.
  injection Hs as <-. eauto.
Qed.

Lemma has_shape_T2 (t : tensor R) (B n : nat) :
  has_shape t [B; n] →
  ∃ rows, t = T2 n rows ∧ length rows = B ∧ Forall (λ r, length r = n) rows.
Proof.
  intros [Hw Hs]. destruct t as [x|v|c rows]; simpl in Hs; try discriminate.
  injection Hs as <- <-. eauto.
Qed.

Lemma tmap_shape (g : R → R) t : shape (tmap g t) = shape t.
Proof. destruct t; simpl; by rewrite ?length_map. Qed.

Lemma tmap_wf (g : R → R) t : wf t → wf (tmap g t).
Proof.
  destruct t as [x|v|n rows]; simpl; try done.
  intros Hw. apply Forall_map. eapply Forall_impl; [exact Hw |].
  simpl. intros r Hr. by rewrite length_map.
Qed.

Lemma tmap_has_shape (g : R → R) t s : has_shape t s → has_shape (tmap g t) s.
Proof. intros [Hw Hs]. split; [by apply tmap_wf | by rewrite tmap_shape]. Qed.

Lemma bdim_same (n : nat) : bdim n n = Ok n.
Proof. unfold bdim. by rewrite decide_True. Qed.

Lemma bvec_same f (va vb : list R) :
  length va = length vb → bvec f va vb = Ok (zip_with f va vb).
Proof.
  intros Hl. unfold bvec, bcast. rewrite decide_True by done. apply zipM_pure.
Qed.

(** Closed forms of a broadcasting operation on the shapes that occur
    in an episode. *)
Lemma bop_T1_T1 f (va vb : list R) :
  length va = length vb → bop f (T1 va) (T1 vb) = Ok (T1 (zip_with f va vb)).
Proof. intros Hl. simpl. by rewrite bvec_same. Qed.

Lemma bop_T2_T1 f (n : nat) (rows : list (list R)) (vb : list R) :
  Forall (λ r, length r = n) rows → length vb = n →
  bop f (T2 n rows) (T1 vb) = Ok (T2 n (map (λ r, zip_with f r vb) rows)).
Proof.
  intros Hw Hl. simpl. rewrite Hl, bdim_same. simpl.
  rewrite (mapM_Forall _ (λ r, zip_with f r vb)); [done |].
  eapply Forall_impl; [exact Hw |]. simpl. intros r Hr.
  apply bvec_same. congruence.
Qed.

Lemma bop_T1_T2 f (n : nat) (va : list R) (rows : list (list R)) :
  Forall (λ r, length r = n) rows → length va = n →
  bop f (T1 va) (T2 n rows) = Ok (T2 n (map (λ r, zip_with f va r) rows)).
Proof.
  intros Hw Hl. simpl. rewrite Hl, bdim_same. simpl.
  rewrite (mapM_Forall _ (λ r, zip_with f va r)); [done |].
  eapply Forall_impl; [exact Hw |]. simpl. intros r Hr.
  apply bvec_same. congruence.
Qed.

Lemma bop_T2_T2 f (n : nat) (ra rb : list (list R)) :
  Forall (λ r, length r = n) ra → Forall (λ r, length r = n) rb →
  length ra = length rb →
  bop f (T2 n ra) (T2 n rb) = Ok (T2 n (zip_with (zip_with f) ra rb)).
Proof.
  intros Ha Hb Hl. simpl. rewrite bdim_same. simpl.
  unfold bcast. rewrite decide_True by done.
  rewrite (zipM_Forall2 _ (zip_with f)); [done |].
  clear -Ha Hb Hl. revert rb Hb Hl.
  induction Ha as [|r ra Hr _ IH]; intros [|r' rb] Hb Hl; simpl in Hl;
    try discriminate; constructor.
  - apply bvec_same. inversion Hb; subst. congruence.
  - apply IH; [by inversion Hb | lia].
Qed.

Lemma Forall_zip_with_length {A : Type} (g : A → A → A) (n : nat)
    (ra rb : list (list A)) :
  Forall (λ r, length r = n) ra → Forall (λ r, length r = n) rb →
  Forall (λ r, length r = n) (zip_with (zip_with g) ra rb).
Proof.
  intros Ha. revert rb. induction Ha as [|r ra Hr _ IH]; intros rb Hb; simpl.
  - constructor.
  - destruct Hb as [|r' rb Hr' Hb]; constructor; [| by apply IH].
    rewrite length_zip_with. lia.
Qed.

Lemma bop_lshape f (B n : nat) (b1 b2 : bool) a b :
  has_shape a (lshape B n b1) → has_shape b (lshape B n b2) →
  ∃ c, bop f a b = Ok c ∧ has_shape c (lshape B n (b1 || b2)).
Proof.
  intros Ha Hb. destruct b1, b2; simpl in *.
  - apply has_shape_T2 in Ha as (ra & -> & Hla & Hwa).
    apply has_shape_T2 in Hb as (rb & -> & Hlb & Hwb).
    eexists. split; [apply bop_T2_T2; [done | done | congruence] |].
    split; simpl.
    + by apply Forall_zip_with_length.
    + rewrite length_zip_with. f_equal. lia.
  - apply has_shape_T2 in Ha as (ra & -> & Hla & Hwa).
    apply has_shape_T1 in Hb as (vb & -> & Hlb).
    eexists. split; [by apply bop_T2_T1 |].
    split; simpl.
    + apply Forall_map. eapply Forall_impl; [exact Hwa |]. simpl.
      intros r Hr. rewrite length_zip_with. lia.
    + by rewrite length_map, Hla.
  - apply has_shape_T1 in Ha as (va & -> & Hla).
    apply has_shape_T2 in Hb as (rb & -> & Hlb & Hwb).
    eexists. split; [by apply bop_T1_T2 |].
    split; simpl.
    + apply Forall_map. eapply Forall_impl; [exact Hwb |]. simpl.
      intros r Hr. rewrite length_zip_with. lia.
    + by rewrite length_map, Hlb.
  - apply has_shape_T1 in Ha as (va & -> & Hla).
    apply has_shape_T1 in Hb as (vb & -> & Hlb).
    eexists. split; [apply bop_T1_T1; congruence |].
    split; simpl; [done |]. rewrite length_zip_with. f_equal. lia.
Qed.

Lemma bop_same_shape f a b (s : list nat) :
  has_shape a s → has_shape b s → ∃ c, bop f a b = Ok c ∧ has_shape c s.
Proof.
  intros [Hwa Hsa] [Hwb Hsb]. subst s.
  destruct a as [x|va|n ra], b as [y|vb|m rb]; simpl in *;
    try discriminate.
  - eexists. split; [done |]. by split.
  - injection Hsb as Hl. eexists. split; [by apply bop_T1_T1 |].
    split; simpl; [done |]. rewrite length_zip_with. f_equal. lia.
  - injection Hsb as Hl Hn. subst m.
    eexists. split; [by apply bop_T2_T2 |].
    split; simpl; [by apply Forall_zip_with_length |].
    rewrite length_zip_with. f_equal. lia.
Qed.

(** Transposition and products. *)
Lemma length_columns (n : nat) (rows : list (list R)) : length (columns n rows) = n.
Proof. unfold columns. by rewrite length_map, length_seq. Qed.

Lemma columns_wf (n : nat) (rows : list (list R)) :
  Forall (λ c, length c = length rows) (columns n rows).
Proof.
  unfold columns. apply Forall_map, Forall_forall. intros j _. simpl.
  unfold column. by rewrite length_map.
Qed.

Lemma transpose_has_shape t (m n : nat) :
  has_shape t [m; n] → has_shape (transpose t) [n; m].
Proof.
  intros Ht. apply has_shape_T2 in Ht as (rows & -> & Hl & Hw). subst m.
  split; simpl; [apply columns_wf | by rewrite length_columns].
Qed.

Lemma matmul_wf a b c : matmul a b = Ok c → wf c.
Proof.
  destruct a as [x|va|n ra], b as [y|vb|m rb]; simpl; try discriminate;
    case_decide; try discriminate; intros [= <-]; simpl; try done.
  apply Forall_map, Forall_forall. intros r _. simpl.
  by rewrite length_map, length_columns.
Qed.

(** [x @ w] for a vector or a batch [x] of width [k] and [w] of shape
    (k, n). *)
Lemma matmul_lshape (B k n : nat) (batched : bool) x w :
  has_shape x (lshape B k batched) → has_shape w [k; n] →
  ∃ y, matmul x w = Ok y ∧ has_shape y (lshape B n batched).
Proof.
  intros Hx Hw. apply has_shape_T2 in Hw as (rw & -> & Hlw & Hww).
  destruct batched; simpl in *.
  - apply has_shape_T2 in Hx as (rx & -> & Hlx & Hwx). simpl.
    rewrite decide_True by done. eexists. split; [done |].
    split; simpl; [| by rewrite length_map, Hlx].
    apply Forall_map, Forall_forall. intros r _. simpl.
    by rewrite length_map, length_columns.
  - apply has_shape_T1 in Hx as (vx & -> & Hlx). simpl.
    rewrite decide_True by congruence. eexists. split; [done |].
    split; simpl; [done | by rewrite length_map, length_columns].
Qed.

Lemma sum0_T2_shape (B n : nat) t : has_shape t [B; n] → has_shape (sum0 t) [n].
Proof.
  intros Ht. apply has_shape_T2 in Ht as (rows & -> & _ & _).
  split; simpl; [done | by rewrite length_map, length_columns].
Qed.

Lemma fill_diagonal_0_wf t t' : wf t → fill_diagonal_0 t = Ok t' → wf t'.
Proof.
  destruct t as [x|v|n rows]; simpl; try discriminate.
  intros Hw [= <-]. simpl. apply Forall_lookup. intros i r Hr.
  rewrite list_lookup_imap in Hr.
  destruct (rows !! i) as [r0|] eqn:Hr0; simpl in Hr; [| discriminate].
  injection Hr as <-. rewrite length_insert.
  by apply (Forall_lookup_1 _ _ _ _ Hw Hr0).
Qed.

End TensorFacts.

(** ** Lists as Python lists, and loops *)

Lemma getitem_Ok {A : Type} (xs : list A) (i : nat) (x : A) :
  getitem xs i = Ok x ↔ xs !! i = Some x.
Proof.
  unfold getitem. destruct (xs !! i); split; intros Hx; try discriminate;
    congruence.
Qed.

Lemma setitem_Ok {A : Type} (xs ys : list A) (i : nat) (v : A) :
  setitem xs i v = Ok ys ↔ i < length xs ∧ ys = <[i:=v]> xs.
Proof.
  unfold setitem. case_decide; split.
  - intros [= <-]. done.
  - intros [_ ->]. done.
  - discriminate.
  - intros [? _]. lia.
Qed.

Lemma last_index_Ok {A : Type} (xs : list A) (i : nat) :
  last_index xs = Ok i ↔ length xs = S i.
Proof.
  unfold last_index. destruct (length xs); split; intros Hx; try discriminate;
    congruence.
Qed.

(** Loop rule, total form: every iteration succeeds and re-establishes
    the invariant. *)
Lemma for_range_total {St : Type} (P : nat → St → Prop) (body : St → nat → result St)
    (a n : nat) (s0 : St) :
  P 0 s0 →
  (∀ i s, i < n → P i s → ∃ s', body s (a + i) = Ok s' ∧ P (S i) s') →
  ∃ s', for_range body (seq a n) s0 = Ok s' ∧ P n s'.
Proof.
  revert P a s0. induction n as [|n IH]; intros P a s0 H0 Hstep; simpl.
  - eauto.
  - destruct (Hstep 0 s0) as (s1 & Hb & H1); [lia | done |].
    rewrite Nat.add_0_r in Hb. rewrite Hb. simpl.
    apply (IH (λ i, P (S i))); [done |].
    intros i s Hi Hs. destruct (Hstep (S i) s) as (s' & Hb' & Hs'); [lia | done |].
    exists s'. split; [| done]. rewrite <- Hb'. f_equal. lia.
Qed.

(** Loop rule, partial form: what a loop that returned has established. *)
Lemma for_range_partial {St : Type} (P : nat → St → Prop) (body : St → nat → result St)
    (a n : nat) (s0 s' : St) :
  P 0 s0 →
  (∀ i s s1, i < n → P i s → body s (a + i) = Ok s1 → P (S i) s1) →
  for_range body (seq a n) s0 = Ok s' → P n s'.
Proof.
  revert P a s0. induction n as [|n IH]; intros P a s0 H0 Hstep; simpl.
  - intros [= <-]. done.
  - intros Hr. inv_bind Hr.
    apply (IH (λ i, P (S i)) (S a) x); [| | done].
    + apply (Hstep 0 s0); [lia | done |]. by rewrite Nat.add_0_r.
    + intros i s s1 Hi Hs Hb. apply (Hstep (S i) s); [lia | done |].
      rewrite <- Hb. f_equal. lia.
Qed.

Lemma for_range_preserves {St : Type} (P : St → Prop) (body : St → nat → result St)
    (range : list nat) (s0 s' : St) :
  (∀ s l s1, P s → body s l = Ok s1 → P s1) →
  P s0 → for_range body range s0 = Ok s' → P s'.
Proof.
  intros Hstep. revert s0. induction range as [|l range IH]; intros s0 H0; simpl.
  - intros [= <-]. done.
  - intros Hr. inv_bind Hr. eauto.
Qed.

Section Loops.
Context {R : Type} `{Scalar R}.
Implicit Types (self : MultilayerPCN R) (st : buffers R).

Lemma read_Ok (xs : list (option (tensor R))) (i : nat) (t : tensor R) :
  read xs i = Ok t ↔ xs !! i = Some (Some t).
Proof.
  unfold read, getitem.
  destruct (xs !! i) as [[t'|]|]; simpl; split; intros Hx; try discriminate;
    congruence.
Qed.

Lemma read_ext (xs ys : list (option (tensor R))) (i : nat) :
  xs !! i = ys !! i → read xs i = read ys i.
Proof. unfold read, getitem. by intros ->. Qed.

(** *** update_err_nodes *)

Lemma update_err_nodes_spec self st st' :
  update_err_nodes self st = Ok st' →
  val_nodes st' = val_nodes st ∧
  length (preds st') = length (preds st) ∧
  length (errs st') = length (errs st) ∧
  ∀ l, l < n_layers self →
    ∃ p v e, prediction self (val_nodes st) l = Ok p ∧
             read (val_nodes st) l = Ok v ∧
             tsub v p = Ok e ∧
             preds st' !! l = Some (Some p) ∧
             errs st' !! l = Some (Some e).
Proof.
  intros Hu.
  assert (for_range (update_err_body self) (seq 0 (n_layers self)) st = Ok st')
    as Hloop by (unfold update_err_nodes in Hu; by destruct (cls self)).
  clear Hu. revert Hloop.
  apply (for_range_partial (λ i s,
    val_nodes s = val_nodes st ∧
    length (preds s) = length (preds st) ∧
    length (errs s) = length (errs st) ∧
    ∀ l, l < i →
      ∃ p v e, prediction self (val_nodes st) l = Ok p ∧
               read (val_nodes st) l = Ok v ∧
               tsub v p = Ok e ∧
               preds s !! l = Some (Some p) ∧
               errs s !! l = Some (Some e))).
  - repeat split; intros; lia.
  - intros i s s1 Hi (Hv & Hlp & Hle & Hdone) Hb. simpl in Hb.
    unfold update_err_body in Hb. rewrite Hv in Hb.
    inv_bind Hb. rename x into p, Hx into Hp.
    inv_bind Hb. rename x into ps, Hx into Hps.
    inv_bind Hb. rename x into v, Hx into Hrv.
    inv_bind Hb. rename x into e, Hx into He.
    inv_bind Hb. rename x into es, Hx into Hes.
    injection Hb as <-. simpl.
    apply setitem_Ok in Hps as [Hip ->]. apply setitem_Ok in Hes as [Hie ->].
    rewrite !length_insert. repeat split; try done.
    intros l Hl. destruct (decide (l = i)) as [->|Hne].
    + exists p, v, e. rewrite !list_lookup_insert_eq by done. done.
    + destruct (Hdone l) as (p' & v' & e' & ? & ? & ? & ? & ?); [lia |].
      exists p', v', e'. rewrite !list_lookup_insert_ne by done. done.
Qed.

Lemma update_err_nodes_total self st :
  cls self ≠ Multilayer →
  n_layers self ≤ length (preds st) →
  n_layers self ≤ length (errs st) →
  (∀ l, l < n_layers self →
     ∃ p v e, prediction self (val_nodes st) l = Ok p ∧
              read (val_nodes st) l = Ok v ∧
              tsub v p = Ok e) →
  ∃ st', update_err_nodes self st = Ok st'.
Proof.
  intros Hcls Hlp Hle Hall.
  destruct (for_range_total (λ _ s,
    val_nodes s = val_nodes st ∧
    length (preds s) = length (preds st) ∧
    length (errs s) = length (errs st))
    (update_err_body self) 0 (n_layers self) st) as (st' & Hloop & _).
  - done.
  - intros i s Hi (Hv & Hlp' & Hle'). simpl.
    destruct (Hall i Hi) as (p & v & e & Hp & Hrv & He).
    unfold update_err_body. rewrite Hv, Hp. simpl.
    unfold setitem. rewrite decide_True by lia. simpl.
    rewrite Hrv. simpl. rewrite He. simpl.
    rewrite decide_True by lia. simpl.
    eexists. split; [done |]. simpl. by rewrite !length_insert.
  - exists st'. unfold update_err_nodes. by destruct (cls self).
Qed.

(** *** The loop of update_val_nodes *)

Lemma layer_delta_ext self st st' (l : nat) :
  errs st' = errs st → val_nodes st' !! l = val_nodes st !! l →
  layer_delta self st' l = layer_delta self st l.
Proof.
  intros He Hv. unfold layer_delta. rewrite He. by rewrite (read_ext _ _ _ Hv).
Qed.

Lemma update_val_loop_spec self st st' :
  for_range (update_val_body self) (seq 0 (n_layers self - 1)) st = Ok st' →
  preds st' = preds st ∧ errs st' = errs st ∧
  length (val_nodes st') = length (val_nodes st) ∧
  (∀ l, n_layers self - 1 ≤ l → val_nodes st' !! l = val_nodes st !! l) ∧
  ∀ l, l < n_layers self - 1 →
    ∃ d v v', layer_delta self st l = Ok d ∧
              read (val_nodes st) l = Ok v ∧
              tadd v (scale (Dt self) d) = Ok v' ∧
              val_nodes st' !! l = Some (Some v').
Proof.
  apply (for_range_partial (λ i s,
    preds s = preds st ∧ errs s = errs st ∧
    length (val_nodes s) = length (val_nodes st) ∧
    (∀ l, i ≤ l → val_nodes s !! l = val_nodes st !! l) ∧
    ∀ l, l < i →
      ∃ d v v', layer_delta self st l = Ok d ∧
                read (val_nodes st) l = Ok v ∧
                tadd v (scale (Dt self) d) = Ok v' ∧
                val_nodes s !! l = Some (Some v'))).
  - repeat split; intros; lia.
  - intros i s s1 Hi (Hp & He & Hlen & Hrest & Hdone) Hb. simpl in Hb.
    unfold update_val_body in Hb.
    rewrite (layer_delta_ext self st s i), (read_ext _ (val_nodes st)) in Hb
      by (try done; by apply Hrest).
    inv_bind Hb. rename x into d, Hx into Hd.
    inv_bind Hb. rename x into v, Hx into Hrv.
    inv_bind Hb. rename x into v', Hx into Hv'.
    inv_bind Hb. rename x into vs, Hx into Hvs.
    injection Hb as <-. simpl.
    apply setitem_Ok in Hvs as [Hiv ->].
    rewrite length_insert. repeat split; try done.
    + intros l Hl. rewrite list_lookup_insert_ne by lia. apply Hrest. lia.
    + intros l Hl. destruct (decide (l = i)) as [->|Hne].
      * exists d, v, v'. rewrite list_lookup_insert_eq by done. done.
      * destruct (Hdone l) as (d' & v0 & v0' & ? & ? & ? & ?); [lia |].
        exists d', v0, v0'. rewrite list_lookup_insert_ne by done. done.
Qed.

Lemma update_val_loop_total self st :
  (∀ l, l < n_layers self - 1 →
     ∃ d v v', layer_delta self st l = Ok d ∧
               read (val_nodes st) l = Ok v ∧
               tadd v (scale (Dt self) d) = Ok v') →
  ∃ st', for_range (update_val_body self) (seq 0 (n_layers self - 1)) st = Ok st'.
Proof.
  intros Hall.
  destruct (for_range_total (λ i s,
    errs s = errs st ∧ length (val_nodes s) = length (val_nodes st) ∧
    ∀ l, i ≤ l → val_nodes s !! l = val_nodes st !! l)
    (update_val_body self) 0 (n_layers self - 1) st) as (st' & Hloop & _).
  - done.
  - intros i s Hi (He & Hlen & Hrest). simpl.
    destruct (Hall i Hi) as (d & v & v' & Hd & Hrv & Hv').
    unfold update_val_body.
    rewrite (layer_delta_ext self st s i), (read_ext _ (val_nodes st))
      by (try done; by apply Hrest).
    rewrite Hd. simpl. rewrite Hrv. simpl. rewrite Hv'. simpl.
    assert (i < length (val_nodes s)) as Hlt.
    { rewrite Hlen. apply read_Ok in Hrv. by apply lookup_lt_Some in Hrv. }
    unfold setitem. rewrite decide_True by done. simpl.
    eexists. split; [done |]. simpl. rewrite length_insert.
    repeat split; try done.
    intros l Hl. rewrite list_lookup_insert_ne by lia. apply Hrest. lia.
  - eauto.
Qed.

End Loops.

(** ** Well-formed models and the shapes along an episode *)

Section Shapes.
Context {R : Type} `{Scalar R}.
Implicit Types (self : MultilayerPCN R) (st : buffers R).
Implicit Types (nodes : list nat) (xs vals : list (option (tensor R))).

Lemma lshape_eq (B n : nat) (b b' : bool) (t : tensor R) :
  b = b' → has_shape t (lshape B n b) → has_shape t (lshape B n b').
Proof. by intros ->. Qed.

Lemma linear_forward_shape (use_b : bool) (B n_in n_out : nat) (b : bool)
    (ly : Linear R) (x : tensor R) :
  wf_layer use_b n_in n_out ly → has_shape x (lshape B n_in b) →
  ∃ y, linear_forward ly x = Ok y ∧ has_shape y (lshape B n_out b).
Proof.
  intros [Hw Hb] Hx. unfold linear_forward.
  destruct (matmul_lshape B n_in n_out b x (transpose (data (weight ly))))
    as (y & Hy & Hsy); [done | by apply transpose_has_shape |].
  rewrite Hy. simpl. destruct (bias ly) as [pb|]; [| eauto].
  destruct Hb as [_ Hpb].
  destruct (bop_lshape sadd B n_out b false y (data pb)) as (c & Hc & Hsc);
    [done | done |].
  exists c. split; [done |]. eapply lshape_eq; [| exact Hsc]. by destruct b.
Qed.

Lemma pred_from_above_shape nodes self (B n n' : nat) (b : bool) vals (l : nat) :
  wf_model nodes self → 0 < l →
  nodes !! (l - 1) = Some n' → nodes !! l = Some n →
  slot_shape vals (l - 1) (lshape B n' b) →
  ∃ p, pred_from_above self vals l = Ok p ∧ has_shape p (lshape B n b).
Proof.
  intros Hwf Hl Hn' Hn (v & Hv & Hsv). unfold pred_from_above.
  destruct (wf_layers _ _ Hwf (l - 1) n' n) as (ly & Hly & Hwly);
    [done | by replace (l - 1 + 1) with l by lia |].
  destruct (wf_nonlins _ _ Hwf (l - 1)) as (f & Hf).
  { apply lookup_lt_Some in Hn. lia. }
  apply getitem_Ok in Hly, Hf. apply read_Ok in Hv.
  rewrite Hly, Hf. simpl. rewrite Hv. simpl.
  eapply linear_forward_shape; [exact Hwly |]. by apply tmap_has_shape.
Qed.

Lemma pred_top_shape nodes self (B n0 : nat) (b : bool) vals :
  wf_model nodes self → nodes !! 0 = Some n0 →
  slot_shape vals 0 (lshape B n0 b) →
  ∃ p b', pred_top self vals = Ok p ∧ has_shape p (lshape B n0 b') ∧
          (b' = true → b = true).
Proof.
  intros Hwf Hn0 (v & Hv & Hsv). unfold pred_top.
  pose proof (wf_cls _ _ Hwf) as Hcls. pose proof (wf_memory _ _ Hwf n0 Hn0) as Hm.
  destruct (cls self) as [| |Wr]; [done | |].
  - exists (data (memory self)), false. done.
  - apply read_Ok in Hv. rewrite Hv. simpl.
    destruct (matmul_lshape B n0 n0 b v (transpose (data Wr))) as (r & Hr & Hsr);
      [done | by apply transpose_has_shape, Hcls |].
    rewrite Hr. simpl.
    destruct (bop_lshape sadd B n0 false b (data (memory self)) r)
      as (c & Hc & Hsc); [done | done |].
    exists c, b. done.
Qed.

Lemma prediction_shape nodes self (B k n : nat) vals (l : nat) :
  wf_model nodes self → profile nodes B k vals → nodes !! l = Some n →
  ∃ p b, prediction self vals l = Ok p ∧ has_shape p (lshape B n b) ∧
         (b = true → k ≤ l).
Proof.
  intros Hwf Hprof Hn. unfold prediction. case_decide as Hl.
  - subst l. destruct (pred_top_shape nodes self B n _ vals Hwf Hn (Hprof 0 n Hn))
      as (p & b' & Hp & Hsp & Hb).
    exists p, b'. split; [done |]. split; [done |].
    intros Hb'. apply Hb in Hb'. by apply bool_decide_eq_true in Hb'.
  - destruct (nodes !! (l - 1)) as [n'|] eqn:Hn'.
    2:{ apply lookup_ge_None in Hn'. apply lookup_lt_Some in Hn. lia. }
    destruct (pred_from_above_shape nodes self B n n' (bool_decide (k ≤ l - 1))
                vals l Hwf) as (p & Hp & Hsp);
      [lia | done | done | by apply Hprof |].
    exists p, (bool_decide (k ≤ l - 1)). split; [done |]. split; [done |].
    intros Hb. apply bool_decide_eq_true in Hb. lia.
Qed.

Lemma layer_delta_shape nodes self (B k n : nat) st (l : nat) :
  wf_model nodes self →
  profile nodes B k (val_nodes st) → profile nodes B k (errs st) →
  l < length nodes - 1 → nodes !! l = Some n →
  ∃ d, layer_delta self st l = Ok d ∧
       has_shape d (lshape B n (bool_decide (k ≤ l + 1))).
Proof.
  intros Hwf Hval Herr Hl Hn. unfold layer_delta.
  destruct (wf_nonlins _ _ Hwf l Hl) as (f & Hf).
  destruct (nodes !! (l + 1)) as [n1|] eqn:Hn1.
  2:{ apply lookup_ge_None in Hn1. lia. }
  destruct (wf_layers _ _ Hwf l n n1 Hn Hn1) as (ly & Hly & Hw & _).
  destruct (Hval l n Hn) as (v & Hv & Hsv).
  destruct (Herr l n Hn) as (e & He & Hse).
  destruct (Herr (l + 1) n1 Hn1) as (e1 & He1 & Hse1).
  apply getitem_Ok in Hf, Hly. apply read_Ok in Hv, He, He1.
  rewrite Hf. simpl. rewrite Hv. simpl. rewrite He. simpl.
  destruct (bop_same_shape ssub (tneg e)
              (scale (if decide (l = 0) then lamb self else szero) (tsign v))
              (lshape B n (bool_decide (k ≤ l)))) as (a & Ha & Hsa).
  { by apply tmap_has_shape. }
  { by apply tmap_has_shape, tmap_has_shape. }
  unfold tsub. rewrite Ha. simpl. rewrite He1. simpl. rewrite Hly. simpl.
  destruct (matmul_lshape B n1 n (bool_decide (k ≤ l + 1)) e1
              (data (weight ly)) Hse1 Hw) as (m & Hm & Hsm).
  rewrite Hm. simpl.
  destruct (bop_lshape smul B n (bool_decide (k ≤ l)) (bool_decide (k ≤ l + 1))
              (tmap (nl_deriv f) v) m) as (b & Hb & Hsb);
    [by apply tmap_has_shape | done |].
  unfold tmul. rewrite Hb. simpl.
  destruct (bop_lshape sadd B n (bool_decide (k ≤ l))
              (bool_decide (k ≤ l) || bool_decide (k ≤ l + 1)) a b Hsa Hsb)
    as (d & Hd & Hsd).
  exists d. split; [done |]. eapply lshape_eq; [| exact Hsd].
  repeat case_bool_decide; simpl; try done; lia.
Qed.

End Shapes.

(** ** The steps of an episode *)

Section Steps.
Context {R : Type} `{Scalar R}.
Implicit Types (self : MultilayerPCN R) (st : buffers R).
Implicit Types (nodes : list nat) (xs vals : list (option (tensor R))).

Lemma update_err_nodes_Inv nodes self (B k : nat) st :
  wf_model nodes self → k ≤ length nodes - 1 →
  length (val_nodes st) = length nodes →
  length (preds st) = length nodes →
  length (errs st) = length nodes →
  profile nodes B k (val_nodes st) →
  ∃ st', update_err_nodes self st = Ok st' ∧
         val_nodes st' = val_nodes st ∧ Inv nodes B k st'.
Proof.
  intros Hwf Hk Hlv Hlp Hle Hprof.
  pose proof (wf_n_layers _ _ Hwf) as HL.
  assert (∀ l n, nodes !! l = Some n →
    ∃ p v e, prediction self (val_nodes st) l = Ok p ∧
             read (val_nodes st) l = Ok v ∧ tsub v p = Ok e ∧
             has_shape e (lshape B n (bool_decide (k ≤ l)))) as Hall.
  { intros l n Hn.
    destruct (prediction_shape nodes self B k n _ l Hwf Hprof Hn)
      as (p & b & Hp & Hsp & Hb).
    destruct (Hprof l n Hn) as (v & Hv & Hsv).
    destruct (bop_lshape ssub B n (bool_decide (k ≤ l)) b v p Hsv Hsp)
      as (e & He & Hse).
    exists p, v, e. split; [done |]. split; [by apply read_Ok |].
    split; [done |]. eapply lshape_eq; [| exact Hse].
    destruct b; [| by rewrite orb_false_r].
    rewrite bool_decide_eq_true_2 by auto. done. }
  destruct (update_err_nodes_total self st) as (st' & Hst').
  - pose proof (wf_cls _ _ Hwf). by destruct (cls self).
  - lia.
  - lia.
  - intros l Hl. rewrite HL in Hl.
    destruct (lookup_lt_is_Some_2 nodes l Hl) as (n & Hn).
    destruct (Hall l n Hn) as (p & v & e & ? & ? & ? & _). by exists p, v, e.
  - exists st'. split; [done |].
    destruct (update_err_nodes_spec self st st' Hst') as (Hv & Hlp' & Hle' & Hspec).
    split; [done |].
    split; try congruence.
    + by rewrite Hv.
    + intros l n Hn.
      destruct (Hall l n Hn) as (p & v & e & Hp & Hrv & He & Hse).
      destruct (Hspec l) as (p' & v' & e' & Hp' & Hrv' & He' & _ & Hel).
      { rewrite HL. by apply lookup_lt_Some in Hn. }
      exists e. split; [| done]. congruence.
Qed.

Lemma set_nodes_Inv nodes self (B n_last : nat) (inp : tensor R) :
  wf_model nodes self →
  nodes !! (length nodes - 1) = Some n_last →
  has_shape inp [B; n_last] →
  ∃ st, set_nodes self (initialize self) inp = Ok st ∧
        Inv nodes B (length nodes - 1) st ∧
        val_nodes st !! 0 = Some (Some (data (memory self))) ∧
        val_nodes st !! (length nodes - 1) = Some (Some inp).
Proof.
  intros Hwf Hlast Hinp.
  pose proof (wf_n_layers _ _ Hwf) as HL. pose proof (wf_two _ _ Hwf) as H2.
  unfold set_nodes, initialize. simpl. rewrite HL.
  unfold setitem at 1. rewrite length_replicate, decide_True by lia. simpl.
  destruct (for_range_total (λ i s,
    length (preds s) = length nodes ∧ length (errs s) = length nodes ∧
    length (val_nodes s) = length nodes ∧
    val_nodes s !! 0 = Some (Some (data (memory self))) ∧
    ∀ l n, l ≤ i → nodes !! l = Some n → slot_shape (val_nodes s) l [n])
    (set_nodes_body self) 1 (length nodes - 1 - 1)
    (with_val_nodes
       {| val_nodes := replicate (length nodes) None;
          preds := replicate (length nodes) None;
          errs := replicate (length nodes) None |}
       (<[0:=Some (data (memory self))]> (replicate (length nodes) None))))
    as (s1 & Hloop & Hlp & Hle & Hlv & Hmem & Hs1).
  - simpl. rewrite length_insert, !length_replicate.
    assert (<[0:=Some (data (memory self))]> (replicate (length nodes) None) !! 0
            = Some (Some (data (memory self)))) as H0.
    { rewrite list_lookup_insert_eq; [done | rewrite length_replicate; lia]. }
    repeat split; try done.
    intros l n Hl Hn. assert (l = 0) as -> by lia.
    exists (data (memory self)). split; [done |].
    by apply (wf_memory _ _ Hwf).
  - intros i s Hi (Hlp & Hle & Hlv & Hmem & Hs). unfold set_nodes_body.
    destruct (lookup_lt_is_Some_2 nodes i) as (n' & Hn'); [lia |].
    destruct (lookup_lt_is_Some_2 nodes (1 + i)) as (n & Hn); [lia |].
    destruct (pred_from_above_shape nodes self B n n' false (val_nodes s) (1 + i))
      as (y & Hy & Hsy); [done | lia | | done | |].
    { by replace (1 + i - 1) with i by lia. }
    { replace (1 + i - 1) with i by lia. by apply Hs. }
    rewrite Hy. simpl. unfold setitem. rewrite decide_True by lia. simpl.
    eexists. split; [done |]. simpl. rewrite length_insert.
    rewrite list_lookup_insert_ne by lia.
    repeat split; try done.
    intros l m Hl Hm. destruct (decide (l = 1 + i)) as [->|Hne].
    + exists y. rewrite list_lookup_insert_eq by lia. split; [done |].
      rewrite Hn in Hm. injection Hm as <-. done.
    + destruct (Hs l m) as (t & Ht & Hst); [lia | done |].
      exists t. by rewrite list_lookup_insert_ne by done.
  - rewrite Hloop. simpl.
    assert (last_index (val_nodes s1) = Ok (length nodes - 1)) as ->.
    { apply last_index_Ok. lia. }
    simpl. unfold setitem. rewrite decide_True by lia. simpl.
    destruct (update_err_nodes_Inv nodes self B (length nodes - 1)
      (with_val_nodes s1 (<[length nodes - 1:=Some inp]> (val_nodes s1))))
      as (st & Hst & Hv & HInv); simpl; try done.
    + by rewrite length_insert.
    + intros l n Hn. pose proof (lookup_lt_Some _ _ _ Hn) as Hl.
      case_bool_decide as Hc.
      * assert (l = length nodes - 1) as -> by lia.
        exists inp. rewrite list_lookup_insert_eq by lia. split; [done |].
        rewrite Hlast in Hn. injection Hn as <-. done.
      * destruct (Hs1 l n) as (t & Ht & Hst'); [lia | done |].
        exists t. rewrite list_lookup_insert_ne by lia. done.
    + exists st. split; [done |]. split; [done |].
      rewrite Hv. simpl. rewrite list_lookup_insert_ne by lia.
      by rewrite list_lookup_insert_eq by lia.
Qed.

(** What one call of [update_val_nodes] that returned has done to the
    value nodes. *)
Lemma update_val_nodes_spec self st (update_mask : tensor R) (recon : bool) st' :
  update_val_nodes self st update_mask recon = Ok st' →
  length (val_nodes st') = length (val_nodes st) ∧
  n_layers self ≤ length (val_nodes st) ∧
  (∀ l, l < n_layers self - 1 →
     ∃ d v v', layer_delta self st l = Ok d ∧
               read (val_nodes st) l = Ok v ∧
               tadd v (scale (Dt self) d) = Ok v' ∧
               val_nodes st' !! l = Some (Some v')) ∧
  (if recon then
     ∃ i j v e m v', last_index (val_nodes st) = Ok i ∧
                   last_index (errs st) = Ok j ∧
                   read (val_nodes st) i = Ok v ∧
                   read (errs st) j = Ok e ∧
                   tmul (tneg e) update_mask = Ok m ∧
                   tadd v (scale (Dt self) m) = Ok v' ∧
                   val_nodes st' !! i = Some (Some v')
   else
     ∀ l, n_layers self - 1 ≤ l → val_nodes st' !! l = val_nodes st !! l).
Proof.
  intros Hu. unfold update_val_nodes in Hu.
  inv_bind Hu. rename x into s1, Hx into Hloop.
  inv_bind Hu. rename x into s2, Hx into Hrelax.
  apply update_val_loop_spec in Hloop as (Hp1 & He1 & Hl1 & Hrest & Hdone).
  apply update_err_nodes_spec in Hu as (Hv' & _ & _ & Hread).
  assert (n_layers self ≤ length (val_nodes s2)) as Hlen2.
  { destruct (n_layers self) as [|k] eqn:HL; [lia |].
    destruct (Hread k) as (_ & v & _ & _ & Hv & _); [lia |].
    apply read_Ok, lookup_lt_Some in Hv. lia. }
  rewrite Hv'. destruct recon.
  - unfold relax_sensory in Hrelax.
    inv_bind Hrelax. rename x into i, Hx into Hi.
    inv_bind Hrelax. rename x into v, Hx into Hrv.
    inv_bind Hrelax. rename x into j, Hx into Hj.
    inv_bind Hrelax. rename x into e, Hx into Hre.
    inv_bind Hrelax. rename x into m, Hx into Hm.
    inv_bind Hrelax. rename x into v', Hx into Hv1.
    inv_bind Hrelax. rename x into vs, Hx into Hvs.
    injection Hrelax as <-. simpl in *.
    apply setitem_Ok in Hvs as [Hlt ->]. rewrite length_insert in *.
    pose proof Hi as Hi'. apply last_index_Ok in Hi'.
    split; [done |]. split; [lia |]. split.
    + intros l Hl. destruct (Hdone l Hl) as (d & v0 & v0' & ? & ? & ? & ?).
      exists d, v0, v0'. rewrite list_lookup_insert_ne by lia. done.
    + exists i, j, v, e, m, v'.
      rewrite He1 in Hj, Hre.
      rewrite (read_ext (val_nodes s1) (val_nodes st) i) in Hrv
        by (apply Hrest; lia).
      rewrite list_lookup_insert_eq by done.
      repeat split; try done.
      apply last_index_Ok. lia.
  - injection Hrelax as <-. split; [done |]. split; [lia |]. done.
Qed.

Lemma update_val_loop_Inv nodes self (B k : nat) st :
  wf_model nodes self → Inv nodes B k st →
  ∃ s1, for_range (update_val_body self) (seq 0 (n_layers self - 1)) st = Ok s1 ∧
        preds s1 = preds st ∧ errs s1 = errs st ∧
        length (val_nodes s1) = length nodes ∧
        profile nodes B (k - 1) (val_nodes s1).
Proof.
  intros Hwf HInv. destruct HInv as [Hk Hlv Hlp Hle Hval Herr].
  pose proof (wf_n_layers _ _ Hwf) as HL.
  assert (∀ l n, l < length nodes - 1 → nodes !! l = Some n →
    ∃ d v v', layer_delta self st l = Ok d ∧ read (val_nodes st) l = Ok v ∧
              tadd v (scale (Dt self) d) = Ok v' ∧
              has_shape v' (lshape B n (bool_decide (k - 1 ≤ l)))) as Hall.
  { intros l n Hl Hn.
    destruct (layer_delta_shape nodes self B k n st l Hwf Hval Herr Hl Hn)
      as (d & Hd & Hsd).
    destruct (Hval l n Hn) as (v & Hv & Hsv).
    destruct (bop_lshape sadd B n (bool_decide (k ≤ l)) (bool_decide (k ≤ l + 1))
                v (scale (Dt self) d)) as (v' & Hv' & Hsv');
      [done | by apply tmap_has_shape |].
    exists d, v, v'. split; [done |]. split; [by apply read_Ok |].
    split; [done |]. eapply lshape_eq; [| exact Hsv'].
    repeat case_bool_decide; simpl; try done; lia. }
  destruct (update_val_loop_total self st) as (s1 & Hs1).
  { intros l Hl. rewrite HL in Hl.
    destruct (lookup_lt_is_Some_2 nodes l) as (n & Hn); [lia |].
    destruct (Hall l n Hl Hn) as (d & v & v' & ? & ? & ? & _). by exists d, v, v'. }
  exists s1. split; [done |].
  apply update_val_loop_spec in Hs1 as (Hp1 & He1 & Hl1 & Hrest & Hdone).
  split; [done |]. split; [done |]. split; [congruence |].
  intros l n Hn. pose proof (lookup_lt_Some _ _ _ Hn) as Hlt.
  destruct (decide (l < length nodes - 1)) as [Hl|Hl].
  - destruct (Hall l n Hl Hn) as (d & v & v' & Hd & Hrv & Hv' & Hsv').
    destruct (Hdone l) as (d' & v0 & v0' & Hd' & Hrv' & Hv0' & Hlook); [lia |].
    exists v'. split; [| done]. congruence.
  - unfold slot_shape. rewrite Hrest by lia.
    destruct (Hval l n Hn) as (v & Hv & Hsv).
    exists v. split; [done |]. eapply lshape_eq; [| exact Hsv].
    repeat case_bool_decide; try done; lia.
Qed.

Lemma relax_sensory_Inv nodes self (B k n_last : nat) st (update_mask : tensor R) :
  length (val_nodes st) = length nodes → length (errs st) = length nodes →
  nodes !! (length nodes - 1) = Some n_last →
  profile nodes B k (val_nodes st) →
  slot_shape (val_nodes st) (length nodes - 1) [B; n_last] →
  slot_shape (errs st) (length nodes - 1) [B; n_last] →
  has_shape update_mask [B; n_last] →
  ∃ s2, relax_sensory self st update_mask = Ok s2 ∧
        preds s2 = preds st ∧ errs s2 = errs st ∧
        length (val_nodes s2) = length nodes ∧
        profile nodes B k (val_nodes s2).
Proof.
  intros Hlv Hle Hlast Hprof (v & Hv & Hsv) (e & He & Hse) Hmask.
  pose proof (lookup_lt_Some _ _ _ Hlast) as Hlt.
  unfold relax_sensory.
  assert (last_index (val_nodes st) = Ok (length nodes - 1)) as ->
    by (apply last_index_Ok; lia).
  assert (last_index (errs st) = Ok (length nodes - 1)) as ->
    by (apply last_index_Ok; lia).
  apply read_Ok in He. pose proof Hv as Hrv. apply read_Ok in Hrv.
  simpl. rewrite Hrv. simpl. rewrite He. simpl.
  destruct (bop_same_shape smul (tneg e) update_mask [B; n_last])
    as (m & Hm & Hsm); [by apply tmap_has_shape | done |].
  unfold tmul. rewrite Hm. simpl.
  destruct (bop_same_shape sadd v (scale (Dt self) m) [B; n_last])
    as (v' & Hv' & Hsv'); [done | by apply tmap_has_shape |].
  unfold tadd. rewrite Hv'. simpl.
  unfold setitem. rewrite decide_True by lia. simpl.
  eexists. split; [done |]. simpl. rewrite length_insert.
  repeat split; try done.
  intros l n Hn. destruct (decide (l = length nodes - 1)) as [->|Hne].
  - exists v'. rewrite list_lookup_insert_eq by lia. split; [done |].
    destruct (Hprof _ _ Hn) as (v0 & Hv0 & Hsv0).
    rewrite Hv in Hv0. injection Hv0 as <-.
    destruct Hsv0 as [_ Hs0], Hsv as [_ Hs], Hsv' as [Hw' Hs'].
    split; [done | congruence].
  - destruct (Hprof l n Hn) as (t & Ht & Hst).
    exists t. by rewrite list_lookup_insert_ne by done.
Qed.

Lemma profile_last nodes (B k n_last : nat) xs :
  k ≤ length nodes - 1 → nodes !! (length nodes - 1) = Some n_last →
  profile nodes B k xs → slot_shape xs (length nodes - 1) [B; n_last].
Proof.
  intros Hk Hlast Hprof. destruct (Hprof _ _ Hlast) as (t & Ht & Hst).
  exists t. split; [done |]. by rewrite bool_decide_eq_true_2 in Hst.
Qed.

Lemma update_val_nodes_Inv nodes self (B k n_last : nat) st
    (update_mask : tensor R) (recon : bool) :
  wf_model nodes self → Inv nodes B k st →
  nodes !! (length nodes - 1) = Some n_last →
  (recon = true → has_shape update_mask [B; n_last]) →
  ∃ st', update_val_nodes self st update_mask recon = Ok st' ∧
         Inv nodes B (k - 1) st'.
Proof.
  intros Hwf HInv Hlast Hmask.
  destruct (update_val_loop_Inv nodes self B k st Hwf HInv)
    as (s1 & Hs1 & Hp1 & He1 & Hl1 & Hprof1).
  destruct HInv as [Hk Hlv Hlp Hle Hval Herr].
  unfold update_val_nodes. rewrite Hs1. simpl.
  assert (∃ s2, (if recon then relax_sensory self s1 update_mask else Ok s1) = Ok s2 ∧
                preds s2 = preds st ∧ errs s2 = errs st ∧
                length (val_nodes s2) = length nodes ∧
                profile nodes B (k - 1) (val_nodes s2)) as (s2 & -> & Hp2 & He2 & Hl2 & Hprof2).
  { destruct recon; [| by exists s1].
    destruct (relax_sensory_Inv nodes self B (k - 1) n_last s1 update_mask)
      as (s2 & Hs2 & Hp2 & He2 & Hl2 & Hprof2); try done.
    - congruence.
    - apply (profile_last nodes B (k - 1)); [lia | done | done].
    - rewrite He1. by apply (profile_last nodes B k).
    - by apply Hmask.
    - exists s2. repeat split; try done; congruence. }
  simpl.
  destruct (update_err_nodes_Inv nodes self B (k - 1) s2) as (st' & Hst' & _ & HInv');
    try done; try congruence; try lia.
  eauto.
Qed.

(** The relaxation loop moves the batched region up by one layer per
    iteration. *)
Lemma relax_Inv nodes self (B k n_last : nat) st (update_mask : tensor R)
    (recon : bool) (n_iters : nat) :
  wf_model nodes self → Inv nodes B k st →
  nodes !! (length nodes - 1) = Some n_last →
  (recon = true → has_shape update_mask [B; n_last]) →
  ∃ st', relax self update_mask recon n_iters st = Ok st' ∧
         Inv nodes B (k - n_iters) st'.
Proof.
  intros Hwf HInv Hlast Hmask. unfold relax.
  apply (for_range_total (λ i s, Inv nodes B (k - i) s)).
  - by rewrite Nat.sub_0_r.
  - intros i s _ Hs.
    destruct (update_val_nodes_Inv nodes self B (k - i) n_last s update_mask recon)
      as (s' & Hs' & HInv'); try done.
    exists s'. split; [done |]. by replace (k - S i) with (k - i - 1) by lia.
Qed.

Lemma episode_Inv nodes self (B n_last : nat) (inp update_mask : tensor R)
    (recon : bool) (n_iters : nat) :
  wf_model nodes self →
  nodes !! (length nodes - 1) = Some n_last →
  has_shape inp [B; n_last] →
  (recon = true → has_shape update_mask [B; n_last]) →
  ∃ st, episode self inp n_iters update_mask recon = Ok st ∧
        Inv nodes B (length nodes - 1 - n_iters) st.
Proof.
  intros Hwf Hlast Hinp Hmask. unfold episode.
  destruct (set_nodes_Inv nodes self B n_last inp Hwf Hlast Hinp)
    as (st0 & -> & HInv0 & _ & _).
  simpl. by apply (relax_Inv nodes self B _ n_last).
Qed.

End Steps.

(** ** The gradient step *)

Section Grads.
Context {R : Type} `{Scalar R}.
Implicit Types (self : MultilayerPCN R) (st : buffers R).
Implicit Types (nodes : list nat) (p : Param R).

Lemma set_grad_Ok p p' (g : tensor R) :
  set_grad p g = Ok p' ↔
  shape g = shape (data p) ∧ p' = {| data := data p; grad := Some g |}.
Proof.
  unfold set_grad. case_decide; split.
  - intros [= <-]. done.
  - intros [_ ->]. done.
  - discriminate.
  - intros [? _]. done.
Qed.

Lemma set_grad_ready p p' (g : tensor R) : set_grad p g = Ok p' → param_ready p p'.
Proof. intros [Hs ->]%set_grad_Ok. split; [done |]. exists g. done. Qed.

Lemma graded_layer_ext st self self' (l : nat) :
  nonlins self' = nonlins self → use_bias self' = use_bias self →
  layers self' !! l = layers self !! l →
  graded_layer st self' l = graded_layer st self l.
Proof.
  intros Hn Hu Hl. unfold graded_layer, getitem. by rewrite Hn, Hu, Hl.
Qed.

Lemma graded_layer_lookup st self (l : nat) (ly' : Linear R) :
  graded_layer st self l = Ok ly' → l < length (layers self).
Proof.
  unfold graded_layer. intros Hg. do 5 inv_bind Hg.
  apply bind_Ok in Hg as (ly & Hly & _).
  by apply getitem_Ok, lookup_lt_Some in Hly.
Qed.

Lemma update_grads_loop_spec st self self' (n : nat) :
  for_range (update_grads_body st) (seq 0 n) self = Ok self' →
  same_frame self self' ∧
  (∀ l, n ≤ l → layers self' !! l = layers self !! l) ∧
  ∀ l, l < n →
    ∃ ly', graded_layer st self l = Ok ly' ∧ layers self' !! l = Some ly'.
Proof.
  apply (for_range_partial (λ i s,
    same_frame self s ∧
    (∀ l, i ≤ l → layers s !! l = layers self !! l) ∧
    ∀ l, l < i →
      ∃ ly', graded_layer st self l = Ok ly' ∧ layers s !! l = Some ly')).
  - repeat split; intros; lia.
  - intros i s s1 Hi ((Hf1 & Hf2 & Hf3 & Hf4 & Hf5 & Hf6) & Hrest & Hdone) Hb.
    simpl in Hb. unfold update_grads_body in Hb.
    rewrite (graded_layer_ext st self s i) in Hb by (try done; by apply Hrest).
    inv_bind Hb. rename x into ly', Hx into Hly'. injection Hb as <-. simpl.
    pose proof (graded_layer_lookup _ _ _ _ Hly') as Hlt.
    split; [| split].
    + unfold same_frame. simpl. rewrite length_insert. done.
    + intros l Hl. rewrite list_lookup_insert_ne by lia. apply Hrest. lia.
    + intros l Hl. destruct (decide (l = i)) as [->|Hne].
      * exists ly'. rewrite list_lookup_insert_eq by lia. done.
      * destruct (Hdone l) as (ly0 & ? & ?); [lia |].
        exists ly0. rewrite list_lookup_insert_ne by done. done.
Qed.

Lemma update_grads_loop_total st self (n : nat) :
  (∀ l, l < n → ∃ ly', graded_layer st self l = Ok ly') →
  ∃ self', for_range (update_grads_body st) (seq 0 n) self = Ok self'.
Proof.
  intros Hall.
  destruct (for_range_total (λ i s,
    same_frame self s ∧ ∀ l, i ≤ l → layers s !! l = layers self !! l)
    (update_grads_body st) 0 n self) as (self' & Hloop & _).
  - done.
  - intros i s Hi ((Hf1 & Hf2 & Hf3 & Hf4 & Hf5 & Hf6) & Hrest). simpl.
    destruct (Hall i Hi) as (ly' & Hly').
    unfold update_grads_body.
    rewrite (graded_layer_ext st self s i) by (try done; by apply Hrest).
    rewrite Hly'. simpl. eexists. split; [done |].
    split.
    + unfold same_frame. simpl. rewrite length_insert. done.
    + intros l Hl. simpl. rewrite list_lookup_insert_ne by lia. apply Hrest. lia.
  - eauto.
Qed.

(** The formulas of a graded layer. *)
Lemma graded_layer_Ok st self (l : nat) (ly' : Linear R) :
  graded_layer st self l = Ok ly' →
  ∃ e1 nl v a g ly,
    read (errs st) (l + 1) = Ok e1 ∧ getitem (nonlins self) l = Ok nl ∧
    read (val_nodes st) l = Ok v ∧ call nl v = Ok a ∧
    matmul (transpose e1) a = Ok g ∧ layers self !! l = Some ly ∧
    set_grad (weight ly) (tneg g) = Ok (weight ly') ∧
    if use_bias self
    then ∃ b b', bias ly = Some b ∧ bias ly' = Some b' ∧
                 set_grad b (tneg (sum0 e1)) = Ok b'
    else bias ly' = bias ly.
Proof.
  unfold graded_layer. intros Hg.
  inv_bind Hg. rename x into e1, Hx into He1.
  inv_bind Hg. rename x into nl, Hx into Hnl.
  inv_bind Hg. rename x into v, Hx into Hv.
  inv_bind Hg. rename x into a, Hx into Ha.
  inv_bind Hg. rename x into g, Hx into Hgm.
  inv_bind Hg. rename x into ly, Hx into Hly.
  inv_bind Hg. rename x into w, Hx into Hw.
  exists e1, nl, v, a, g, ly. apply getitem_Ok in Hly.
  destruct (use_bias self).
  - rewrite He1 in Hg. simpl in Hg.
    destruct (bias ly) as [b|] eqn:Hb; [| discriminate].
    inv_bind Hg. rename x into b', Hx into Hb'. injection Hg as <-. simpl.
    repeat split; try done. by exists b, b'.
  - injection Hg as <-. simpl. done.
Qed.

End Grads.

Section GradStep.
Context {R : Type} `{Scalar R}.
Implicit Types (self : MultilayerPCN R) (st : buffers R).
Implicit Types (nodes : list nat) (p : Param R).

(** What [update_grads] has assigned when it returns. *)
Lemma update_grads_spec self st self' :
  update_grads self st = Ok self' →
  ∃ e0, read (errs st) 0 = Ok e0 ∧
        set_grad (memory self) (tneg (sum0 e0)) = Ok (memory self') ∧
        length (layers self') = length (layers self) ∧
        (∀ l, n_layers self - 1 ≤ l → layers self' !! l = layers self !! l) ∧
        (∀ l, l < n_layers self - 1 →
           ∃ ly', graded_layer st self l = Ok ly' ∧ layers self' !! l = Some ly') ∧
        match cls self with
        | Multilayer => False
        | Hierarchical => cls self' = Hierarchical
        | Hybrid Wr =>
            ∃ v0 g g' Wr', read (val_nodes st) 0 = Ok v0 ∧
                           matmul (transpose e0) v0 = Ok g ∧
                           fill_diagonal_0 g = Ok g' ∧
                           set_grad Wr (tneg g') = Ok Wr' ∧
                           cls self' = Hybrid Wr'
        end.
Proof.
  unfold update_grads. intros Hu.
  destruct (cls self) as [| |Wr] eqn:Hcls; [discriminate | |].
  - inv_bind Hu. rename x into e0, Hx into He0.
    inv_bind Hu. rename x into mem, Hx into Hmem.
    apply update_grads_loop_spec in Hu
      as ((Hf1 & Hf2 & Hf3 & Hf4 & Hf5 & Hf6) & Hrest & Hdone).
    simpl in *. exists e0. rewrite Hf2.
    split; [done |]. split; [done |]. split; [done |]. split; [done |]. split.
    + intros l Hl. destruct (Hdone l Hl) as (ly' & Hly' & Hlook).
      exists ly'. split; [| done]. rewrite <- Hly'. symmetry.
      by apply graded_layer_ext.
    + congruence.
  - inv_bind Hu. rename x into e0, Hx into He0.
    inv_bind Hu. rename x into mem, Hx into Hmem.
    rewrite He0 in Hu. simpl in Hu.
    inv_bind Hu. rename x into v0, Hx into Hv0.
    inv_bind Hu. rename x into g, Hx into Hg.
    inv_bind Hu. rename x into g', Hx into Hg'.
    inv_bind Hu. rename x into wr, Hx into Hwr.
    apply update_grads_loop_spec in Hu
      as ((Hf1 & Hf2 & Hf3 & Hf4 & Hf5 & Hf6) & Hrest & Hdone).
    simpl in *. exists e0. rewrite Hf2.
    split; [done |]. split; [done |]. split; [done |]. split; [done |]. split.
    + intros l Hl. destruct (Hdone l Hl) as (ly' & Hly' & Hlook).
      exists ly'. split; [| done]. rewrite <- Hly'. symmetry.
      by apply graded_layer_ext.
    + by exists v0, g, g', wr.
Qed.

Lemma graded_layer_total nodes self (B : nat) st (l : nat) :
  wf_model nodes self → Inv nodes B 0 st → l < length nodes - 1 →
  ∃ ly', graded_layer st self l = Ok ly'.
Proof.
  intros Hwf [Hk Hlv Hlp Hle Hval Herr] Hl. unfold graded_layer.
  destruct (lookup_lt_is_Some_2 nodes l) as (n & Hn); [lia |].
  destruct (lookup_lt_is_Some_2 nodes (l + 1)) as (n1 & Hn1); [lia |].
  destruct (wf_nonlins _ _ Hwf l Hl) as (f & Hf).
  destruct (wf_layers _ _ Hwf l n n1 Hn Hn1) as (ly & Hly & Hw & Hb).
  destruct (Hval l n Hn) as (v & Hv & Hsv).
  destruct (Herr (l + 1) n1 Hn1) as (e1 & He1 & Hse1).
  rewrite bool_decide_eq_true_2 in Hsv, Hse1 by lia. simpl in Hsv, Hse1.
  apply getitem_Ok in Hf, Hly. apply read_Ok in Hv, He1.
  rewrite He1. simpl. rewrite Hf. simpl. rewrite Hv. simpl.
  destruct (matmul_lshape n1 B n true (transpose e1) (tmap (nl_apply f) v))
    as (g & Hg & Hsg); simpl.
  { by apply transpose_has_shape. }
  { by apply tmap_has_shape. }
  rewrite Hg. simpl. rewrite Hly. simpl.
  unfold set_grad at 1. rewrite decide_True.
  2:{ unfold tneg. rewrite tmap_shape. destruct Hsg as [_ ->].
      by destruct Hw as [_ ->]. }
  simpl. destruct (use_bias self); [| eauto].
  destruct (bias ly) as [b|]; [| discriminate].
  destruct Hb as [_ Hsb].
  unfold set_grad. rewrite decide_True; [simpl; eauto |].
  unfold tneg. rewrite tmap_shape. destruct (sum0_T2_shape B n1 e1 Hse1) as [_ ->].
  by destruct Hsb as [_ ->].
Qed.

Lemma update_grads_total nodes self (B : nat) st :
  wf_model nodes self → Inv nodes B 0 st →
  ∃ self', update_grads self st = Ok self'.
Proof.
  intros Hwf HInv. pose proof (wf_n_layers _ _ Hwf) as HL.
  pose proof (wf_two _ _ Hwf) as H2. pose proof (wf_cls _ _ Hwf) as Hcls.
  destruct (lookup_lt_is_Some_2 nodes 0) as (n0 & Hn0); [lia |].
  pose proof (wf_memory _ _ Hwf n0 Hn0) as Hmem.
  destruct (inv_errs _ _ _ _ HInv 0 n0 Hn0) as (e0 & He0 & Hse0).
  destruct (inv_val _ _ _ _ HInv 0 n0 Hn0) as (v0 & Hv0 & Hsv0).
  rewrite bool_decide_eq_true_2 in Hse0, Hsv0 by lia. simpl in Hse0, Hsv0.
  apply read_Ok in He0, Hv0.
  assert (shape (tneg (sum0 e0)) = shape (data (memory self))) as Hsm.
  { unfold tneg. rewrite tmap_shape.
    destruct (sum0_T2_shape B n0 e0 Hse0) as [_ ->]. by destruct Hmem as [_ ->]. }
  assert (∀ s, nonlins s = nonlins self → use_bias s = use_bias self →
               layers s = layers self →
    ∃ self', for_range (update_grads_body st) (seq 0 (n_layers self - 1)) s
             = Ok self') as Hloop.
  { intros s Hs1 Hs2 Hs3. apply update_grads_loop_total. intros l Hl.
    rewrite (graded_layer_ext st self s l) by (try done; by rewrite Hs3).
    apply (graded_layer_total nodes self B); [done | done | lia]. }
  unfold update_grads. destruct (cls self) as [| |Wr]; [done | |].
  - rewrite He0. simpl. unfold set_grad. rewrite decide_True by done. simpl.
    by apply Hloop.
  - rewrite He0. simpl. unfold set_grad at 1. rewrite decide_True by done. simpl.
    rewrite Hv0. simpl.
    destruct (matmul_lshape n0 B n0 true (transpose e0) v0) as (g & Hg & Hsg);
      simpl; [by apply transpose_has_shape | done |].
    rewrite Hg. simpl. simpl in Hsg.
    apply has_shape_T2 in Hsg as (rows & -> & Hlr & Hwr). simpl.
    unfold set_grad. rewrite decide_True.
    + simpl. by apply Hloop.
    + simpl. rewrite length_map, length_imap, Hlr.
      by destruct (Hcls n0 Hn0) as [_ ->].
Qed.

End GradStep.

(** * The example models are well formed *)

Module ExamplesFacts.
Import Examples.

Ltac concrete_shape :=
  split; [simpl; repeat constructor | reflexivity].

Lemma hier2_wf : wf_model [2; 3]%nat hier2.
Proof.
  constructor; simpl.
  - reflexivity.
  - lia.
  - intros n0 [= <-]. concrete_shape.
  - reflexivity.
  - intros [|[|l]] n_in n_out Hi Ho; simpl in *; simplify_eq.
    eexists. split; [reflexivity |]. split; [concrete_shape | reflexivity].
  - intros [|l] Hl; [by eexists | lia].
  - exact I.
Qed.

Lemma hybrid3_wf : wf_model [2; 3; 1]%nat hybrid3.
Proof.
  constructor; simpl.
  - reflexivity.
  - lia.
  - intros n0 [= <-]. concrete_shape.
  - reflexivity.
  - intros [|[|[|l]]] n_in n_out Hi Ho; simpl in *; simplify_eq;
      (eexists; split; [reflexivity |]; split; [concrete_shape |];
       split; [reflexivity | concrete_shape]).
  - intros [|[|l]] Hl; [by eexists | by eexists | lia].
  - intros n0 [= <-]. concrete_shape.
Qed.

Lemma zero_hybrid2_wf : wf_model [2; 3]%nat zero_hybrid2.
Proof.
  constructor; simpl.
  - reflexivity.
  - lia.
  - intros n0 [= <-]. concrete_shape.
  - reflexivity.
  - intros [|[|l]] n_in n_out Hi Ho; simpl in *; simplify_eq.
    eexists. split; [reflexivity |]. split; [concrete_shape | reflexivity].
  - intros [|l] Hl; [by eexists | lia].
  - intros n0 [= <-]. concrete_shape.
Qed.

Lemma hier2_relaxed_Inv : Inv [2; 3]%nat 2 0 hier2_relaxed.
Proof.
  constructor; simpl; try reflexivity; try lia;
    intros [|[|l]] n Hn; simpl in *; simplify_eq;
    (eexists; split; [reflexivity | concrete_shape]).
Qed.

Lemma hybrid3_relaxed_Inv : Inv [2; 3; 1]%nat 4 0 hybrid3_relaxed.
Proof.
  constructor; simpl; try reflexivity; try lia;
    intros [|[|[|l]]] n Hn; simpl in *; simplify_eq;
    (eexists; split; [reflexivity | concrete_shape]).
Qed.

End ExamplesFacts.

(** * The claims *)

(** ** set_nodes *)

(** C1 (amended): for a model over [nodes] and a batch of shape
    (B, nodes[L-1]), [set_nodes] returns; [val_nodes[0]] is the memory
    vector itself, of shape (nodes[0],), every [val_nodes[l]] above the
    sensory layer has shape (nodes[l],), [val_nodes[L-1]] is the batch,
    of shape (B, nodes[L-1]), and every [errs[l]] has the shape of
    [val_nodes[l]]. *)
Theorem set_nodes_shapes {R : Type} `{Scalar R} (nodes : list nat)
    (self : MultilayerPCN R) (B n_last : nat) (batch_inp : tensor R) :
  wf_model nodes self →
  nodes !! (length nodes - 1) = Some n_last →
  has_shape batch_inp [B; n_last] →
  ∃ st, set_nodes self (initialize self) batch_inp = Ok st ∧
        val_nodes st !! 0 = Some (Some (data (memory self))) ∧
        val_nodes st !! (length nodes - 1) = Some (Some batch_inp) ∧
        ∀ l n, nodes !! l = Some n →
          ∃ v e, val_nodes st !! l = Some (Some v) ∧
                 errs st !! l = Some (Some e) ∧
                 has_shape v (if decide (l = length nodes - 1)
                              then [B; n] else [n]) ∧
                 shape e = shape v.
Proof.
  intros Hwf Hlast Hinp.
  destruct (set_nodes_Inv nodes self B n_last batch_inp Hwf Hlast Hinp)
    as (st & Hst & HInv & Hmem & Hsens).
  exists st. split; [done |]. split; [done |]. split; [done |].
  intros l n Hn. pose proof (lookup_lt_Some _ _ _ Hn) as Hl.
  destruct (inv_val _ _ _ _ HInv l n Hn) as (v & Hv & Hsv).
  destruct (inv_errs _ _ _ _ HInv l n Hn) as (e & He & Hse).
  exists v, e. split; [done |]. split; [done |].
  destruct Hsv as [Hwv Hsv], Hse as [_ Hse]. split; [| congruence].
  split; [done |]. rewrite Hsv.
  case_bool_decide; case_decide; try done; lia.
Qed.

Lemma set_nodes_shapes_witness :
  ∃ st, set_nodes Examples.hier2 (initialize Examples.hier2) Examples.batch2 = Ok st ∧
        val_nodes st !! 0%nat = Some (Some (T1 [1; 1]%Z)).
Proof.
  destruct (set_nodes_shapes [2; 3] Examples.hier2 2 3 Examples.batch2)
    as (st & Hst & Hmem & _).
  - exact ExamplesFacts.hier2_wf.
  - reflexivity.
  - split; [simpl; repeat constructor | reflexivity].
  - exists st. split; [exact Hst | exact Hmem].
Defined.

(** C1 as stated fails: on nodes [2; 3] and a batch of B = 2 vectors,
    [val_nodes[0]] after [set_nodes] has shape (2,), not (B, nodes[0]) =
    (2, 2); the memory vector is not broadcast. *)
Lemma set_nodes_memory_not_broadcast :
  wf_model [2; 3] Examples.hier2 ∧ has_shape Examples.batch2 [2; 3] ∧
  ∃ st v0, set_nodes Examples.hier2 (initialize Examples.hier2) Examples.batch2 = Ok st ∧
           val_nodes st !! 0%nat = Some (Some v0) ∧
           shape v0 = [2] ∧ shape v0 ≠ [2; 2].
Proof.
  split; [exact ExamplesFacts.hier2_wf |].
  split; [split; [simpl; repeat constructor | reflexivity] |].
  eexists _, _. split; [vm_compute; reflexivity |].
  split; [reflexivity |]. split; [reflexivity | discriminate].
Qed.

(** ** train_pc_generative *)

(** X22: when n_iters >= L - 1, [train_pc_generative] returns and every
    learnable parameter (memory, each layer weight, each enabled bias,
    and [Wr] in the hybrid class) has a gradient of the shape of the
    parameter, whatever the update mask. *)
Theorem train_pc_generative_grads_ready {R : Type} `{Scalar R} (nodes : list nat)
    (self : MultilayerPCN R) (B n_last : nat) (batch_inp update_mask : tensor R)
    (n_iters : nat) :
  wf_model nodes self →
  nodes !! (length nodes - 1) = Some n_last →
  has_shape batch_inp [B; n_last] →
  length nodes - 1 ≤ n_iters →
  ∃ self' st, train_pc_generative self batch_inp n_iters update_mask = Ok (self', st) ∧
              grads_ready self self'.
Proof.
  intros Hwf Hlast Hinp Hn.
  pose proof (wf_n_layers _ _ Hwf) as HL.
  destruct (episode_Inv nodes self B n_last batch_inp update_mask false n_iters)
    as (st & Hst & HInv); try done.
  replace (length nodes - 1 - n_iters) with 0 in HInv by lia.
  destruct (update_grads_total nodes self B st Hwf HInv) as (self' & Hself').
  exists self', st. unfold train_pc_generative. rewrite Hst. simpl.
  rewrite Hself'. simpl. split; [done |].
  destruct (update_grads_spec self st self' Hself')
    as (e0 & He0 & Hmem & Hlen & Hrest & Hdone & Hcls).
  split; [by eapply set_grad_ready |]. split; [done |]. split.
  - intros l ly' Hly'. pose proof (lookup_lt_Some _ _ _ Hly') as Hl.
    rewrite Hlen, (wf_layers_len _ _ Hwf) in Hl.
    destruct (Hdone l) as (ly1 & Hg & Hlook); [lia |].
    rewrite Hly' in Hlook. injection Hlook as <-.
    apply graded_layer_Ok in Hg
      as (e1 & nl & v & a & g & ly & _ & _ & _ & _ & _ & Hly & Hw & Hb).
    exists ly. split; [done |]. split; [by eapply set_grad_ready |].
    destruct (lookup_lt_is_Some_2 nodes l) as (n & Hnl); [lia |].
    destruct (lookup_lt_is_Some_2 nodes (l + 1)) as (n1 & Hnl1); [lia |].
    destruct (wf_layers _ _ Hwf l n n1 Hnl Hnl1) as (ly0 & Hly0 & _ & Hwb).
    rewrite Hly in Hly0. injection Hly0 as <-.
    destruct (use_bias self).
    + destruct Hb as (b & b' & Hbl & Hbl' & Hset). rewrite Hbl'.
      exists b. split; [done | by eapply set_grad_ready].
    + rewrite Hb. by destruct (bias ly) as [b|]; [destruct Hwb |].
  - destruct (cls self) as [| |Wr]; [done | by rewrite Hcls |].
    destruct Hcls as (v0 & g & g' & Wr' & _ & _ & _ & Hset & ->).
    exists Wr. split; [done | by eapply set_grad_ready].
Qed.

Lemma train_pc_generative_grads_ready_witness :
  ∃ self' st,
    train_pc_generative Examples.hybrid3 Examples.batch3 2 Examples.batch3
      = Ok (self', st) ∧
    grads_ready Examples.hybrid3 self'.
Proof.
  apply (train_pc_generative_grads_ready [2; 3; 1] Examples.hybrid3 4 1).
  - exact ExamplesFacts.hybrid3_wf.
  - reflexivity.
  - split; [simpl; repeat constructor | reflexivity].
  - simpl. lia.
Defined.

(** With fewer than L - 1 relaxation steps the top-layer error is still a
    single vector: its sum over axis 0 is a scalar, and the assignment
    to [memory.grad] raises. *)
Lemma train_pc_generative_too_few_iters {R : Type} `{Scalar R} (nodes : list nat)
    (self : MultilayerPCN R) (B n_last : nat) (batch_inp update_mask : tensor R)
    (n_iters : nat) :
  wf_model nodes self →
  nodes !! (length nodes - 1) = Some n_last →
  has_shape batch_inp [B; n_last] →
  n_iters < length nodes - 1 →
  train_pc_generative self batch_inp n_iters update_mask = Raise RuntimeError.
Proof.
  intros Hwf Hlast Hinp Hn.
  destruct (episode_Inv nodes self B n_last batch_inp update_mask false n_iters)
    as (st & Hst & HInv); try done.
  unfold train_pc_generative. rewrite Hst. simpl.
  destruct (lookup_lt_is_Some_2 nodes 0) as (n0 & Hn0); [lia |].
  destruct (inv_errs _ _ _ _ HInv 0 n0 Hn0) as (e0 & He0 & Hse0).
  rewrite bool_decide_eq_false_2 in Hse0 by lia.
  apply has_shape_T1 in Hse0 as (v & -> & Hv).
  destruct (has_shape_T1 _ _ (wf_memory _ _ Hwf n0 Hn0)) as (m & Hm & _).
  apply read_Ok in He0. pose proof (wf_cls _ _ Hwf) as Hcls.
  unfold update_grads.
  destruct (cls self) as [| |Wr]; [done | |]; rewrite He0; simpl;
    unfold set_grad; rewrite Hm; simpl; reflexivity.
Qed.

(** So the call returns exactly when n_iters >= L - 1, and then with
    every gradient in place. *)
Lemma train_pc_generative_returns_iff {R : Type} `{Scalar R} (nodes : list nat)
    (self : MultilayerPCN R) (B n_last : nat) (batch_inp update_mask : tensor R)
    (n_iters : nat) :
  wf_model nodes self →
  nodes !! (length nodes - 1) = Some n_last →
  has_shape batch_inp [B; n_last] →
  (∃ r, train_pc_generative self batch_inp n_iters update_mask = Ok r) ↔
  length nodes - 1 ≤ n_iters.
Proof.
  intros Hwf Hlast Hinp. split.
  - intros (r & Hr). destruct (decide (length nodes - 1 ≤ n_iters)); [done |].
    rewrite (train_pc_generative_too_few_iters nodes self B n_last) in Hr
      by (try done; lia).
    discriminate.
  - intros Hn.
    destruct (episode_Inv nodes self B n_last batch_inp update_mask false n_iters)
      as (st & Hst & HInv); try done.
    replace (length nodes - 1 - n_iters) with 0 in HInv by lia.
    destruct (update_grads_total nodes self B st Hwf HInv) as (self' & Hself').
    exists (self', st). unfold train_pc_generative. rewrite Hst. simpl.
    by rewrite Hself'.
Qed.

(** C10: the update mask has no effect on training: two calls of
    [train_pc_generative] that differ only in the mask give the same
    outcome (the same value nodes, errors and parameter gradients, or
    the same exception). *)
Theorem train_pc_generative_ignores_mask {R : Type} `{Scalar R}
    (self : MultilayerPCN R) (batch_inp : tensor R) (n_iters : nat)
    (mask1 mask2 : tensor R) :
  train_pc_generative self batch_inp n_iters mask1
  = train_pc_generative self batch_inp n_iters mask2.
Proof.
  unfold train_pc_generative, episode, relax, update_val_nodes. reflexivity.
Qed.

(** ** test_pc_generative *)

Lemma update_err_nodes_coherent {R : Type} `{Scalar R} (self : MultilayerPCN R)
    (st st' : buffers R) :
  update_err_nodes self st = Ok st' → coherent self st'.
Proof.
  intros (Hv & _ & _ & Hspec)%update_err_nodes_spec l Hl.
  destruct (Hspec l Hl) as (p & v & e & Hp & _ & _ & Hlook & _).
  exists p. by rewrite Hv.
Qed.

Lemma set_nodes_coherent {R : Type} `{Scalar R} (self : MultilayerPCN R)
    (st st' : buffers R) (inp : tensor R) :
  set_nodes self st inp = Ok st' → coherent self st'.
Proof.
  unfold set_nodes. intros Hs. do 4 inv_bind Hs.
  by eapply update_err_nodes_coherent.
Qed.

Lemma update_val_nodes_coherent {R : Type} `{Scalar R} (self : MultilayerPCN R)
    (st st' : buffers R) (update_mask : tensor R) (recon : bool) :
  update_val_nodes self st update_mask recon = Ok st' → coherent self st'.
Proof.
  unfold update_val_nodes. intros Hs. do 2 inv_bind Hs.
  by eapply update_err_nodes_coherent.
Qed.

Lemma episode_coherent {R : Type} `{Scalar R} (self : MultilayerPCN R)
    (inp update_mask : tensor R) (recon : bool) (n_iters : nat) (st : buffers R) :
  episode self inp n_iters update_mask recon = Ok st → coherent self st.
Proof.
  unfold episode, relax. intros He. inv_bind He.
  eapply (for_range_preserves (coherent self)); [| | exact He].
  - intros s l s1 _ Hs. simpl in Hs. by eapply update_val_nodes_coherent.
  - by eapply set_nodes_coherent.
Qed.

(** C5 fails on the code: with fewer than L - 1 relaxation steps
    [train_pc_generative] does not return.  The relaxation itself goes
    through, and [test_pc_generative] returns for the same input and
    number of steps; it is [update_grads] that raises [RuntimeError],
    summing over axis 0 an error [errs[0]] that has no batch axis yet. *)
Theorem train_pc_generative_raises_below_depth {R : Type} `{Scalar R}
    (nodes : list nat) (self : MultilayerPCN R) (B n_last : nat)
    (batch_inp update_mask : tensor R) (n_iters : nat) (sensory : bool) :
  wf_model nodes self →
  nodes !! (length nodes - 1) = Some n_last →
  has_shape batch_inp [B; n_last] →
  has_shape update_mask [B; n_last] →
  n_iters < length nodes - 1 →
  train_pc_generative self batch_inp n_iters update_mask = Raise RuntimeError ∧
  (∃ st, episode self batch_inp n_iters update_mask false = Ok st ∧
         update_grads self st = Raise RuntimeError) ∧
  (∃ out, test_pc_generative self batch_inp n_iters update_mask sensory
          = Ok (Some out)).
Proof.
  intros Hwf Hlast Hinp Hmask Hn.
  pose proof (wf_two _ _ Hwf) as H2.
  pose proof (train_pc_generative_too_few_iters nodes self B n_last batch_inp
                update_mask n_iters Hwf Hlast Hinp Hn) as Hraise.
  split; [done |]. split.
  - destruct (episode_Inv nodes self B n_last batch_inp update_mask false n_iters)
      as (st & Hst & _); try done.
    exists st. split; [done |].
    unfold train_pc_generative in Hraise. rewrite Hst in Hraise. simpl in Hraise.
    destruct (update_grads self st) as [self'|e]; simpl in Hraise; congruence.
  - destruct (episode_Inv nodes self B n_last batch_inp update_mask true n_iters)
      as (st & Hst & HInv); try done.
    unfold test_pc_generative. rewrite Hst. simpl. destruct sensory.
    + destruct (inv_val _ _ _ _ HInv _ _ Hlast) as (v & Hv & _).
      exists v.
      assert (last_index (val_nodes st) = Ok (length nodes - 1)) as ->.
      { apply last_index_Ok. rewrite (inv_len_val _ _ _ _ HInv). lia. }
      simpl. by apply getitem_Ok.
    + destruct (episode_coherent self _ _ _ _ _ Hst (length nodes - 1))
        as (p & _ & Hp); [rewrite (wf_n_layers _ _ Hwf); lia |].
      exists p.
      assert (last_index (preds st) = Ok (length nodes - 1)) as ->.
      { apply last_index_Ok. rewrite (inv_len_preds _ _ _ _ HInv). lia. }
      simpl. by apply getitem_Ok.
Qed.

Lemma train_pc_generative_raises_below_depth_witness :
  train_pc_generative Examples.hier2 Examples.batch2 0 Examples.ones2
  = Raise RuntimeError ∧
  (∃ st, episode Examples.hier2 Examples.batch2 0 Examples.ones2 false = Ok st ∧
         update_grads Examples.hier2 st = Raise RuntimeError) ∧
  (∃ out, test_pc_generative Examples.hier2 Examples.batch2 0 Examples.ones2 true
          = Ok (Some out)).
Proof.
  apply (train_pc_generative_raises_below_depth [2; 3] Examples.hier2 2 3).
  - exact ExamplesFacts.hier2_wf.
  - reflexivity.
  - split; [simpl; repeat constructor | reflexivity].
  - split; [simpl; repeat constructor | reflexivity].
  - simpl. lia.
Defined.

(** C6 (amended): on a corrupted batch and a mask of the sensory shape,
    [test_pc_generative] returns the relaxed sensory-layer value nodes
    [val_nodes[L-1]] when [sensory] is true, and [preds[L-1]], the
    prediction of the sensory layer computed from the layer above it,
    when [sensory] is false. *)
Theorem test_pc_generative_returns {R : Type} `{Scalar R} (nodes : list nat)
    (self : MultilayerPCN R) (B n_last : nat) (corrupt_inp update_mask : tensor R)
    (n_iters : nat) :
  wf_model nodes self →
  nodes !! (length nodes - 1) = Some n_last →
  has_shape corrupt_inp [B; n_last] →
  has_shape update_mask [B; n_last] →
  ∃ st v p,
    episode self corrupt_inp n_iters update_mask true = Ok st ∧
    val_nodes st !! (length nodes - 1) = Some (Some v) ∧
    preds st !! (length nodes - 1) = Some (Some p) ∧
    pred_from_above self (val_nodes st) (length nodes - 1) = Ok p ∧
    test_pc_generative self corrupt_inp n_iters update_mask true = Ok (Some v) ∧
    test_pc_generative self corrupt_inp n_iters update_mask false = Ok (Some p).
Proof.
  intros Hwf Hlast Hinp Hmask.
  pose proof (wf_n_layers _ _ Hwf) as HL. pose proof (wf_two _ _ Hwf) as H2.
  destruct (episode_Inv nodes self B n_last corrupt_inp update_mask true n_iters)
    as (st & Hst & HInv); try done.
  destruct (inv_val _ _ _ _ HInv _ _ Hlast) as (v & Hv & _).
  destruct (episode_coherent self _ _ _ _ _ Hst (length nodes - 1)) as (p & Hp & Hlook);
    [lia |].
  unfold prediction in Hp. rewrite decide_False in Hp by lia.
  exists st, v, p. repeat split; try done.
  - unfold test_pc_generative. rewrite Hst. simpl.
    assert (last_index (val_nodes st) = Ok (length nodes - 1)) as ->.
    { apply last_index_Ok. rewrite (inv_len_val _ _ _ _ HInv). lia. }
    simpl. by apply getitem_Ok.
  - unfold test_pc_generative. rewrite Hst. simpl.
    assert (last_index (preds st) = Ok (length nodes - 1)) as ->.
    { apply last_index_Ok. rewrite (inv_len_preds _ _ _ _ HInv). lia. }
    simpl. by apply getitem_Ok.
Qed.

Lemma test_pc_generative_returns_witness :
  ∃ v p,
    test_pc_generative Examples.hier2 Examples.batch2 2 Examples.ones2 true
      = Ok (Some v) ∧
    test_pc_generative Examples.hier2 Examples.batch2 2 Examples.ones2 false
      = Ok (Some p).
Proof.
  destruct (test_pc_generative_returns [2; 3] Examples.hier2 2 3
              Examples.batch2 Examples.ones2 2)
    as (st & v & p & _ & _ & _ & _ & Hv & Hp).
  - exact ExamplesFacts.hier2_wf.
  - reflexivity.
  - split; [simpl; repeat constructor | reflexivity].
  - split; [simpl; repeat constructor | reflexivity].
  - exists v, p. split; [exact Hv | exact Hp].
Defined.

(** C6 as stated fails: layer 0 is the top layer, and with
    [sensory = False] the function does not return its prediction
    [preds[0]] (here the memory vector) but [preds[L-1]]. *)
Lemma test_pc_generative_not_top_prediction :
  ∃ st p0,
    episode Examples.hier2 Examples.batch2 0 Examples.ones2 true = Ok st ∧
    preds st !! 0%nat = Some p0 ∧
    p0 = Some (T1 [1; 1]%Z) ∧
    test_pc_generative Examples.hier2 Examples.batch2 0 Examples.ones2 false
      = Ok (Some (T1 [3; 7; 11]%Z)) ∧
    test_pc_generative Examples.hier2 Examples.batch2 0 Examples.ones2 false
      ≠ Ok p0.
Proof.
  eexists _, _. split; [vm_compute; reflexivity |].
  split; [reflexivity |]. split; [reflexivity |].
  split; [vm_compute; reflexivity |]. vm_compute. discriminate.
Qed.

(** ** update_val_nodes *)

Lemma call_deriv_Ok {R : Type} `{Scalar R} (o : pyobj R) (x y : tensor R) :
  call_deriv o x = Ok y → ∃ f, o = Callable f ∧ y = tmap (nl_deriv f) x.
Proof. destruct o as [f|s]; simpl; [| discriminate]. intros [= <-]. eauto. Qed.

Lemma call_Ok {R : Type} `{Scalar R} (o : pyobj R) (x y : tensor R) :
  call o x = Ok y → ∃ f, o = Callable f ∧ y = tmap (nl_apply f) x.
Proof. destruct o as [f|s]; simpl; [| discriminate]. intros [= <-]. eauto. Qed.

(** C2: one call of [update_val_nodes] on the buffers of an episode
    returns, and for every layer l < L - 1 the new [val_nodes[l]] is the
    old one plus [Dt * delta], where
    [delta = -errs[l] - penalty * sign(val_nodes[l])
             + nonlin'(val_nodes[l]) * (errs[l+1] @ W_l)]
    is computed from the buffers before the call and [penalty] is [lamb]
    for l = 0 and 0 for the other layers. *)
Theorem update_val_nodes_step {R : Type} `{Scalar R} (nodes : list nat)
    (self : MultilayerPCN R) (B k n_last : nat) (st : buffers R)
    (update_mask : tensor R) (recon : bool) :
  wf_model nodes self → Inv nodes B k st →
  nodes !! (length nodes - 1) = Some n_last →
  (recon = true → has_shape update_mask [B; n_last]) →
  ∃ st', update_val_nodes self st update_mask recon = Ok st' ∧
    ∀ l, l < length nodes - 1 →
      let penalty := if decide (l = 0) then lamb self else szero in
      ∃ e v e1 ly f m b a delta v',
        errs st !! l = Some (Some e) ∧
        val_nodes st !! l = Some (Some v) ∧
        errs st !! (l + 1) = Some (Some e1) ∧
        layers self !! l = Some ly ∧
        nonlins self !! l = Some (Callable f) ∧
        matmul e1 (data (weight ly)) = Ok m ∧
        tmul (tmap (nl_deriv f) v) m = Ok b ∧
        tsub (tneg e) (scale penalty (tsign v)) = Ok a ∧
        tadd a b = Ok delta ∧
        tadd v (scale (Dt self) delta) = Ok v' ∧
        val_nodes st' !! l = Some (Some v').
Proof.
  intros Hwf HInv Hlast Hmask.
  destruct (update_val_nodes_Inv nodes self B k n_last st update_mask recon)
    as (st' & Hst' & _); try done.
  exists st'. split; [done |]. intros l Hl penalty.
  apply update_val_nodes_spec in Hst' as (_ & _ & Hdone & _).
  destruct (Hdone l) as (d & v & v' & Hd & Hv & Hv' & Hlook).
  { rewrite (wf_n_layers _ _ Hwf). lia. }
  unfold layer_delta in Hd.
  inv_bind Hd. rename x into nl, Hx into Hnl.
  rewrite Hv in Hd. simpl in Hd.
  inv_bind Hd. rename x into derivative, Hx into Hder.
  inv_bind Hd. rename x into e, Hx into He.
  inv_bind Hd. rename x into a, Hx into Ha.
  inv_bind Hd. rename x into e1, Hx into He1.
  inv_bind Hd. rename x into ly, Hx into Hly.
  inv_bind Hd. rename x into m, Hx into Hm.
  inv_bind Hd. rename x into b, Hx into Hb.
  apply call_deriv_Ok in Hder as (f & -> & ->).
  exists e, v, e1, ly, f, m, b, a, d, v'.
  apply read_Ok in He, Hv, He1. apply getitem_Ok in Hly, Hnl.
  repeat split; done.
Qed.

Lemma update_val_nodes_step_witness :
  ∃ st', update_val_nodes Examples.hybrid3 Examples.hybrid3_relaxed
           Examples.batch3 true = Ok st'.
Proof.
  destruct (update_val_nodes_step [2; 3; 1] Examples.hybrid3 4 0 1
              Examples.hybrid3_relaxed Examples.batch3 true) as (st' & Hst' & _).
  - exact ExamplesFacts.hybrid3_wf.
  - exact ExamplesFacts.hybrid3_relaxed_Inv.
  - reflexivity.
  - intros _. split; [simpl; repeat constructor | reflexivity].
  - exists st'. exact Hst'.
Defined.

(** ** update_grads *)

(** C3: in the hierarchical class, on the buffers of an episode in which
    every layer holds a batch, [update_grads] returns; the gradient of
    [memory] is minus the sum over the batch of [errs[0]], the gradient
    of the weight of layer l is [-(errs[l+1].t() @ nonlin(val_nodes[l]))],
    and with [use_bias] the gradient of its bias is minus the sum over
    the batch of [errs[l+1]]. *)
Theorem hierarchical_update_grads {R : Type} `{Scalar R} (nodes : list nat)
    (self : MultilayerPCN R) (B : nat) (st : buffers R) :
  wf_model nodes self → cls self = Hierarchical → Inv nodes B 0 st →
  ∃ self' e0,
    update_grads self st = Ok self' ∧
    errs st !! 0 = Some (Some e0) ∧
    grad (memory self') = Some (tneg (sum0 e0)) ∧
    ∀ l, l < length nodes - 1 →
      ∃ e1 v f g ly',
        errs st !! (l + 1) = Some (Some e1) ∧
        val_nodes st !! l = Some (Some v) ∧
        nonlins self !! l = Some (Callable f) ∧
        matmul (transpose e1) (tmap (nl_apply f) v) = Ok g ∧
        layers self' !! l = Some ly' ∧
        grad (weight ly') = Some (tneg g) ∧
        (use_bias self = true →
           ∃ b', bias ly' = Some b' ∧ grad b' = Some (tneg (sum0 e1))).
Proof.
  intros Hwf Hcls HInv.
  destruct (update_grads_total nodes self B st Hwf HInv) as (self' & Hself').
  destruct (update_grads_spec self st self' Hself')
    as (e0 & He0 & Hmem & _ & _ & Hdone & _).
  exists self', e0. split; [done |]. split; [by apply read_Ok |].
  apply set_grad_Ok in Hmem as [_ ->]. split; [done |].
  intros l Hl. destruct (Hdone l) as (ly' & Hg & Hlook).
  { rewrite (wf_n_layers _ _ Hwf). lia. }
  apply graded_layer_Ok in Hg
    as (e1 & nl & v & a & g & ly & He1 & Hnl & Hv & Ha & Hgm & Hly & Hw & Hb).
  apply call_Ok in Ha as (f & -> & ->).
  exists e1, v, f, g, ly'.
  apply read_Ok in He1, Hv. apply getitem_Ok in Hnl.
  apply set_grad_Ok in Hw as [_ ->].
  repeat split; try done.
  intros Hub. rewrite Hub in Hb. destruct Hb as (b & b' & _ & Hb' & Hset).
  exists b'. split; [done |]. by apply set_grad_Ok in Hset as [_ ->].
Qed.

Lemma hierarchical_update_grads_witness :
  ∃ self', update_grads Examples.hier2 Examples.hier2_relaxed = Ok self' ∧
           grad (memory self') = Some (T1 [154; 194]%Z).
Proof.
  destruct (hierarchical_update_grads [2; 3] Examples.hier2 2 Examples.hier2_relaxed)
    as (self' & e0 & Hself' & He0 & Hmem & _).
  - exact ExamplesFacts.hier2_wf.
  - reflexivity.
  - exact ExamplesFacts.hier2_relaxed_Inv.
  - exists self'. split; [exact Hself' |].
    injection He0 as <-. exact Hmem.
Defined.

(** Negating a matrix whose diagonal was filled with zero leaves
    [-0] on the diagonal. *)
Lemma tneg_fill_diagonal_0_get {R : Type} `{Scalar R} (g g' : tensor R)
    (i : nat) (x : R) :
  fill_diagonal_0 g = Ok g' → tensor_get (tneg g') i i = Some x →
  x = sneg szero.
Proof.
  destruct g as [y|v|n rows]; simpl; try discriminate.
  intros [= <-]. simpl. rewrite list_lookup_fmap, list_lookup_imap.
  destruct (rows !! i) as [r|] eqn:Hr; simpl; [| discriminate].
  rewrite list_lookup_fmap.
  destruct (decide (i < length r)) as [Hi|Hi].
  - rewrite list_lookup_insert_eq by done. simpl. by intros [= <-].
  - rewrite list_insert_ge by lia.
    rewrite lookup_ge_None_2 by lia. discriminate.
Qed.

Lemma tensor_get_is_Some {R : Type} (t : tensor R) (m n i j : nat) :
  has_shape t [m; n] → i < m → j < n → is_Some (tensor_get t i j).
Proof.
  intros (rows & -> & Hl & Hw)%has_shape_T2 Hi Hj. simpl.
  destruct (lookup_lt_is_Some_2 rows i) as (r & Hr); [lia |].
  rewrite Hr. apply lookup_lt_is_Some_2.
  by rewrite (Forall_lookup_1 _ _ _ _ Hw Hr).
Qed.

(** C4: in the hybrid class, on the buffers of an episode in which every
    layer holds a batch, [update_grads] returns and leaves in [Wr.grad] a
    matrix of the shape of [Wr] whose diagonal entries are all zero,
    whatever the values in the buffers and in the parameters (the
    diagonal is filled with 0 and then negated: the scalars are to
    satisfy -0 = 0). *)
Theorem hybrid_update_grads_zero_diagonal {R : Type} `{Scalar R}
    (nodes : list nat) (self : MultilayerPCN R) (Wr : Param R) (B n0 : nat)
    (st : buffers R) :
  sneg szero = szero →
  wf_model nodes self → cls self = Hybrid Wr → Inv nodes B 0 st →
  nodes !! 0 = Some n0 →
  ∃ self' Wr' g,
    update_grads self st = Ok self' ∧
    cls self' = Hybrid Wr' ∧ data Wr' = data Wr ∧
    grad Wr' = Some g ∧ has_shape g [n0; n0] ∧
    ∀ i, i < n0 → tensor_get g i i = Some szero.
Proof.
  intros Hneg Hwf Hcls HInv Hn0.
  destruct (update_grads_total nodes self B st Hwf HInv) as (self' & Hself').
  destruct (update_grads_spec self st self' Hself')
    as (e0 & He0 & _ & _ & _ & _ & Hhyb).
  rewrite Hcls in Hhyb.
  destruct Hhyb as (v0 & g & g' & Wr' & Hv0 & Hg & Hg' & Hset & Hcls').
  apply set_grad_Ok in Hset as [Hshape ->].
  exists self', {| data := data Wr; grad := Some (tneg g') |}, (tneg g').
  split; [done |]. split; [done |]. split; [done |]. split; [done |].
  pose proof (wf_cls _ _ Hwf) as HWr. rewrite Hcls in HWr.
  assert (has_shape (tneg g') [n0; n0]) as Hsg.
  { split.
    - apply tmap_wf. eapply fill_diagonal_0_wf; [| exact Hg'].
      by eapply matmul_wf.
    - rewrite Hshape. by destruct (HWr n0 Hn0) as [_ ->]. }
  split; [done |]. intros i Hi.
  destruct (tensor_get_is_Some (tneg g') n0 n0 i i Hsg Hi Hi) as (x & Hx).
  rewrite Hx. f_equal. rewrite <- Hneg.
  by eapply tneg_fill_diagonal_0_get.
Qed.

Lemma hybrid_update_grads_zero_diagonal_witness :
  ∃ self' Wr' g,
    update_grads Examples.hybrid3 Examples.hybrid3_relaxed = Ok self' ∧
    cls self' = Hybrid Wr' ∧ grad Wr' = Some g ∧
    tensor_get g 0 0 = Some 0%Z ∧ tensor_get g 1 1 = Some 0%Z.
Proof.
  destruct (hybrid_update_grads_zero_diagonal [2; 3; 1] Examples.hybrid3
              (new_parameter (T2 2 [[0; 1]; [1; 0]]%Z)) 4 2
              Examples.hybrid3_relaxed)
    as (self' & Wr' & g & Hself' & Hcls & _ & Hgrad & _ & Hdiag).
  - reflexivity.
  - exact ExamplesFacts.hybrid3_wf.
  - reflexivity.
  - exact ExamplesFacts.hybrid3_relaxed_Inv.
  - reflexivity.
  - exists self', Wr', g. split; [exact Hself' |]. split; [exact Hcls |].
    split; [exact Hgrad |]. split; apply Hdiag; lia.
Defined.

(** ** The constructor *)

Lemma mapM_seq_Ok {A : Type} (g : nat → result A) (a n : nat) :
  (∀ l, a ≤ l < a + n → ∃ y, g l = Ok y) → ∃ ys, mapM g (seq a n) = Ok ys.
Proof.
  revert a. induction n as [|n IH]; intros a Hg; simpl; [eauto |].
  destruct (Hg a) as (y & ->); [lia |]. simpl.
  destruct (IH (S a)) as (ys & ->); [intros l Hl; apply Hg; lia |].
  simpl. eauto.
Qed.

(** C7 fails on the code: a nonlinearity name other than "Tanh" and
    "ReLU" is not rejected; the constructor returns, with the name
    itself stored in every slot of [self.nonlins]. *)
Theorem MultilayerPCN_init_keeps_unknown_name {R : Type} `{Scalar R}
    (nn_Linear : nat → nat → bool → Linear R) (utils_Tanh utils_ReLU : Nonlin R)
    (nodes : list nat) (name : string) (Dt lamb : R) (use_bias : bool) :
  nodes ≠ [] → name ≠ "Tanh" → name ≠ "ReLU" →
  ∃ self,
    MultilayerPCN_init nn_Linear utils_Tanh utils_ReLU nodes (Str name)
      Dt lamb use_bias = Ok self ∧
    nonlins self = replicate (length nodes - 1) (Str name).
Proof.
  intros Hnodes Htanh Hrelu. unfold MultilayerPCN_init.
  destruct (mapM_seq_Ok (λ l,
      do n_in <- getitem nodes l;
      do n_out <- getitem nodes (l + 1);
      Ok (nn_Linear n_in n_out use_bias)) 0 (length nodes - 1)) as (lys & ->).
  { intros l Hl.
    destruct (lookup_lt_is_Some_2 nodes l) as (n_in & Hin); [lia |].
    destruct (lookup_lt_is_Some_2 nodes (l + 1)) as (n_out & Hout); [lia |].
    apply getitem_Ok in Hin, Hout. rewrite Hin, Hout. simpl. eauto. }
  simpl. destruct nodes as [|n0 nodes]; [done |]. simpl.
  rewrite !decide_False by done. eexists. split; [done |]. done.
Qed.

Lemma MultilayerPCN_init_keeps_unknown_name_witness :
  ∃ self,
    MultilayerPCN_init Examples.zero_Linear Examples.tanh_stub Examples.relu
      [2; 3] (Str "Sigmoid") 1%Z 0%Z false = Ok self ∧
    nonlins self = [Str "Sigmoid"].
Proof.
  apply (MultilayerPCN_init_keeps_unknown_name Examples.zero_Linear
           Examples.tanh_stub Examples.relu [2; 3] "Sigmoid" 1%Z 0%Z false).
  - discriminate.
  - discriminate.
  - discriminate.
Defined.

(** The unknown name is met only when the nonlinearity is first applied:
    the hierarchical model constructed with "Sigmoid" fails in
    [set_nodes], with the error of calling a string. *)
Example HierarchicalPCN_init_Sigmoid :
  ∃ self,
    HierarchicalPCN_init Examples.zero_Linear Examples.tanh_stub Examples.relu
      Examples.zero_randn1 [2; 3] (Str "Sigmoid") 1%Z 0%Z 0%Z false = Ok self ∧
    nonlins self = [Str "Sigmoid"] ∧
    set_nodes self (initialize self) Examples.batch2 = Raise TypeError.
Proof.
  eexists. split; [vm_compute; reflexivity |].
  split; [reflexivity | vm_compute; reflexivity].
Qed.

(** ** Reconstruction under an all-zero mask *)

Lemma zip_with_replicate_r_const {A B C : Type} (g : A → B → C) (P : A → Prop)
    (la : list A) (z : B) (c : C) :
  Forall P la → (∀ a, P a → g a z = c) →
  zip_with g la (replicate (length la) z) = replicate (length la) c.
Proof.
  intros Hla Hg. induction Hla as [|a la Ha _ IH]; simpl; [done |].
  by rewrite Hg, IH.
Qed.

Lemma zip_with_replicate_r_id {A B : Type} (g : A → B → A) (P : A → Prop)
    (la : list A) (z : B) :
  Forall P la → (∀ a, P a → g a z = a) →
  zip_with g la (replicate (length la) z) = la.
Proof.
  intros Hla Hg. induction Hla as [|a la Ha _ IH]; simpl; [done |].
  by rewrite Hg, IH.
Qed.

Lemma tmul_zeros2 {R : Type} `{Scalar R} (B n : nat) (x : tensor R) :
  (∀ y, smul y szero = szero) → has_shape x [B; n] →
  tmul x (zeros2 B n) = Ok (zeros2 B n).
Proof.
  intros Hmul (rows & -> & Hl & Hw)%has_shape_T2. unfold tmul, zeros2.
  rewrite bop_T2_T2; [| done | | by rewrite length_replicate].
  2:{ apply Forall_replicate. by rewrite length_replicate. }
  subst B. f_equal. f_equal.
  apply (zip_with_replicate_r_const _ (λ r, length r = n)); [done |].
  intros r <-.
  apply (zip_with_replicate_r_const _ (λ _, True)); [by apply Forall_true | done].
Qed.

Lemma scale_zeros2 {R : Type} `{Scalar R} (B n : nat) (c : R) :
  (∀ y, smul y szero = szero) → scale c (zeros2 B n) = zeros2 B n.
Proof.
  intros Hmul. unfold scale, zeros2. simpl. f_equal.
  induction B as [|B IH]; simpl; [done |]. rewrite IH. f_equal.
  clear IH. induction n as [|n IH]; simpl; [done |]. by rewrite IH, Hmul.
Qed.

Lemma tadd_zeros2 {R : Type} `{Scalar R} (B n : nat) (x : tensor R) :
  (∀ y, sadd y szero = y) → has_shape x [B; n] →
  tadd x (zeros2 B n) = Ok x.
Proof.
  intros Hadd (rows & -> & Hl & Hw)%has_shape_T2. unfold tadd, zeros2.
  rewrite bop_T2_T2; [| done | | by rewrite length_replicate].
  2:{ apply Forall_replicate. by rewrite length_replicate. }
  subst B. f_equal. f_equal.
  apply (zip_with_replicate_r_id _ (λ r, length r = n)); [done |].
  intros r <-.
  apply (zip_with_replicate_r_id _ (λ _, True)); [by apply Forall_true | done].
Qed.



Module FloatFacts.
Import FloatExamples.


End FloatFacts.

(** ** The zero model *)

Section Zero.
Context {R : Type} `{Scalar R}.
Implicit Types (t a b c : tensor R) (f : R → R → R) (P Q S : R → Prop).
Implicit Types (self : MultilayerPCN R) (st : buffers R).

Lemma tmap_tForall P Q (g : R → R) t :
  (∀ x, P x → Q (g x)) → tForall P t → tForall Q (tmap g t).
Proof.
  intros Hg. destruct t as [x|v|n rows]; simpl.
  - apply Hg.
  - intros Hv. apply Forall_map. eapply Forall_impl; [exact Hv | done].
  - intros Hr. apply Forall_map. eapply Forall_impl; [exact Hr |].
    simpl. intros r Hv. apply Forall_map. eapply Forall_impl; [exact Hv | done].
Qed.

Lemma bcast_Ok_Forall {A B C : Type} (g : A → B → result C)
    (PA : A → Prop) (PB : B → Prop) (PC : C → Prop)
    (la : list A) (lb : list B) (lc : list C) :
  (∀ x y z, PA x → PB y → g x y = Ok z → PC z) →
  Forall PA la → Forall PB lb → bcast g la lb = Ok lc → Forall PC lc.
Proof.
  intros Hg Ha Hb. unfold bcast. case_decide.
  - by apply (zipM_Ok_Forall g PA PB PC).
  - destruct la as [|x [|x' la]].
    + destruct lb as [|y [|y' lb]]; try discriminate.
      intros [= <-]. constructor.
    + inversion Ha; subst.
      apply (mapM_Ok_Forall (g x) PB PC); [by eauto | done].
    + destruct lb as [|y [|y' lb]]; try discriminate.
      inversion Hb; subst.
      apply (mapM_Ok_Forall (λ u, g u y) PA PC); [by eauto | done].
Qed.

Lemma bvec_Ok_Forall P Q S f (va vb vc : list R) :
  (∀ x y, P x → Q y → S (f x y)) →
  Forall P va → Forall Q vb → bvec f va vb = Ok vc → Forall S vc.
Proof.
  intros Hf. apply bcast_Ok_Forall. intros x y z Hx Hy [= <-]. by apply Hf.
Qed.

Lemma bop_tForall P Q S f a b c :
  (∀ x y, P x → Q y → S (f x y)) →
  tForall P a → tForall Q b → bop f a b = Ok c → tForall S c.
Proof.
  intros Hf.
  destruct a as [x|va|n ra], b as [y|vb|m rb]; simpl; intros Ha Hb Hc.
  - injection Hc as <-. by apply Hf.
  - injection Hc as <-. simpl. apply Forall_map.
    eapply Forall_impl; [exact Hb |]. simpl. eauto.
  - injection Hc as <-. simpl. apply Forall_map.
    eapply Forall_impl; [exact Hb |]. simpl. intros r Hr. apply Forall_map.
    eapply Forall_impl; [exact Hr |]. simpl. eauto.
  - injection Hc as <-. simpl. apply Forall_map.
    eapply Forall_impl; [exact Ha |]. simpl. eauto.
  - inv_bind Hc. injection Hc as <-. simpl. by eapply bvec_Ok_Forall.
  - inv_bind Hc. inv_bind Hc. injection Hc as <-. simpl.
    eapply (mapM_Ok_Forall _ (Forall Q)); [| exact Hb | exact Hx0].
    simpl. intros r r' Hr Hr'. by eapply bvec_Ok_Forall.
  - injection Hc as <-. simpl. apply Forall_map.
    eapply Forall_impl; [exact Ha |]. simpl. intros r Hr. apply Forall_map.
    eapply Forall_impl; [exact Hr |]. simpl. eauto.
  - inv_bind Hc. inv_bind Hc. injection Hc as <-. simpl.
    eapply (mapM_Ok_Forall _ (Forall P)); [| exact Ha | exact Hx0].
    simpl. intros r r' Hr Hr'. by eapply bvec_Ok_Forall.
  - inv_bind Hc. inv_bind Hc. injection Hc as <-. simpl.
    eapply (bcast_Ok_Forall _ (Forall P) (Forall Q)); [| exact Ha | exact Hb | exact Hx0].
    intros r1 r2 r3 Hr1 Hr2 Hr3. by eapply bvec_Ok_Forall.
Qed.

Section WithLaws.
Context `{!ScalarLaws R}.

Lemma ssum_zero (xs : list R) : Forall (λ x, x = szero) xs → ssum xs = szero.
Proof.
  unfold ssum. induction 1 as [|x xs -> _ IH]; simpl; [done |].
  by rewrite sadd_0_r.
Qed.

Lemma dot_zero_l (va vb : list R) : Forall (λ x, x = szero) va → dot va vb = szero.
Proof.
  intros Ha. unfold dot. apply ssum_zero. revert vb.
  induction Ha as [|x va -> _ IH]; intros [|y vb]; simpl; constructor; auto.
  apply smul_0_l.
Qed.

Lemma dot_zero_r (va vb : list R) : Forall (λ x, x = szero) vb → dot va vb = szero.
Proof.
  intros Hb. unfold dot. apply ssum_zero. revert va.
  induction Hb as [|y vb -> _ IH]; intros [|x va]; simpl; constructor; auto.
  apply smul_0_r.
Qed.

Lemma columns_zero (n : nat) (rows : list (list R)) :
  Forall (Forall (λ x, x = szero)) rows →
  Forall (Forall (λ x, x = szero)) (columns n rows).
Proof.
  intros Hr. unfold columns. apply Forall_map, Forall_forall. intros j _. simpl.
  unfold column. apply Forall_map. eapply Forall_impl; [exact Hr |]. simpl.
  intros r Hz. destruct (decide (j < length r)) as [Hj|Hj].
  - destruct (lookup_lt_is_Some_2 r j Hj) as (x & Hx).
    rewrite (nth_lookup_Some _ _ _ _ Hx).
    by apply (Forall_lookup_1 _ _ _ _ Hz Hx).
  - apply nth_overflow. lia.
Qed.

Lemma transpose_all_zero t : all_zero t → all_zero (transpose t).
Proof. destruct t as [x|v|n rows]; simpl; try done. apply columns_zero. Qed.

Lemma matmul_all_zero_l a b c : all_zero a → matmul a b = Ok c → all_zero c.
Proof.
  destruct a as [x|va|n ra], b as [y|vb|m rb]; simpl; try discriminate;
    intros Ha; case_decide; try discriminate; intros [= <-]; simpl.
  - by apply dot_zero_l.
  - apply Forall_map, Forall_forall. intros col _. by apply dot_zero_l.
  - apply Forall_map. eapply Forall_impl; [exact Ha |]. simpl.
    intros r Hr. by apply dot_zero_l.
  - apply Forall_map. eapply Forall_impl; [exact Ha |]. simpl.
    intros r Hr. apply Forall_map, Forall_forall. intros col _.
    by apply dot_zero_l.
Qed.

Lemma matmul_all_zero_r a b c : all_zero b → matmul a b = Ok c → all_zero c.
Proof.
  destruct a as [x|va|n ra], b as [y|vb|m rb]; simpl; try discriminate;
    intros Hb; case_decide; try discriminate; intros [= <-]; simpl.
  - by apply dot_zero_r.
  - apply Forall_map. eapply Forall_impl; [by apply (columns_zero m) |]. simpl.
    intros col Hcol. by apply dot_zero_r.
  - apply Forall_map, Forall_forall. intros r _. by apply dot_zero_r.
  - apply Forall_map, Forall_forall. intros r _. simpl.
    apply Forall_map. eapply Forall_impl; [by apply (columns_zero m) |]. simpl.
    intros col Hcol. by apply dot_zero_r.
Qed.

Lemma bop_all_zero f a b c :
  f szero szero = szero → all_zero a → all_zero b → bop f a b = Ok c → all_zero c.
Proof.
  intros Hf. apply bop_tForall. by intros x y -> ->.
Qed.

Lemma tmul_all_zero_l a b c : all_zero a → tmul a b = Ok c → all_zero c.
Proof.
  intros Ha. apply (bop_tForall (λ x, x = szero) (λ _, True)); [| done |].
  - intros x y -> _. apply smul_0_l.
  - destruct b as [y|vb|m rb]; simpl; [done | by apply Forall_true |].
    apply Forall_true. intros r. by apply Forall_true.
Qed.

Lemma tmul_all_zero_r a b c : all_zero b → tmul a b = Ok c → all_zero c.
Proof.
  intros Hb Hc.
  apply (bop_tForall (λ _, True) (λ x, x = szero) (λ x, x = szero) smul a b);
    [| | done | done].
  - intros x y _ ->. apply smul_0_r.
  - destruct a as [y|va|m ra]; simpl; [done | by apply Forall_true |].
    apply Forall_true. intros r. by apply Forall_true.
Qed.

Lemma tmap_all_zero (g : R → R) t : g szero = szero → all_zero t → all_zero (tmap g t).
Proof. intros Hg. apply tmap_tForall. by intros x ->. Qed.

Lemma zero_slots_insert (xs : list (option (tensor R))) (i : nat) t :
  zero_slots xs → all_zero t → zero_slots (<[i:=Some t]> xs).
Proof.
  intros Hxs Ht l t' Hl. destruct (decide (l = i)) as [->|Hne].
  - destruct (decide (i < length xs)) as [Hi|Hi].
    + rewrite list_lookup_insert_eq in Hl by done. by injection Hl as <-.
    + rewrite list_insert_ge in Hl by lia. by eapply Hxs.
  - rewrite list_lookup_insert_ne in Hl by done. by eapply Hxs.
Qed.

Lemma zero_slots_read (xs : list (option (tensor R))) (i : nat) t :
  zero_slots xs → read xs i = Ok t → all_zero t.
Proof. intros Hxs Ht%read_Ok. by eapply Hxs. Qed.

Lemma linear_forward_zero (ly : Linear R) (x y : tensor R) :
  all_zero (data (weight ly)) → bias ly = None →
  linear_forward ly x = Ok y → all_zero y.
Proof.
  intros Hw Hb. unfold linear_forward. rewrite Hb. intros Hy. inv_bind Hy.
  injection Hy as <-. eapply matmul_all_zero_r; [| exact Hx].
  by apply transpose_all_zero.
Qed.

Lemma pred_from_above_zero self (vals : list (option (tensor R))) (l : nat)
    (p : tensor R) :
  zero_model self → pred_from_above self vals l = Ok p → all_zero p.
Proof.
  intros [_ Hlys]. unfold pred_from_above. intros Hp.
  inv_bind Hp. rename x into ly, Hx into Hly.
  inv_bind Hp. inv_bind Hp. inv_bind Hp.
  apply getitem_Ok in Hly.
  destruct (Forall_lookup_1 _ _ _ _ Hlys Hly) as [Hw Hb].
  by eapply linear_forward_zero.
Qed.

Lemma prediction_zero self (vals : list (option (tensor R))) (l : nat) (p : tensor R) :
  zero_model self → zero_slots vals →
  prediction self vals l = Ok p → all_zero p.
Proof.
  intros Hz Hvals. unfold prediction. case_decide.
  - destruct Hz as [Hmem _].
    unfold pred_top. destruct (cls self) as [| |Wr]; [discriminate | |].
    + by intros [= <-].
    + intros Hp. inv_bind Hp. rename x into v, Hx into Hv.
      inv_bind Hp. rename x into r, Hx into Hr.
      eapply (bop_all_zero sadd); [apply sadd_0_r | exact Hmem | | exact Hp].
      eapply matmul_all_zero_l; [| exact Hr].
      eapply zero_slots_read; [| eassumption]; assumption.
  - by apply pred_from_above_zero.
Qed.

Lemma update_err_body_zero self st st' (l : nat) :
  zero_model self → zero_buffers st →
  update_err_body self st l = Ok st' → zero_buffers st'.
Proof.
  intros Hz [Hv He]. unfold update_err_body. intros Hb.
  inv_bind Hb. rename x into p, Hx into Hp.
  inv_bind Hb. rename x into ps, Hx into Hps.
  inv_bind Hb. rename x into v, Hx into Hrv.
  inv_bind Hb. rename x into e, Hx into Hsub.
  inv_bind Hb. rename x into es, Hx into Hes.
  injection Hb as <-. split; simpl; [done |].
  apply setitem_Ok in Hes as [_ ->]. apply zero_slots_insert; [done |].
  eapply (bop_all_zero ssub); [apply ssub_0_0 | | | exact Hsub].
  - eapply zero_slots_read; [| eassumption]; assumption.
  - eapply prediction_zero; [exact Hz | exact Hv | exact Hp].
Qed.

Lemma update_err_nodes_zero self st st' :
  zero_model self → zero_buffers st →
  update_err_nodes self st = Ok st' → zero_buffers st'.
Proof.
  intros Hz Hst. unfold update_err_nodes.
  destruct (cls self); [discriminate | |];
    apply for_range_preserves; try done;
    intros s l s1; by apply update_err_body_zero.
Qed.

Lemma layer_delta_zero self st (l : nat) (d : tensor R) :
  zero_buffers st → layer_delta self st l = Ok d → all_zero d.
Proof.
  intros [Hv He]. unfold layer_delta. intros Hd.
  inv_bind Hd. rename x into nl, Hx into Hnl.
  inv_bind Hd. rename x into v, Hx into Hrv.
  inv_bind Hd. rename x into derivative, Hx into Hder.
  inv_bind Hd. rename x into e, Hx into Hre.
  inv_bind Hd. rename x into a, Hx into Ha.
  inv_bind Hd. rename x into e1, Hx into Hre1.
  inv_bind Hd. rename x into ly, Hx into Hly.
  inv_bind Hd. rename x into m, Hx into Hm.
  inv_bind Hd. rename x into b, Hx into Hb.
  eapply (bop_all_zero sadd); [apply sadd_0_r | | | exact Hd].
  - eapply (bop_all_zero ssub); [apply ssub_0_0 | | | exact Ha].
    + apply tmap_all_zero; [apply sneg_0 | eapply zero_slots_read; [| eassumption]; assumption].
    + apply tmap_all_zero; [apply smul_0_r |].
      apply tmap_all_zero; [apply ssign_0 | eapply zero_slots_read; [| eassumption]; assumption].
  - eapply tmul_all_zero_r; [| exact Hb].
    eapply matmul_all_zero_l; [| exact Hm]. eapply zero_slots_read; [| eassumption]; assumption.
Qed.

Lemma update_val_body_zero self st st' (l : nat) :
  zero_buffers st → update_val_body self st l = Ok st' → zero_buffers st'.
Proof.
  intros Hst. pose proof Hst as [Hv He]. unfold update_val_body. intros Hb.
  inv_bind Hb. rename x into d, Hx into Hd.
  inv_bind Hb. rename x into v, Hx into Hrv.
  inv_bind Hb. rename x into v', Hx into Hv'.
  inv_bind Hb. rename x into vs, Hx into Hvs.
  injection Hb as <-. split; simpl; [| done].
  apply setitem_Ok in Hvs as [_ ->]. apply zero_slots_insert; [done |].
  eapply (bop_all_zero sadd); [apply sadd_0_r | | | exact Hv'].
  - eapply zero_slots_read; [| eassumption]; assumption.
  - apply tmap_all_zero; [apply smul_0_r | by eapply layer_delta_zero].
Qed.

Lemma relax_sensory_zero self st st' (update_mask : tensor R) :
  zero_buffers st → relax_sensory self st update_mask = Ok st' → zero_buffers st'.
Proof.
  intros [Hv He]. unfold relax_sensory. intros Hb.
  inv_bind Hb. rename x into i, Hx into Hi.
  inv_bind Hb. rename x into v, Hx into Hrv.
  inv_bind Hb. rename x into j, Hx into Hj.
  inv_bind Hb. rename x into e, Hx into Hre.
  inv_bind Hb. rename x into m, Hx into Hm.
  inv_bind Hb. rename x into v', Hx into Hv'.
  inv_bind Hb. rename x into vs, Hx into Hvs.
  injection Hb as <-. split; simpl; [| done].
  apply setitem_Ok in Hvs as [_ ->]. apply zero_slots_insert; [done |].
  eapply (bop_all_zero sadd); [apply sadd_0_r | | | exact Hv'].
  - eapply zero_slots_read; [| eassumption]; assumption.
  - apply tmap_all_zero; [apply smul_0_r |].
    eapply tmul_all_zero_l; [| exact Hm].
    apply tmap_all_zero; [apply sneg_0 | eapply zero_slots_read; [| eassumption]; assumption].
Qed.

Lemma update_val_nodes_zero self st st' (update_mask : tensor R) (recon : bool) :
  zero_model self → zero_buffers st →
  update_val_nodes self st update_mask recon = Ok st' → zero_buffers st'.
Proof.
  intros Hz Hst. unfold update_val_nodes. intros Hu.
  inv_bind Hu. rename x into s1, Hx into Hloop.
  inv_bind Hu. rename x into s2, Hx into Hrelax.
  eapply update_err_nodes_zero; [done | | exact Hu].
  assert (zero_buffers s1) as Hs1.
  { eapply (for_range_preserves zero_buffers); [| exact Hst | exact Hloop].
    intros s l s'. by apply update_val_body_zero. }
  destruct recon; [by eapply relax_sensory_zero | by injection Hrelax as <-].
Qed.

Lemma zero_slots_replicate (n : nat) : zero_slots (replicate n None).
Proof. intros l t Hl. apply lookup_replicate in Hl as [? _]. done. Qed.

Lemma set_nodes_zero self st' (inp : tensor R) :
  zero_model self → all_zero inp →
  set_nodes self (initialize self) inp = Ok st' → zero_buffers st'.
Proof.
  intros Hz Hinp. unfold set_nodes, initialize. simpl. intros Hs.
  inv_bind Hs. rename x into vs, Hx into Hvs.
  inv_bind Hs. rename x into s1, Hx into Hloop.
  inv_bind Hs. rename x into i, Hx into Hi.
  inv_bind Hs. rename x into vs', Hx into Hvs'.
  apply setitem_Ok in Hvs as [_ ->]. apply setitem_Ok in Hvs' as [_ ->].
  eapply update_err_nodes_zero; [done | | exact Hs].
  assert (zero_buffers s1) as [Hv1 He1].
  { eapply (for_range_preserves zero_buffers); [| | exact Hloop].
    - intros s l s' [Hv He]. unfold set_nodes_body. intros Hb.
      inv_bind Hb. rename x into y, Hx into Hy.
      inv_bind Hb. rename x into ws, Hx into Hws.
      injection Hb as <-. split; simpl; [| done].
      apply setitem_Ok in Hws as [_ ->]. apply zero_slots_insert; [done |].
      by eapply pred_from_above_zero.
    - split; simpl; [| apply zero_slots_replicate].
      apply zero_slots_insert; [apply zero_slots_replicate | by destruct Hz]. }
  split; simpl; [| done]. by apply zero_slots_insert.
Qed.

Lemma episode_zero self st (inp update_mask : tensor R) (recon : bool)
    (n_iters : nat) :
  zero_model self → all_zero inp →
  episode self inp n_iters update_mask recon = Ok st → zero_buffers st.
Proof.
  intros Hz Hinp. unfold episode, relax. intros He.
  inv_bind He. rename x into st0, Hx into Hst0.
  eapply (for_range_preserves zero_buffers); [| | exact He].
  - intros s l s' Hs Hs'. simpl in Hs'. by eapply update_val_nodes_zero.
  - by eapply set_nodes_zero.
Qed.

End WithLaws.

End Zero.

Lemma zeros2_all_zero {R : Type} `{Scalar R} (B n : nat) :
  all_zero (zeros2 B n : tensor R).
Proof. simpl. apply Forall_replicate. by apply Forall_replicate. Qed.

Lemma zeros2_has_shape {R : Type} `{Scalar R} (B n : nat) :
  has_shape (zeros2 B n : tensor R) [B; n].
Proof.
  split; simpl; [| by rewrite length_replicate].
  apply Forall_replicate. by rewrite length_replicate.
Qed.

(** C9: for a model with zero memory, zero layer weights and no bias,
    [set_nodes] on an all-zero batch followed by any number of
    relaxation steps (in either mode) returns, and every [errs[l]] is
    an all-zero tensor (over scalars with the laws of [ScalarLaws]). *)
Theorem zero_model_zero_errors {R : Type} `{ScalarLaws R} (nodes : list nat)
    (self : MultilayerPCN R) (B n_last : nat) (update_mask : tensor R)
    (recon : bool) (n_iters : nat) :
  wf_model nodes self → zero_model self →
  nodes !! (length nodes - 1) = Some n_last →
  (recon = true → has_shape update_mask [B; n_last]) →
  ∃ st, episode self (zeros2 B n_last) n_iters update_mask recon = Ok st ∧
        ∀ l, l < length nodes →
          ∃ e, errs st !! l = Some (Some e) ∧ all_zero e.
Proof.
  intros Hwf Hz Hlast Hmask.
  destruct (episode_Inv nodes self B n_last (zeros2 B n_last) update_mask recon
              n_iters) as (st & Hst & HInv); try done.
  { apply zeros2_has_shape. }
  exists st. split; [done |]. intros l Hl.
  destruct (lookup_lt_is_Some_2 nodes l Hl) as (n & Hn).
  destruct (inv_errs _ _ _ _ HInv l n Hn) as (e & He & _).
  exists e. split; [done |].
  destruct (episode_zero self st _ _ _ _ Hz (zeros2_all_zero B n_last) Hst)
    as [_ Herrs].
  by eapply Herrs.
Qed.

Lemma zero_model_zero_errors_witness :
  ∃ st, episode Examples.zero_hybrid2 (zeros2 2 3) 4 Examples.ones2 true = Ok st ∧
        ∀ l, l < 2 → ∃ e, errs st !! l = Some (Some e) ∧ all_zero e.
Proof.
  apply (zero_model_zero_errors [2; 3] Examples.zero_hybrid2 2 3
           Examples.ones2 true 4).
  - exact ExamplesFacts.zero_hybrid2_wf.
  - split; simpl; repeat constructor.
  - reflexivity.
  - intros _. split; [simpl; repeat constructor | reflexivity].
Defined.

(** * Further properties of the episode *)

Lemma update_err_nodes_consistent {R : Type} `{Scalar R} (self : MultilayerPCN R)
    (st st' : buffers R) :
  update_err_nodes self st = Ok st' → consistent self st'.
Proof.
  intros (Hv & _ & _ & Hspec)%update_err_nodes_spec l Hl.
  destruct (Hspec l Hl) as (p & v & e & Hp & Hrv & He & Hlp & Hle).
  exists p, v, e. rewrite Hv. apply read_Ok in Hrv. done.
Qed.

Lemma episode_consistent_partial {R : Type} `{Scalar R} (self : MultilayerPCN R)
    (inp update_mask : tensor R) (recon : bool) (n_iters : nat) (st : buffers R) :
  episode self inp n_iters update_mask recon = Ok st → consistent self st.
Proof.
  unfold episode, relax. intros He. inv_bind He.
  eapply (for_range_preserves (consistent self)); [| | exact He].
  - intros s l s1 _ Hs. simpl in Hs. unfold update_val_nodes in Hs.
    do 2 inv_bind Hs. by eapply update_err_nodes_consistent.
  - unfold set_nodes in Hx. do 4 inv_bind Hx.
    by eapply update_err_nodes_consistent.
Qed.

(** X1: [set_nodes] followed by any number of relaxation steps, in either
    mode, returns buffers that agree with each other: for every layer,
    [preds[l]] is the prediction computed from the value nodes in the
    buffers and [errs[l] = val_nodes[l] - preds[l]]. *)
Theorem episode_buffers_consistent {R : Type} `{Scalar R} (nodes : list nat)
    (self : MultilayerPCN R) (B n_last : nat) (inp update_mask : tensor R)
    (recon : bool) (n_iters : nat) :
  wf_model nodes self →
  nodes !! (length nodes - 1) = Some n_last →
  has_shape inp [B; n_last] →
  (recon = true → has_shape update_mask [B; n_last]) →
  ∃ st, episode self inp n_iters update_mask recon = Ok st ∧
        ∀ l, l < length nodes →
          ∃ p v e, prediction self (val_nodes st) l = Ok p ∧
                   val_nodes st !! l = Some (Some v) ∧
                   tsub v p = Ok e ∧
                   preds st !! l = Some (Some p) ∧
                   errs st !! l = Some (Some e).
Proof.
  intros Hwf Hlast Hinp Hmask.
  destruct (episode_Inv nodes self B n_last inp update_mask recon n_iters)
    as (st & Hst & _); try done.
  exists st. split; [done |]. intros l Hl.
  apply (episode_consistent_partial self _ _ _ _ _ Hst).
  by rewrite (wf_n_layers _ _ Hwf).
Qed.

Lemma episode_buffers_consistent_witness :
  ∃ st, episode Examples.hybrid3 Examples.batch3 3 Examples.batch3 true = Ok st.
Proof.
  destruct (episode_buffers_consistent [2; 3; 1] Examples.hybrid3 4 1
              Examples.batch3 Examples.batch3 true 3) as (st & Hst & _).
  - exact ExamplesFacts.hybrid3_wf.
  - reflexivity.
  - split; [simpl; repeat constructor | reflexivity].
  - intros _. split; [simpl; repeat constructor | reflexivity].
  - exists st. exact Hst.
Defined.

(** X2: after [set_nodes] and [n_iters] relaxation steps the layers
    l >= L - 1 - n_iters hold batches, of shape (B, nodes[l]), and the
    layers above them still hold single vectors, of shape (nodes[l],):
    each step moves the batch dimension up by one layer; [errs[l]] has
    the shape of [val_nodes[l]] throughout. *)
Theorem episode_shapes {R : Type} `{Scalar R} (nodes : list nat)
    (self : MultilayerPCN R) (B n_last : nat) (inp update_mask : tensor R)
    (recon : bool) (n_iters : nat) :
  wf_model nodes self →
  nodes !! (length nodes - 1) = Some n_last →
  has_shape inp [B; n_last] →
  (recon = true → has_shape update_mask [B; n_last]) →
  ∃ st, episode self inp n_iters update_mask recon = Ok st ∧
        ∀ l n, nodes !! l = Some n →
          ∃ v e, val_nodes st !! l = Some (Some v) ∧
                 errs st !! l = Some (Some e) ∧
                 has_shape v (if decide (length nodes - 1 - n_iters ≤ l)
                              then [B; n] else [n]) ∧
                 shape e = shape v.
Proof.
  intros Hwf Hlast Hinp Hmask.
  destruct (episode_Inv nodes self B n_last inp update_mask recon n_iters)
    as (st & Hst & HInv); try done.
  exists st. split; [done |]. intros l n Hn.
  destruct (inv_val _ _ _ _ HInv l n Hn) as (v & Hv & Hsv).
  destruct (inv_errs _ _ _ _ HInv l n Hn) as (e & He & Hse).
  exists v, e. split; [done |]. split; [done |].
  destruct Hsv as [Hwv Hsv], Hse as [_ Hse]. split; [| congruence].
  split; [done |]. rewrite Hsv. by case_bool_decide; case_decide.
Qed.

Lemma episode_shapes_witness :
  ∃ st, episode Examples.hybrid3 Examples.batch3 1 Examples.batch3 false = Ok st ∧
        ∃ v0 v1, val_nodes st !! 0%nat = Some (Some v0) ∧ shape v0 = [2] ∧
                 val_nodes st !! 1%nat = Some (Some v1) ∧ shape v1 = [4; 3].
Proof.
  destruct (episode_shapes [2; 3; 1] Examples.hybrid3 4 1
              Examples.batch3 Examples.batch3 false 1) as (st & Hst & Hsh).
  - exact ExamplesFacts.hybrid3_wf.
  - reflexivity.
  - split; [simpl; repeat constructor | reflexivity].
  - discriminate.
  - exists st. split; [exact Hst |].
    destruct (Hsh 0 2 eq_refl) as (v0 & _ & Hv0 & _ & [_ Hs0] & _).
    destruct (Hsh 1 3 eq_refl) as (v1 & _ & Hv1 & _ & [_ Hs1] & _).
    exists v0, v1. split; [exact Hv0 |]. split; [exact Hs0 |].
    split; [exact Hv1 | exact Hs1].
Defined.

(** X3: during training (recon = False) the sensory layer is clamped:
    after [set_nodes] and any number of relaxation steps
    [val_nodes[L-1]] is still the input batch, whatever the mask. *)
Theorem training_clamps_sensory_layer {R : Type} `{Scalar R} (nodes : list nat)
    (self : MultilayerPCN R) (B n_last : nat) (batch_inp update_mask : tensor R)
    (n_iters : nat) :
  wf_model nodes self →
  nodes !! (length nodes - 1) = Some n_last →
  has_shape batch_inp [B; n_last] →
  ∃ st, episode self batch_inp n_iters update_mask false = Ok st ∧
        val_nodes st !! (length nodes - 1) = Some (Some batch_inp).
Proof.
  intros Hwf Hlast Hinp. unfold episode.
  destruct (set_nodes_Inv nodes self B n_last batch_inp Hwf Hlast Hinp)
    as (st0 & -> & HInv0 & _ & Hsens0).
  simpl. unfold relax.
  destruct (for_range_total (λ i s,
      Inv nodes B (length nodes - 1 - i) s ∧
      val_nodes s !! (length nodes - 1) = Some (Some batch_inp))
    (λ st _, update_val_nodes self st update_mask false) 0 n_iters st0)
    as (st & Hst & _ & Hsens).
  - by rewrite Nat.sub_0_r.
  - intros i s _ [HInv Hsens]. simpl.
    destruct (update_val_nodes_Inv nodes self B _ n_last s update_mask false
                Hwf HInv Hlast) as (s' & Hs' & HInv'); [done |].
    exists s'. split; [done |].
    split; [by replace (length nodes - 1 - S i) with (length nodes - 1 - i - 1) by lia |].
    apply update_val_nodes_spec in Hs' as (_ & _ & _ & Hkeep).
    rewrite Hkeep; [done |]. rewrite (wf_n_layers _ _ Hwf). lia.
  - exists st. done.
Qed.

Lemma training_clamps_sensory_layer_witness :
  ∃ st, episode Examples.hier2 Examples.batch2 7 Examples.ones2 false = Ok st ∧
        val_nodes st !! 1%nat = Some (Some Examples.batch2).
Proof.
  apply (training_clamps_sensory_layer [2; 3] Examples.hier2 2 3
           Examples.batch2 Examples.ones2 7).
  - exact ExamplesFacts.hier2_wf.
  - reflexivity.
  - split; [simpl; repeat constructor | reflexivity].
Defined.

(** ** forward, and an episode without relaxation *)

Lemma pred_from_above_ext {R : Type} `{Scalar R} (self : MultilayerPCN R)
    (vals vals' : list (option (tensor R))) (l : nat) :
  vals' !! (l - 1) = vals !! (l - 1) →
  pred_from_above self vals' l = pred_from_above self vals l.
Proof. intros Hl. unfold pred_from_above. by rewrite (read_ext _ _ _ Hl). Qed.

Lemma forward_body_pred {R : Type} `{Scalar R} (self : MultilayerPCN R)
    (vals : list (option (tensor R))) (val : tensor R) (l : nat) :
  vals !! l = Some (Some val) →
  forward_body self val l = pred_from_above self vals (l + 1).
Proof.
  intros Hl. unfold forward_body, pred_from_above.
  replace (l + 1 - 1) with l by lia.
  destruct (getitem (layers self) l) as [ly|]; simpl; [| done].
  destruct (getitem (nonlins self) l) as [nl|]; simpl; [| done].
  apply read_Ok in Hl. by rewrite Hl.
Qed.

(** The value nodes [set_nodes] leaves above the sensory layer are the
    forward chain from the memory. *)
Lemma set_nodes_chain {R : Type} `{Scalar R} (self : MultilayerPCN R)
    (inp : tensor R) (st : buffers R) :
  2 ≤ n_layers self →
  set_nodes self (initialize self) inp = Ok st →
  val_nodes st !! 0 = Some (Some (data (memory self))) ∧
  ∀ l, 1 ≤ l ≤ n_layers self - 2 →
    ∃ y, pred_from_above self (val_nodes st) l = Ok y ∧
         val_nodes st !! l = Some (Some y).
Proof.
  intros HL. unfold set_nodes, initialize. simpl. intros Hs.
  inv_bind Hs. rename x into vs, Hx into Hvs.
  inv_bind Hs. rename x into s1, Hx into Hloop.
  inv_bind Hs. rename x into i, Hx into Hi.
  inv_bind Hs. rename x into vs', Hx into Hvs'.
  apply update_err_nodes_spec in Hs as (Hv & _). rewrite Hv. simpl. clear Hv.
  apply setitem_Ok in Hvs as [_ ->]. apply setitem_Ok in Hvs' as [_ ->].
  assert (length (val_nodes s1) = n_layers self ∧
          val_nodes s1 !! 0 = Some (Some (data (memory self))) ∧
          ∀ l, 1 ≤ l ≤ n_layers self - 2 →
            ∃ y, pred_from_above self (val_nodes s1) l = Ok y ∧
                 val_nodes s1 !! l = Some (Some y)) as (Hlen & Hmem & Hchain).
  { replace (n_layers self - 2) with (n_layers self - 1 - 1) by lia.
    revert Hloop.
    apply (for_range_partial (λ k s,
      length (val_nodes s) = n_layers self ∧
      val_nodes s !! 0 = Some (Some (data (memory self))) ∧
      ∀ l, 1 ≤ l ≤ k →
        ∃ y, pred_from_above self (val_nodes s) l = Ok y ∧
             val_nodes s !! l = Some (Some y))).
    - simpl. rewrite length_insert, length_replicate.
      split; [done |]. split.
      + rewrite list_lookup_insert_eq; [done | rewrite length_replicate; lia].
      + intros l Hl. lia.
    - intros k s s' Hk (Hlen & Hmem & Hchain) Hb. unfold set_nodes_body in Hb.
      inv_bind Hb. rename x into y, Hx into Hy.
      inv_bind Hb. rename x into ws, Hx into Hws.
      injection Hb as <-. simpl. apply setitem_Ok in Hws as [Hlt ->].
      rewrite length_insert. split; [done |]. split.
      + by rewrite list_lookup_insert_ne by lia.
      + intros l Hl. destruct (decide (l = 1 + k)) as [->|Hne].
        * exists y. rewrite list_lookup_insert_eq by done. split; [| done].
          rewrite <- Hy. apply pred_from_above_ext.
          by rewrite list_lookup_insert_ne by lia.
        * destruct (Hchain l) as (y' & Hy' & Hl'); [lia |].
          exists y'. rewrite list_lookup_insert_ne by done. split; [| done].
          rewrite <- Hy'. apply pred_from_above_ext.
          by rewrite list_lookup_insert_ne by lia. }
  apply last_index_Ok in Hi.
  assert (i = n_layers self - 1) as -> by lia.
  split; [by rewrite list_lookup_insert_ne by lia |].
  intros l Hl. destruct (Hchain l Hl) as (y & Hy & Hly).
  exists y. rewrite list_lookup_insert_ne by lia. split; [| done].
  rewrite <- Hy. apply pred_from_above_ext.
  by rewrite list_lookup_insert_ne by lia.
Qed.

(** X4: [forward()] returns a single vector of the sensory width, and it
    is the sensory-layer prediction [preds[L-1]] that [set_nodes] leaves,
    whatever the input batch: without relaxation (n_iters = 0)
    [test_pc_generative] returns [forward()] when [sensory] is false and
    the input itself when [sensory] is true, for any mask. *)
Theorem forward_is_initial_prediction {R : Type} `{Scalar R} (nodes : list nat)
    (self : MultilayerPCN R) (B n_last : nat) (inp update_mask : tensor R) :
  wf_model nodes self →
  nodes !! (length nodes - 1) = Some n_last →
  has_shape inp [B; n_last] →
  ∃ y, forward self = Ok y ∧ has_shape y [n_last] ∧
       test_pc_generative self inp 0 update_mask false = Ok (Some y) ∧
       test_pc_generative self inp 0 update_mask true = Ok (Some inp).
Proof.
  intros Hwf Hlast Hinp.
  pose proof (wf_n_layers _ _ Hwf) as HL. pose proof (wf_two _ _ Hwf) as H2.
  destruct (set_nodes_Inv nodes self B n_last inp Hwf Hlast Hinp)
    as (st & Hst & HInv & _ & Hsens).
  destruct (set_nodes_chain self inp st) as (Hmem & Hchain); [lia | done |].
  destruct (set_nodes_coherent self _ _ _ Hst (length nodes - 1))
    as (p & Hp & Hlp); [lia |].
  unfold prediction in Hp. rewrite decide_False in Hp by lia.
  assert (has_shape p [n_last]) as Hsp.
  { destruct (lookup_lt_is_Some_2 nodes (length nodes - 1 - 1)) as (n' & Hn');
      [lia |].
    destruct (pred_from_above_shape nodes self B n_last n' false (val_nodes st)
                (length nodes - 1)) as (p' & Hp' & Hsp'); try done; [lia | |].
    - destruct (inv_val _ _ _ _ HInv _ _ Hn') as (v & Hv & Hsv).
      exists v. split; [done |].
      by rewrite bool_decide_eq_false_2 in Hsv by lia.
    - rewrite Hp in Hp'. by injection Hp' as <-. }
  exists p. split; [| split; [done |]].
  - unfold forward. rewrite HL.
    destruct (for_range_total (λ i val,
        if decide (i < length nodes - 1)
        then val_nodes st !! i = Some (Some val)
        else pred_from_above self (val_nodes st) i = Ok val)
      (forward_body self) 0 (length nodes - 1) (data (memory self)))
      as (y & Hy & HP).
    + by rewrite decide_True by lia.
    + intros i val Hi HP. rewrite decide_True in HP by done. simpl.
      rewrite (forward_body_pred self (val_nodes st)) by done.
      replace (i + 1) with (S i) by lia.
      case_decide as Hlt.
      * destruct (Hchain (S i)) as (y & Hy & Hly); [lia |]. eauto.
      * assert (S i = length nodes - 1) as -> by lia. eauto.
    + rewrite decide_False in HP by lia. rewrite Hy. congruence.
  - unfold test_pc_generative, episode, relax. rewrite Hst. simpl.
    assert (last_index (preds st) = Ok (length nodes - 1)) as ->.
    { apply last_index_Ok. rewrite (inv_len_preds _ _ _ _ HInv). lia. }
    assert (last_index (val_nodes st) = Ok (length nodes - 1)) as ->.
    { apply last_index_Ok. rewrite (inv_len_val _ _ _ _ HInv). lia. }
    simpl. split; by apply getitem_Ok.
Qed.

Lemma forward_is_initial_prediction_witness :
  forward Examples.hier2 = Ok (T1 [3; 7; 11]%Z) ∧
  test_pc_generative Examples.hier2 Examples.batch2 0 (T0 5%Z) false
    = Ok (Some (T1 [3; 7; 11]%Z)).
Proof.
  destruct (forward_is_initial_prediction [2; 3] Examples.hier2 2 3
              Examples.batch2 (T0 5%Z)) as (y & Hf & _ & Ht & _).
  - exact ExamplesFacts.hier2_wf.
  - reflexivity.
  - split; [simpl; repeat constructor | reflexivity].
  - assert (y = T1 [3; 7; 11]%Z) as <-; [| split; assumption].
    vm_compute in Hf. by injection Hf as <-.
Defined.

(** ** Reconstruction under a partial mask *)

Lemma tensor_get_tmap {R : Type} (g : R → R) (t : tensor R) (i j : nat) :
  tensor_get (tmap g t) i j = g <$> tensor_get t i j.
Proof.
  destruct t as [x|v|n rows]; simpl; try done.
  rewrite list_lookup_fmap. destruct (rows !! i) as [r|]; simpl; [| done].
  by rewrite list_lookup_fmap.
Qed.

Lemma tensor_get_bounds {R : Type} (t : tensor R) (B n i j : nat) (x : R) :
  has_shape t [B; n] → tensor_get t i j = Some x → i < B ∧ j < n.
Proof.
  intros (rows & -> & Hl & Hw)%has_shape_T2. simpl.
  destruct (rows !! i) as [r|] eqn:Hr; [| discriminate]. intros Hj.
  apply lookup_lt_Some in Hj. rewrite (Forall_lookup_1 _ _ _ _ Hw Hr) in Hj.
  apply lookup_lt_Some in Hr. lia.
Qed.

Lemma tensor_get_bop {R : Type} `{Scalar R} (f : R → R → R) (a b c : tensor R)
    (B n i j : nat) (x y : R) :
  has_shape a [B; n] → has_shape b [B; n] → bop f a b = Ok c →
  tensor_get a i j = Some x → tensor_get b i j = Some y →
  tensor_get c i j = Some (f x y).
Proof.
  intros (ra & -> & Hla & Hwa)%has_shape_T2 (rb & -> & Hlb & Hwb)%has_shape_T2.
  rewrite bop_T2_T2 by (try done; congruence). intros [= <-]. simpl.
  rewrite lookup_zip_with.
  destruct (ra !! i) as [r1|]; simpl; [| discriminate].
  destruct (rb !! i) as [r2|]; simpl; [| discriminate].
  rewrite lookup_zip_with. by intros -> ->.
Qed.

(** X5: reconstruction never moves an entry the mask freezes: with a
    mask of the sensory shape, after [set_nodes] and any number of
    relaxation steps with [recon = True] every entry of the returned
    sensory layer at which the mask is 0 still holds the value of the
    corrupted input (over scalars with x * 0 = 0 and x + 0 = x). *)
Theorem reconstruction_keeps_frozen_entries {R : Type} `{Scalar R}
    (nodes : list nat) (self : MultilayerPCN R) (B n_last : nat)
    (corrupt_inp update_mask : tensor R) (n_iters : nat) :
  (∀ x, smul x szero = szero) → (∀ x, sadd x szero = x) →
  wf_model nodes self →
  nodes !! (length nodes - 1) = Some n_last →
  has_shape corrupt_inp [B; n_last] →
  has_shape update_mask [B; n_last] →
  ∃ v, test_pc_generative self corrupt_inp n_iters update_mask true = Ok (Some v) ∧
       has_shape v [B; n_last] ∧
       agree_where_zero update_mask v corrupt_inp.
Proof.
  intros Hmul Hadd Hwf Hlast Hinp Hmask.
  pose proof (wf_two _ _ Hwf) as H2.
  destruct (set_nodes_Inv nodes self B n_last corrupt_inp Hwf Hlast Hinp)
    as (st0 & Hst0 & HInv0 & _ & Hsens0).
  destruct (for_range_total (λ i s,
      Inv nodes B (length nodes - 1 - i) s ∧
      ∃ v, val_nodes s !! (length nodes - 1) = Some (Some v) ∧
           agree_where_zero update_mask v corrupt_inp)
    (λ st _, update_val_nodes self st update_mask true) 0 n_iters st0)
    as (st & Hst & HInv & v & Hv & Hagree).
  - rewrite Nat.sub_0_r. split; [done |]. by exists corrupt_inp.
  - intros i s _ (HInv & v & Hv & Hagree). simpl.
    destruct (update_val_nodes_Inv nodes self B _ n_last s update_mask true
                Hwf HInv Hlast) as (s' & Hs' & HInv'); [done |].
    exists s'. split; [done |].
    split; [by replace (length nodes - 1 - S i) with (length nodes - 1 - i - 1) by lia |].
    apply update_val_nodes_spec in Hs' as (_ & _ & _ & Hrec).
    destruct Hrec as (a & b & v0 & e & m & v' & Ha & Hb & Hv0 & He & Hm & Hv' & Hlook).
    apply last_index_Ok in Ha, Hb.
    rewrite (inv_len_val _ _ _ _ HInv) in Ha.
    rewrite (inv_len_errs _ _ _ _ HInv) in Hb.
    assert (a = length nodes - 1) as -> by lia.
    assert (b = length nodes - 1) as -> by lia.
    apply read_Ok in Hv0, He. rewrite Hv in Hv0. injection Hv0 as <-.
    destruct (profile_last nodes B _ n_last (errs s) (inv_k _ _ _ _ HInv) Hlast
                (inv_errs _ _ _ _ HInv)) as (e' & He' & Hse).
    rewrite He in He'. injection He' as <-.
    destruct (profile_last nodes B _ n_last (val_nodes s) (inv_k _ _ _ _ HInv)
                Hlast (inv_val _ _ _ _ HInv)) as (v1 & Hv1 & Hsv).
    rewrite Hv in Hv1. injection Hv1 as <-.
    assert (has_shape m [B; n_last]) as Hsm.
    { destruct (bop_same_shape smul (tneg e) update_mask [B; n_last])
        as (m' & Hm' & Hsm'); [by apply tmap_has_shape | done |].
      unfold tmul in Hm. rewrite Hm in Hm'. by injection Hm' as <-. }
    exists v'. split; [done |]. intros r c Hz.
    rewrite <- (Hagree r c Hz).
    destruct (tensor_get_bounds _ _ _ _ _ _ Hmask Hz) as [Hr Hc].
    destruct (tensor_get_is_Some v B n_last r c Hsv Hr Hc) as (x & Hx).
    destruct (tensor_get_is_Some e B n_last r c Hse Hr Hc) as (y & Hy).
    rewrite Hx.
    rewrite (tensor_get_bop sadd v (scale (Dt self) m) v' B n_last r c x
               (smul (Dt self) (smul (sneg y) szero))); try done.
    + by rewrite !Hmul, Hadd.
    + by apply tmap_has_shape.
    + unfold scale. rewrite tensor_get_tmap.
      rewrite (tensor_get_bop smul (tneg e) update_mask m B n_last r c (sneg y) szero);
        try done; [by apply tmap_has_shape |].
      unfold tneg. rewrite tensor_get_tmap. by rewrite Hy.
  - exists v. split; [| split; [| done]].
    + unfold test_pc_generative, episode, relax. rewrite Hst0. simpl.
      rewrite Hst. simpl.
      assert (last_index (val_nodes st) = Ok (length nodes - 1)) as ->.
      { apply last_index_Ok. rewrite (inv_len_val _ _ _ _ HInv). lia. }
      simpl. by apply getitem_Ok.
    + destruct (profile_last nodes B _ n_last (val_nodes st) (inv_k _ _ _ _ HInv)
                  Hlast (inv_val _ _ _ _ HInv)) as (v1 & Hv1 & Hsv).
      rewrite Hv in Hv1. by injection Hv1 as <-.
Qed.

Lemma reconstruction_keeps_frozen_entries_witness :
  ∃ v, test_pc_generative Examples.hier2 Examples.batch2 3
         MoreExamples.partial_mask2 true = Ok (Some v) ∧
       tensor_get v 0 0 = Some 1%Z ∧ tensor_get v 1 2 = Some 0%Z.
Proof.
  destruct (reconstruction_keeps_frozen_entries [2; 3] Examples.hier2 2 3
              Examples.batch2 MoreExamples.partial_mask2 3)
    as (v & Hv & _ & Hagree).
  - intros x. simpl. lia.
  - intros x. simpl. lia.
  - exact ExamplesFacts.hier2_wf.
  - reflexivity.
  - split; [simpl; repeat constructor | reflexivity].
  - split; [simpl; repeat constructor | reflexivity].
  - exists v. split; [exact Hv |].
    split; [apply (Hagree 0 0 eq_refl) | apply (Hagree 1 2 eq_refl)].
Defined.

(** ** Zero error is a fixed point *)

Lemma all_zero_zeros2 {R : Type} `{Scalar R} (B n : nat) (t : tensor R) :
  has_shape t [B; n] → all_zero t → t = zeros2 B n.
Proof.
  intros (rows & -> & Hl & Hw)%has_shape_T2 Hz. unfold zeros2. f_equal.
  subst B. simpl in Hz. clear -Hw Hz.
  induction rows as [|r rows IH]; simpl; [done |].
  inversion Hw as [|? ? Hr Hw']; subst. inversion Hz as [|? ? Hzr Hz']; subst.
  rewrite <- IH by done. f_equal. clear -Hzr.
  induction Hzr as [|x r -> _ IH]; simpl; [done | by rewrite <- IH].
Qed.

Lemma layer_delta_zero_errs {R : Type} `{ScalarLaws R} (self : MultilayerPCN R)
    (st : buffers R) (l : nat) (d : tensor R) :
  lamb self = szero → zero_slots (errs st) →
  layer_delta self st l = Ok d → all_zero d.
Proof.
  intros Hlamb He. unfold layer_delta. intros Hd.
  inv_bind Hd. rename x into nl, Hx into Hnl.
  inv_bind Hd. rename x into v, Hx into Hrv.
  inv_bind Hd. rename x into derivative, Hx into Hder.
  inv_bind Hd. rename x into e, Hx into Hre.
  inv_bind Hd. rename x into a, Hx into Ha.
  inv_bind Hd. rename x into e1, Hx into Hre1.
  inv_bind Hd. rename x into ly, Hx into Hly.
  inv_bind Hd. rename x into m, Hx into Hm.
  inv_bind Hd. rename x into b, Hx into Hb.
  eapply (bop_all_zero sadd); [apply sadd_0_r | | | exact Hd].
  - eapply (bop_all_zero ssub); [apply ssub_0_0 | | | exact Ha].
    + apply tmap_all_zero; [apply sneg_0 |].
      eapply zero_slots_read; [exact He | exact Hre].
    + assert ((if decide (l = 0) then lamb self else szero) = szero) as ->
        by (by case_decide).
      apply (tmap_tForall (λ _, True)); [intros x _; apply smul_0_l |].
      destruct (tsign v) as [x|w|n rows]; simpl; [done | by apply Forall_true |].
      apply Forall_true. intros r. by apply Forall_true.
  - eapply tmul_all_zero_r; [| exact Hb].
    eapply matmul_all_zero_l; [| exact Hm].
    eapply zero_slots_read; [exact He | exact Hre1].
Qed.

(** X6: a state without error is a fixed point of relaxation when
    [lamb = 0]: on buffers in which every layer holds a batch, which
    agree with each other and whose errors are all zero,
    [update_val_nodes] returns the very same buffers, in either mode
    (over scalars with the laws of [ScalarLaws]). *)
Theorem zero_error_fixed_point {R : Type} `{ScalarLaws R} (nodes : list nat)
    (self : MultilayerPCN R) (B n_last : nat) (st : buffers R)
    (update_mask : tensor R) (recon : bool) :
  wf_model nodes self → lamb self = szero →
  Inv nodes B 0 st → consistent self st → zero_slots (errs st) →
  nodes !! (length nodes - 1) = Some n_last →
  (recon = true → has_shape update_mask [B; n_last]) →
  update_val_nodes self st update_mask recon = Ok st.
Proof.
  intros Hwf Hlamb HInv Hcons Hzero Hlast Hmask.
  pose proof (wf_n_layers _ _ Hwf) as HL. pose proof (wf_two _ _ Hwf) as H2.
  destruct (update_val_nodes_Inv nodes self B 0 n_last st update_mask recon)
    as (st' & Hst' & HInv'); try done.
  rewrite Hst'. f_equal.
  assert (consistent self st') as Hcons'.
  { unfold update_val_nodes in Hst'. do 2 inv_bind Hst'.
    by eapply update_err_nodes_consistent. }
  pose proof (update_val_nodes_spec self st update_mask recon st' Hst')
    as (Hlen & _ & Hdone & Hsens).
  assert (val_nodes st' = val_nodes st) as Hval.
  { apply list_eq. intros l.
    destruct (decide (l < length nodes)) as [Hl|Hl].
    2:{ rewrite !lookup_ge_None_2; [done | |].
        - rewrite (inv_len_val _ _ _ _ HInv). lia.
        - rewrite (inv_len_val _ _ _ _ HInv'). lia. }
    destruct (lookup_lt_is_Some_2 nodes l Hl) as (n & Hn).
    destruct (inv_val _ _ _ _ HInv l n Hn) as (v & Hv & Hsv).
    rewrite bool_decide_eq_true_2 in Hsv by lia. simpl in Hsv.
    destruct (decide (l < length nodes - 1)) as [Hlt|Hge].
    - destruct (Hdone l) as (d & v0 & v' & Hd & Hv0 & Hv' & Hlook); [lia |].
      apply read_Ok in Hv0. rewrite Hv in Hv0. injection Hv0 as <-.
      destruct (layer_delta_shape nodes self B 0 n st l Hwf
                  (inv_val _ _ _ _ HInv) (inv_errs _ _ _ _ HInv) Hlt Hn)
        as (d' & Hd' & Hsd).
      rewrite Hd in Hd'. injection Hd' as <-.
      rewrite bool_decide_eq_true_2 in Hsd by lia. simpl in Hsd.
      rewrite (all_zero_zeros2 B n d Hsd) in Hv'
        by (by eapply layer_delta_zero_errs).
      rewrite scale_zeros2, tadd_zeros2 in Hv'
        by (try done; apply smul_0_r || apply sadd_0_r).
      injection Hv' as <-. by rewrite Hlook, Hv.
    - assert (l = length nodes - 1) as -> by lia.
      destruct recon; [| apply Hsens; lia].
      destruct Hsens as (a & b & v0 & e & m & v' & Ha & Hb & Hv0 & He & Hm & Hv' & Hlook).
      apply last_index_Ok in Ha, Hb.
      rewrite (inv_len_val _ _ _ _ HInv) in Ha.
      rewrite (inv_len_errs _ _ _ _ HInv) in Hb.
      assert (a = length nodes - 1) as -> by lia.
      assert (b = length nodes - 1) as -> by lia.
      apply read_Ok in Hv0. rewrite Hv in Hv0. injection Hv0 as <-.
      rewrite Hn in Hlast. injection Hlast as ->.
      destruct (inv_errs _ _ _ _ HInv _ _ Hn) as (e' & He' & Hse).
      rewrite bool_decide_eq_true_2 in Hse by lia. simpl in Hse.
      pose proof He as He2. apply read_Ok in He2.
      rewrite He' in He2. injection He2 as ->.
      assert (m = zeros2 B n_last) as ->.
      { apply all_zero_zeros2.
        - destruct (bop_same_shape smul (tneg e) update_mask [B; n_last])
            as (m' & Hm' & Hsm'); [by apply tmap_has_shape | by apply Hmask |].
          unfold tmul in Hm. rewrite Hm in Hm'. by injection Hm' as <-.
        - eapply tmul_all_zero_l; [| exact Hm].
          apply tmap_all_zero; [apply sneg_0 |].
          eapply zero_slots_read; [exact Hzero | exact He]. }
      rewrite scale_zeros2, tadd_zeros2 in Hv'
        by (try done; apply smul_0_r || apply sadd_0_r).
      injection Hv' as <-. by rewrite Hlook, Hv. }
  assert (∀ l, l < length nodes →
            preds st' !! l = preds st !! l ∧ errs st' !! l = errs st !! l) as Hpe.
  { intros l Hl.
    destruct (Hcons l) as (p & v & e & Hp & Hv & He & Hlp & Hle); [lia |].
    destruct (Hcons' l) as (p' & v' & e' & Hp' & Hv' & He' & Hlp' & Hle'); [lia |].
    rewrite Hval in Hp', Hv'. rewrite Hp in Hp'. injection Hp' as <-.
    rewrite Hv in Hv'. injection Hv' as <-.
    rewrite He in He'. injection He' as <-.
    by rewrite Hlp, Hlp', Hle, Hle'. }
  pose proof (inv_len_preds _ _ _ _ HInv) as Hp1.
  pose proof (inv_len_preds _ _ _ _ HInv') as Hp2.
  pose proof (inv_len_errs _ _ _ _ HInv) as He1.
  pose proof (inv_len_errs _ _ _ _ HInv') as He2.
  destruct st as [vs ps es], st' as [vs' ps' es']. simpl in *.
  f_equal; [done | |]; apply list_eq; intros l;
    (destruct (decide (l < length nodes)) as [Hl|Hl];
     [by apply Hpe | rewrite !lookup_ge_None_2; [done | lia | lia]]).
Qed.

Lemma zero_error_fixed_point_witness :
  update_val_nodes Examples.hier2 MoreExamples.hier2_settled Examples.ones2 true
  = Ok MoreExamples.hier2_settled.
Proof.
  apply (zero_error_fixed_point [2; 3] Examples.hier2 2 3).
  - exact ExamplesFacts.hier2_wf.
  - reflexivity.
  - constructor; simpl; try reflexivity; try lia;
      intros [|[|l]] n Hn; simpl in *; simplify_eq;
      (eexists; split; [reflexivity |];
       split; [simpl; repeat constructor | reflexivity]).
  - intros [|[|l]] Hl; [| | simpl in Hl; lia];
      do 3 eexists; repeat split; reflexivity.
  - intros [|[|l]] t Hl; simpl in Hl; simplify_eq; simpl; repeat constructor.
  - reflexivity.
  - intros _. split; [simpl; repeat constructor | reflexivity].
Defined.

(** ** Gradients are assigned, not accumulated *)

Lemma update_grads_frame {R : Type} `{Scalar R} (self self' : MultilayerPCN R)
    (st : buffers R) :
  update_grads self st = Ok self' →
  n_layers self' = n_layers self ∧ mem_dim self' = mem_dim self ∧
  Dt self' = Dt self ∧ nonlins self' = nonlins self ∧
  use_bias self' = use_bias self ∧ lamb self' = lamb self.
Proof.
  set (P := λ s : MultilayerPCN R,
    n_layers s = n_layers self ∧ mem_dim s = mem_dim self ∧
    Dt s = Dt self ∧ nonlins s = nonlins self ∧
    use_bias s = use_bias self ∧ lamb s = lamb self).
  assert (∀ s l s1, P s → update_grads_body st s l = Ok s1 → P s1) as Hstep.
  { intros s l s1 Hs Hb. unfold update_grads_body in Hb. inv_bind Hb.
    injection Hb as <-. exact Hs. }
  unfold update_grads. intros Hu.
  destruct (cls self) as [| |Wr]; [discriminate | |].
  - do 2 inv_bind Hu.
    by apply (for_range_preserves P _ _ _ _ Hstep) in Hu.
  - do 7 inv_bind Hu.
    by apply (for_range_preserves P _ _ _ _ Hstep) in Hu.
Qed.

Lemma clear_grads_wf {R : Type} `{Scalar R} (nodes : list nat)
    (self : MultilayerPCN R) :
  wf_model nodes self → wf_model nodes (clear_grads self).
Proof.
  intros [H1 H2 H3 H4 H5 H6 H7]. constructor; simpl; try done.
  - by rewrite length_map.
  - intros l n_in n_out Hi Ho. destruct (H5 l n_in n_out Hi Ho) as (ly & Hly & Hw & Hb).
    exists (clear_layer ly). rewrite list_lookup_fmap, Hly. split; [done |].
    split; [done |]. simpl. by destruct (bias ly).
  - by destruct (cls self).
Qed.

Lemma set_grad_clear_grad {R : Type} `{Scalar R} (p : Param R) (g : tensor R) :
  set_grad (clear_grad p) g = set_grad p g.
Proof. done. Qed.

Lemma graded_layer_clear_grads {R : Type} `{Scalar R} (self : MultilayerPCN R)
    (st : buffers R) (l : nat) (ly : Linear R) :
  layers self !! l = Some ly →
  (use_bias self = false → bias ly = None) →
  graded_layer st (clear_grads self) l = graded_layer st self l.
Proof.
  intros Hly Hb. unfold graded_layer, getitem. simpl.
  rewrite list_lookup_fmap, Hly. simpl.
  destruct (read (errs st) (l + 1)) as [e1|]; [simpl | done].
  destruct (nonlins self !! l) as [nl|]; [simpl | done].
  destruct (read (val_nodes st) l) as [v|]; [simpl | done].
  destruct (call nl v) as [a|]; [simpl | done].
  destruct (matmul (transpose e1) a) as [g|]; [simpl | done].
  rewrite set_grad_clear_grad.
  destruct (set_grad (weight ly) (tneg g)) as [w|]; [simpl | done].
  destruct (use_bias self).
  - by destruct (bias ly).
  - by rewrite Hb.
Qed.

(** X7: [update_grads] assigns the [.grad] fields, it does not add to
    them: on buffers in which every layer holds a batch, the model it
    returns is the same whether the parameters held gradients from an
    earlier step or none at all. *)
Theorem update_grads_overwrites {R : Type} `{Scalar R} (nodes : list nat)
    (self : MultilayerPCN R) (B : nat) (st : buffers R) :
  wf_model nodes self → Inv nodes B 0 st →
  ∃ self', update_grads self st = Ok self' ∧
           update_grads (clear_grads self) st = Ok self'.
Proof.
  intros Hwf HInv.
  destruct (update_grads_total nodes self B st Hwf HInv) as (s1 & Hs1).
  destruct (update_grads_total nodes (clear_grads self) B st) as (s2 & Hs2);
    [by apply clear_grads_wf | done |].
  exists s1. split; [done |]. rewrite Hs2. f_equal.
  pose proof (update_grads_frame _ _ _ Hs1) as (Ha1 & Hb1 & Hc1 & Hd1 & He1 & Hf1).
  pose proof (update_grads_frame _ _ _ Hs2) as (Ha2 & Hb2 & Hc2 & Hd2 & He2 & Hf2).
  pose proof (update_grads_spec _ _ _ Hs1)
    as (e0 & He0 & Hm1 & Hlen1 & Hrest1 & Hdone1 & Hcls1).
  pose proof (update_grads_spec _ _ _ Hs2)
    as (e0' & He0' & Hm2 & Hlen2 & Hrest2 & Hdone2 & Hcls2).
  rewrite He0 in He0'. injection He0' as <-. simpl in *.
  rewrite set_grad_clear_grad, Hm1 in Hm2. injection Hm2 as Hmem.
  assert (layers s2 = layers s1) as Hlayers.
  { apply list_eq. intros l.
    destruct (decide (l < n_layers self - 1)) as [Hl|Hl].
    - destruct (Hdone1 l Hl) as (ly1 & Hg1 & ->).
      destruct (Hdone2 l Hl) as (ly2 & Hg2 & ->).
      pose proof (graded_layer_lookup _ _ _ _ Hg1) as Hlt.
      destruct (lookup_lt_is_Some_2 _ _ Hlt) as (ly & Hly).
      rewrite (graded_layer_clear_grads self st l ly Hly), Hg1 in Hg2.
      + by injection Hg2 as ->.
      + intros Hub. rewrite (wf_n_layers _ _ Hwf) in Hl.
        destruct (lookup_lt_is_Some_2 nodes l) as (n_in & Hi); [lia |].
        destruct (lookup_lt_is_Some_2 nodes (l + 1)) as (n_out & Ho); [lia |].
        destruct (wf_layers _ _ Hwf l n_in n_out Hi Ho) as (ly' & Hly' & _ & Hb).
        rewrite Hly in Hly'. injection Hly' as <-.
        destruct (bias ly); [| done]. destruct Hb as [Hb _]. congruence.
    - rewrite !lookup_ge_None_2; [done | |].
      + rewrite Hlen1, (wf_layers_len _ _ Hwf), <- (wf_n_layers _ _ Hwf). lia.
      + rewrite Hlen2, length_map, (wf_layers_len _ _ Hwf),
          <- (wf_n_layers _ _ Hwf). lia. }
  assert (cls s2 = cls s1) as Hc.
  { destruct (cls self) as [| |Wr]; [done | congruence |].
    destruct Hcls1 as (v0 & g & g' & Wr1 & Hv0 & Hg & Hg' & Hw1 & ->).
    destruct Hcls2 as (v0' & g0 & g0' & Wr2 & Hv0' & Hg0 & Hg0' & Hw2 & ->).
    rewrite Hv0 in Hv0'. injection Hv0' as <-.
    rewrite Hg in Hg0. injection Hg0 as <-.
    rewrite Hg' in Hg0'. injection Hg0' as <-.
    rewrite set_grad_clear_grad, Hw1 in Hw2. by injection Hw2 as ->. }
  destruct s1, s2. simpl in *. congruence.
Qed.

Lemma update_grads_overwrites_witness :
  ∃ self', update_grads MoreExamples.hier2_stale Examples.hier2_relaxed = Ok self' ∧
           update_grads Examples.hier2 Examples.hier2_relaxed = Ok self'.
Proof.
  apply (update_grads_overwrites [2; 3] MoreExamples.hier2_stale 2
           Examples.hier2_relaxed).
  - constructor; simpl.
    + reflexivity.
    + lia.
    + intros n0 [= <-]. split; [simpl; repeat constructor | reflexivity].
    + reflexivity.
    + intros [|[|l]] n_in n_out Hi Ho; simpl in *; simplify_eq.
      eexists. split; [reflexivity |].
      split; [split; [simpl; repeat constructor | reflexivity] | reflexivity].
    + intros [|l] Hl; [by eexists | lia].
    + exact I.
  - exact ExamplesFacts.hier2_relaxed_Inv.
Defined.

(** ** The base class is abstract *)

Lemma set_nodes_base_class {R : Type} `{Scalar R} (nodes : list nat)
    (self : MultilayerPCN R) (inp : tensor R) :
  cls self = Multilayer →
  wf_model nodes (with_cls self Hierarchical) →
  set_nodes self (initialize self) inp = Raise NotImplementedError.
Proof.
  intros Hcls Hwf. pose proof (wf_two _ _ Hwf) as H2.
  destruct (lookup_lt_is_Some_2 nodes (length nodes - 1)) as (n_last & Hlast);
    [lia |].
  destruct (set_nodes_Inv nodes (with_cls self Hierarchical) 0 n_last
              (zeros2 0 n_last) Hwf Hlast (zeros2_has_shape 0 n_last))
    as (st & Hst & _).
  unfold set_nodes, initialize in Hst |- *.
  change (set_nodes_body (with_cls self Hierarchical))
    with (set_nodes_body self) in Hst.
  simpl in Hst |- *.
  inv_bind Hst. rename x into vs, Hx into Hvs.
  inv_bind Hst. rename x into s1, Hx into Hloop.
  inv_bind Hst. rename x into i, Hx into Hi.
  inv_bind Hst. rename x into vs', Hx into Hvs'.
  apply setitem_Ok in Hvs' as [Hlt _].
  rewrite Hvs. simpl. rewrite Hloop. simpl. rewrite Hi. simpl.
  unfold setitem. rewrite decide_True by done. simpl.
  unfold update_err_nodes. by rewrite Hcls.
Qed.

(** X8: [MultilayerPCN] itself is abstract: on an object of the base
    class whose fields are those of a well-formed model, both entry
    points raise [NotImplementedError] (from [update_err_nodes], at the
    end of [set_nodes]), for every input, mask and number of
    iterations. *)
Theorem base_class_is_abstract {R : Type} `{Scalar R} (nodes : list nat)
    (self : MultilayerPCN R) (inp update_mask : tensor R) (n_iters : nat)
    (sensory : bool) :
  cls self = Multilayer →
  wf_model nodes (with_cls self Hierarchical) →
  train_pc_generative self inp n_iters update_mask = Raise NotImplementedError ∧
  test_pc_generative self inp n_iters update_mask sensory
  = Raise NotImplementedError.
Proof.
  intros Hcls Hwf.
  pose proof (set_nodes_base_class nodes self inp Hcls Hwf) as Hs.
  unfold train_pc_generative, test_pc_generative, episode.
  by rewrite Hs.
Qed.

Lemma base_class_is_abstract_witness :
  train_pc_generative MoreExamples.base2 Examples.batch2 5 Examples.ones2
  = Raise NotImplementedError ∧
  test_pc_generative MoreExamples.base2 Examples.batch2 5 Examples.ones2 true
  = Raise NotImplementedError.
Proof.
  apply (base_class_is_abstract [2; 3] MoreExamples.base2).
  - reflexivity.
  - exact ExamplesFacts.hier2_wf.
Defined.

(** ** The constructors *)

Lemma mapM_lookup {A B : Type} (g : A → result B) (l : list A) (l' : list B) :
  mapM g l = Ok l' →
  length l' = length l ∧
  ∀ i x, l !! i = Some x → ∃ y, l' !! i = Some y ∧ g x = Ok y.
Proof.
  revert l'. induction l as [|a l IH]; intros l' Hm; simpl in Hm.
  - injection Hm as <-. split; [done |]. intros i x Hx. done.
  - inv_bind Hm. rename x into y, Hx into Hy.
    inv_bind Hm. rename x into ys, Hx into Hys. injection Hm as <-.
    destruct (IH ys Hys) as [Hlen Hlook]. split; [simpl; by rewrite Hlen |].
    intros [|i] x' Hx'; simpl in *.
    + injection Hx' as <-. by exists y.
    + by apply Hlook.
Qed.

(** What the base constructor returns on a list of at least two nodes
    and a nonlinearity it knows. *)
Lemma MultilayerPCN_init_fields {R : Type} `{Scalar R}
    (nn_Linear : nat → nat → bool → Linear R) (utils_Tanh utils_ReLU : Nonlin R)
    (nodes : list nat) (nonlin : pyobj R) (Dt lamb : R) (use_bias : bool) :
  (∀ n_in n_out b, wf_layer b n_in n_out (nn_Linear n_in n_out b)) →
  2 ≤ length nodes → known_nonlin nonlin →
  ∃ self n0,
    MultilayerPCN_init nn_Linear utils_Tanh utils_ReLU nodes nonlin Dt lamb
      use_bias = Ok self ∧
    nodes !! 0 = Some n0 ∧ mem_dim self = n0 ∧
    memory self = new_parameter (zeros1 n0) ∧ cls self = Multilayer ∧
    wf_model nodes (with_cls self Hierarchical).
Proof.
  intros Hlin H2 Hnl. unfold MultilayerPCN_init.
  destruct (mapM_seq_Ok (λ l,
      do n_in <- getitem nodes l;
      do n_out <- getitem nodes (l + 1);
      Ok (nn_Linear n_in n_out use_bias)) 0 (length nodes - 1)) as (lys & Hlys).
  { intros l Hl.
    destruct (lookup_lt_is_Some_2 nodes l) as (n_in & Hin); [lia |].
    destruct (lookup_lt_is_Some_2 nodes (l + 1)) as (n_out & Hout); [lia |].
    apply getitem_Ok in Hin, Hout. rewrite Hin, Hout. simpl. eauto. }
  rewrite Hlys. simpl.
  destruct (lookup_lt_is_Some_2 nodes 0) as (n0 & Hn0); [lia |].
  pose proof Hn0 as Hg. apply getitem_Ok in Hg. rewrite Hg. simpl.
  eexists. exists n0. split; [done |]. simpl.
  split; [done |]. split; [done |]. split; [done |]. split; [done |].
  apply mapM_lookup in Hlys as [Hlen Hlook]. rewrite length_seq in Hlen.
  constructor; simpl; try done.
  - intros n0' Hn0'. rewrite Hn0 in Hn0'. injection Hn0' as <-.
    split; [done | simpl; by rewrite length_replicate].
  - intros l n_in n_out Hi Ho.
    pose proof (lookup_lt_Some _ _ _ Ho) as Hl.
    destruct (Hlook l l) as (ly & Hly & Hgl).
    { apply lookup_seq. lia. }
    apply getitem_Ok in Hi, Ho. rewrite Hi, Ho in Hgl. simpl in Hgl.
    injection Hgl as <-. exists (nn_Linear n_in n_out use_bias).
    split; [done | apply Hlin].
  - intros l Hl. rewrite lookup_replicate_2 by done.
    destruct nonlin as [f|s]; [by exists f |].
    destruct Hnl as [-> | ->].
    + rewrite decide_True by done. by eexists.
    + rewrite decide_False by done. rewrite decide_True by done. by eexists.
Qed.

(** X9: the constructors of the two concrete classes build well-formed
    models: on a list of at least two node counts and a nonlinearity
    given as an object or as one of the names "Tanh" and "ReLU", with
    library constructors that return tensors of the sizes asked for,
    [HierarchicalPCN(...)] and [HybridPCN(...)] return, and what they
    return satisfies [wf_model]. *)
Theorem constructors_build_wf_models {R : Type} `{Scalar R}
    (nn_Linear : nat → nat → bool → Linear R) (utils_Tanh utils_ReLU : Nonlin R)
    (randn1 : nat → tensor R) (randn2 : nat → nat → tensor R)
    (nodes : list nat) (nonlin : pyobj R) (Dt init_std init_std_Wr lamb : R)
    (use_bias : bool) :
  (∀ n_in n_out b, wf_layer b n_in n_out (nn_Linear n_in n_out b)) →
  (∀ n, has_shape (randn1 n) [n]) →
  (∀ n m, has_shape (randn2 n m) [n; m]) →
  2 ≤ length nodes → known_nonlin nonlin →
  (∃ self, HierarchicalPCN_init nn_Linear utils_Tanh utils_ReLU randn1 nodes
             nonlin Dt init_std lamb use_bias = Ok self ∧
           cls self = Hierarchical ∧ wf_model nodes self) ∧
  (∃ self Wr, HybridPCN_init nn_Linear utils_Tanh utils_ReLU randn1 randn2 nodes
             nonlin Dt init_std init_std_Wr lamb use_bias = Ok self ∧
           cls self = Hybrid Wr ∧ wf_model nodes self).
Proof.
  intros Hlin Hr1 Hr2 H2 Hnl.
  destruct (MultilayerPCN_init_fields nn_Linear utils_Tanh utils_ReLU nodes
              nonlin Dt lamb use_bias Hlin H2 Hnl)
    as (self & n0 & Hinit & Hn0 & Hmd & Hmem & Hcls & [W1 W2 W3 W4 W5 W6 W7]).
  simpl in *.
  unfold HierarchicalPCN_init, HybridPCN_init. rewrite Hinit. simpl.
  split.
  - eexists. split; [done |]. split; [done |].
    constructor; simpl; try done.
    intros n0' Hn0'. rewrite Hn0 in Hn0'. injection Hn0' as <-.
    rewrite Hmd. by apply tmap_has_shape.
  - eexists. eexists. split; [done |]. split; [done |].
    constructor; simpl; try done.
    + intros n0' Hn0'. rewrite Hn0 in Hn0'. injection Hn0' as <-.
      rewrite Hmd. by apply tmap_has_shape.
    + intros n0' Hn0'. rewrite Hn0 in Hn0'. injection Hn0' as <-.
      rewrite Hmd. by apply tmap_has_shape.
Qed.

Lemma constructors_build_wf_models_witness :
  (∃ self, HierarchicalPCN_init Examples.zero_Linear Examples.tanh_stub
             Examples.relu Examples.zero_randn1 [2; 3; 1] (Str "ReLU")
             1%Z 1%Z 0%Z true = Ok self ∧
           cls self = Hierarchical ∧ wf_model [2; 3; 1] self) ∧
  (∃ self Wr, HybridPCN_init Examples.zero_Linear Examples.tanh_stub
             Examples.relu Examples.zero_randn1 MoreExamples.zero_randn2
             [2; 3; 1] (Str "ReLU") 1%Z 1%Z 1%Z 0%Z true = Ok self ∧
           cls self = Hybrid Wr ∧ wf_model [2; 3; 1] self).
Proof.
  apply (constructors_build_wf_models Examples.zero_Linear Examples.tanh_stub
           Examples.relu Examples.zero_randn1 MoreExamples.zero_randn2
           [2; 3; 1] (Str "ReLU") 1%Z 1%Z 1%Z 0%Z true).
  - intros n_in n_out b. split.
    + apply zeros2_has_shape.
    + destruct b; simpl; [| done]. split; [done |].
      split; [done | simpl; by rewrite length_replicate].
  - intros n. split; [done | simpl; by rewrite length_replicate].
  - intros n m. apply zeros2_has_shape.
  - simpl. lia.
  - simpl. by right.
Defined.

(** X10: the base constructor raises only on an empty list of nodes,
    with [IndexError] from [nodes[0]]; on every other list, and whatever
    is passed as nonlinearity, it returns an object of the base class
    with one layer and one nonlinearity slot per pair of neighbouring
    nodes and an all-zero memory of [nodes[0]] entries. *)
Theorem MultilayerPCN_init_raises_iff_empty {R : Type} `{Scalar R}
    (nn_Linear : nat → nat → bool → Linear R) (utils_Tanh utils_ReLU : Nonlin R)
    (nodes : list nat) (nonlin : pyobj R) (Dt lamb : R) (use_bias : bool) :
  match nodes with
  | [] =>
      MultilayerPCN_init nn_Linear utils_Tanh utils_ReLU nodes nonlin Dt lamb
        use_bias = Raise IndexError
  | n0 :: _ =>
      ∃ self,
        MultilayerPCN_init nn_Linear utils_Tanh utils_ReLU nodes nonlin Dt lamb
          use_bias = Ok self ∧
        n_layers self = length nodes ∧
        length (layers self) = length nodes - 1 ∧
        length (nonlins self) = length nodes - 1 ∧
        mem_dim self = n0 ∧ memory self = new_parameter (zeros1 n0) ∧
        cls self = Multilayer
  end.
Proof.
  destruct nodes as [|n0 nodes]; [done |].
  unfold MultilayerPCN_init.
  destruct (mapM_seq_Ok (λ l,
      do n_in <- getitem (n0 :: nodes) l;
      do n_out <- getitem (n0 :: nodes) (l + 1);
      Ok (nn_Linear n_in n_out use_bias)) 0 (length (n0 :: nodes) - 1))
    as (lys & Hlys).
  { intros l Hl.
    destruct (lookup_lt_is_Some_2 (n0 :: nodes) l) as (n_in & Hin); [lia |].
    destruct (lookup_lt_is_Some_2 (n0 :: nodes) (l + 1)) as (n_out & Hout);
      [lia |].
    apply getitem_Ok in Hin, Hout. rewrite Hin, Hout. simpl. eauto. }
  rewrite Hlys. apply mapM_lookup in Hlys as [Hlen _].
  rewrite length_seq in Hlen. simpl in *.
  eexists. split; [done |]. simpl. rewrite length_replicate. done.
Qed.

(** ** RecPCN *)

Lemma bop_zeros2_id {R : Type} `{Scalar R} (f : R → R → R) (B n : nat)
    (x : tensor R) :
  (∀ y, f y szero = y) → has_shape x [B; n] →
  bop f x (zeros2 B n) = Ok x.
Proof.
  intros Hf (rows & -> & Hl & Hw)%has_shape_T2. unfold zeros2.
  rewrite bop_T2_T2; [| done | | by rewrite length_replicate].
  2:{ apply Forall_replicate. by rewrite length_replicate. }
  subst B. f_equal. f_equal.
  apply (zip_with_replicate_r_id _ (λ r, length r = n)); [done |].
  intros r <-.
  apply (zip_with_replicate_r_id _ (λ _, True)); [by apply Forall_true | done].
Qed.

Lemma RecPCN_forward_shape {R : Type} `{Scalar R} (d : nat)
    (self : RecPCN.model R) (B : nat) (batched : bool) (X : tensor R) :
  wf_RecPCN d self → has_shape X (lshape B d batched) →
  ∃ p, RecPCN.forward self X = Ok p ∧ has_shape p (lshape B d batched).
Proof.
  intros [HW Hmu] HX. unfold RecPCN.forward.
  destruct (matmul_lshape B d d batched
              (tmap (nl_apply (RecPCN.nonlin self)) X)
              (transpose (data (RecPCN.Wr self)))) as (y & Hy & Hsy).
  { by apply tmap_has_shape. }
  { by apply transpose_has_shape. }
  rewrite Hy. simpl.
  destruct (bop_lshape sadd B d batched false y (data (RecPCN.mu self)))
    as (c & Hc & Hsc); [done | done |].
  exists c. split; [done |]. eapply lshape_eq; [| exact Hsc]. by destruct batched.
Qed.

Lemma RecPCN_inference_shape {R : Type} `{Scalar R} (d : nat)
    (self : RecPCN.model R) (B : nat) (batched : bool) (X : tensor R) :
  wf_RecPCN d self → has_shape X (lshape B d batched) →
  ∃ y, RecPCN.inference self X = Ok y ∧ has_shape y (lshape B d batched).
Proof.
  intros Hwf HX. unfold RecPCN.inference.
  destruct (RecPCN_forward_shape d self B batched X Hwf HX) as (p & -> & Hp).
  simpl.
  destruct (bop_lshape ssub B d batched batched X p) as (e & He & Hse);
    [done | done |].
  unfold tsub. rewrite He. simpl.
  assert (has_shape e (lshape B d batched)) as Hse'.
  { eapply lshape_eq; [| exact Hse]. by destruct batched. }
  destruct (RecPCN.dendrite self).
  - eexists. split; [done |]. by apply tmap_has_shape.
  - destruct Hwf as [HW _].
    destruct (matmul_lshape B d d batched e (data (RecPCN.Wr self)))
      as (m & -> & Hsm); [done | done |].
    simpl.
    destruct (bop_lshape sadd B d batched batched (tneg e) m) as (c & Hc & Hsc);
      [by apply tmap_has_shape | done |].
    exists c. split; [done |]. eapply lshape_eq; [| exact Hsc]. by destruct batched.
Qed.

(** X11: [RecPCN.learning] on a batch of [B] vectors of the model's
    dimension returns; it leaves the values of [Wr] and [mu] as they
    were, puts in [Wr.grad] a matrix of the shape of [Wr] with a zero
    diagonal (filled with 0, then negated: the scalars are to satisfy
    -0 = 0), in [mu.grad] minus the column sums of the errors
    [X - forward(X)], and sets [train_mse]. *)
Theorem RecPCN_learning_grads {R : Type} `{Scalar R} (torch_mean : list R → R)
    (d : nat) (self : RecPCN.model R) (B : nat) (X : tensor R) :
  sneg szero = szero →
  wf_RecPCN d self → has_shape X [B; d] →
  ∃ self' preds errs gW,
    RecPCN.learning torch_mean self X = Ok self' ∧
    RecPCN.forward self X = Ok preds ∧ tsub X preds = Ok errs ∧
    data (RecPCN.Wr self') = data (RecPCN.Wr self) ∧
    data (RecPCN.mu self') = data (RecPCN.mu self) ∧
    grad (RecPCN.Wr self') = Some gW ∧ has_shape gW [d; d] ∧
    (∀ i, i < d → tensor_get gW i i = Some szero) ∧
    grad (RecPCN.mu self') = Some (tneg (sum0 errs)) ∧
    is_Some (RecPCN.train_mse self').
Proof.
  intros Hneg Hwf HX. unfold RecPCN.learning.
  destruct (RecPCN_forward_shape d self B true X Hwf HX) as (p & Hp & Hsp).
  rewrite Hp. simpl in *.
  destruct (bop_same_shape ssub X p [B; d]) as (e & He & Hse); [done | done |].
  unfold tsub. rewrite He. simpl.
  destruct (matmul_lshape d B d true (transpose e)
              (tmap (nl_apply (RecPCN.nonlin self)) X)) as (g & Hg & Hsg); simpl.
  { by apply transpose_has_shape. }
  { by apply tmap_has_shape. }
  rewrite Hg. simpl. simpl in Hsg.
  pose proof Hsg as Hsg'.
  apply has_shape_T2 in Hsg' as (rows & -> & Hlr & Hwr).
  destruct (fill_diagonal_0 (T2 d rows)) as [g'|] eqn:Hg'; [| discriminate].
  simpl.
  assert (has_shape (tneg g') [d; d]) as Hsn.
  { split.
    - apply tmap_wf. eapply fill_diagonal_0_wf; [| exact Hg']. by destruct Hsg.
    - injection Hg' as <-. simpl. by rewrite length_map, length_imap, Hlr. }
  destruct Hwf as [HW Hmu].
  unfold set_grad at 1. rewrite decide_True.
  2:{ destruct Hsn as [_ ->]. by destruct HW as [_ ->]. }
  simpl. unfold set_grad. rewrite decide_True.
  2:{ unfold tneg. rewrite tmap_shape.
      destruct (sum0_T2_shape B d e Hse) as [_ ->]. by destruct Hmu as [_ ->]. }
  simpl. eexists. exists p, e, (tneg g').
  split; [done |]. simpl. repeat (split; [done |]).
  split; [| done]. intros i Hi.
  destruct (tensor_get_is_Some (tneg g') d d i i Hsn Hi Hi) as (x & Hx).
  rewrite Hx. f_equal. rewrite <- Hneg.
  by eapply tneg_fill_diagonal_0_get.
Qed.

Lemma RecPCN_learning_grads_witness :
  ∃ self' gW,
    RecPCN.learning MoreExamples.mean_Z MoreExamples.rec2 MoreExamples.rec_batch
    = Ok self' ∧
    grad (RecPCN.Wr self') = Some gW ∧
    tensor_get gW 0 0 = Some 0%Z ∧ tensor_get gW 1 1 = Some 0%Z.
Proof.
  destruct (RecPCN_learning_grads MoreExamples.mean_Z 2 MoreExamples.rec2 3
              MoreExamples.rec_batch)
    as (self' & preds & errs & gW & Hl & _ & _ & _ & _ & Hg & _ & Hdiag & _).
  - reflexivity.
  - split; split; [simpl; repeat constructor | reflexivity | done | reflexivity].
  - split; [simpl; repeat constructor | reflexivity].
  - exists self', gW. split; [exact Hl |]. split; [exact Hg |].
    split; apply Hdiag; lia.
Defined.

(** X12: [RecPCN.learning] needs the batch dimension: on a single
    vector of the model's dimension the product [errs.T @ nonlin(X)] is
    a scalar and [fill_diagonal_] raises [RuntimeError], although
    [forward] and [inference] accept the same vector and return a vector
    of its length. *)
Theorem RecPCN_learning_needs_batch {R : Type} `{Scalar R}
    (torch_mean : list R → R) (d : nat) (self : RecPCN.model R) (X : tensor R) :
  wf_RecPCN d self → has_shape X [d] →
  RecPCN.learning torch_mean self X = Raise RuntimeError ∧
  ∃ y, RecPCN.inference self X = Ok y ∧ has_shape y [d].
Proof.
  intros Hwf HX. split.
  - unfold RecPCN.learning.
    destruct (RecPCN_forward_shape d self 0 false X Hwf HX) as (p & Hp & Hsp).
    rewrite Hp. simpl in *.
    destruct (bop_same_shape ssub X p [d]) as (e & He & Hse); [done | done |].
    unfold tsub. rewrite He. simpl.
    apply has_shape_T1 in Hse as (ve & -> & Hlve).
    apply has_shape_T1 in HX as (vx & -> & Hlvx).
    simpl. rewrite decide_True by (rewrite length_map; congruence). done.
  - apply (RecPCN_inference_shape d self 0 false X Hwf HX).
Qed.

Lemma RecPCN_learning_needs_batch_witness :
  RecPCN.learning MoreExamples.mean_Z MoreExamples.rec2 (T1 [1; 2]%Z)
  = Raise RuntimeError ∧
  ∃ y, RecPCN.inference MoreExamples.rec2 (T1 [1; 2]%Z) = Ok y ∧
       has_shape y [2].
Proof.
  apply (RecPCN_learning_needs_batch MoreExamples.mean_Z 2 MoreExamples.rec2).
  - split; split; [simpl; repeat constructor | reflexivity | done | reflexivity].
  - split; [done | reflexivity].
Defined.

Lemma zeros1_all_zero {R : Type} `{Scalar R} (n : nat) :
  all_zero (zeros1 n : tensor R).
Proof. simpl. by apply Forall_replicate. Qed.

(** X13: [RecPCN(dim, dendrite, mode)] returns for the three modes
    "linear", "rate" and "binary" and raises [ValueError] for every
    other string; the model it returns has all-zero [Wr] and [mu], so
    that its [inference] step on any batch [X] of vectors of length
    [dim] is [-X], with or without [dendrite] and whatever the
    nonlinearity objects are (over scalars with the laws of
    [ScalarLaws] and x - 0 = x). *)
Theorem RecPCN_init_inference {R : Type} `{ScalarLaws R}
    (utils_Linear utils_Sigmoid utils_Binary : Nonlin R)
    (dim : nat) (dendrite : bool) (mode : string) :
  (∀ x : R, ssub x szero = x) →
  match RecPCN.init utils_Linear utils_Sigmoid utils_Binary dim dendrite mode with
  | Constructed self =>
      (mode = "linear" ∨ mode = "rate" ∨ mode = "binary") ∧
      wf_RecPCN dim self ∧
      ∀ B X, has_shape X [B; dim] → RecPCN.inference self X = Ok (tneg X)
  | ValueError _ =>
      mode ≠ "linear" ∧ mode ≠ "rate" ∧ mode ≠ "binary"
  end.
Proof.
  intros Hsub.
  assert (∀ nl : Nonlin R,
    let self := {| RecPCN.dim := dim; RecPCN.dendrite := dendrite;
                   RecPCN.Wr := new_parameter (zeros2 dim dim);
                   RecPCN.mu := new_parameter (zeros1 dim);
                   RecPCN.nonlin := nl; RecPCN.train_mse := None |} in
    wf_RecPCN dim self ∧
    ∀ B X, has_shape X [B; dim] → RecPCN.inference self X = Ok (tneg X))
    as Hfresh.
  { intros nl self.
    assert (wf_RecPCN dim self) as Hwf.
    { split; [apply zeros2_has_shape |].
      split; [done | simpl; by rewrite length_replicate]. }
    split; [done |]. intros B X HX.
    destruct (RecPCN_forward_shape dim self B true X Hwf HX) as (p & Hp & Hsp).
    simpl in Hsp.
    assert (p = zeros2 B dim) as ->.
    { apply all_zero_zeros2; [done |].
      unfold RecPCN.forward in Hp. inv_bind Hp. rename x into y, Hx into Hy.
      eapply (bop_all_zero sadd); [apply sadd_0_r | | | exact Hp].
      - eapply matmul_all_zero_r; [| exact Hy].
        apply transpose_all_zero. simpl. apply zeros2_all_zero.
      - simpl. apply zeros1_all_zero. }
    unfold RecPCN.inference. rewrite Hp. simpl.
    unfold tsub. rewrite (bop_zeros2_id ssub) by done. simpl.
    destruct dendrite; [done |].
    destruct (matmul_lshape B dim dim true X (zeros2 dim dim))
      as (m & Hm & Hsm); [done | apply zeros2_has_shape |].
    simpl in Hsm. rewrite Hm. simpl.
    assert (m = zeros2 B dim) as ->.
    { apply all_zero_zeros2; [done |].
      eapply matmul_all_zero_r; [| exact Hm]. apply zeros2_all_zero. }
    apply (bop_zeros2_id sadd); [apply sadd_0_r | by apply tmap_has_shape]. }
  unfold RecPCN.init.
  destruct (decide (mode = "linear")) as [->|H1]; [split; [by left | apply Hfresh] |].
  destruct (decide (mode = "rate")) as [->|H2];
    [split; [by right; left | apply Hfresh] |].
  destruct (decide (mode = "binary")) as [->|H3];
    [split; [by right; right | apply Hfresh] |].
  done.
Qed.

Lemma RecPCN_init_inference_witness :
  ∃ self,
    RecPCN.init MoreExamples.linear_Z MoreExamples.binary_Z MoreExamples.binary_Z
      2 false "rate" = Constructed self ∧
    RecPCN.inference self MoreExamples.rec_batch
    = Ok (tneg MoreExamples.rec_batch).
Proof.
  pose proof (RecPCN_init_inference MoreExamples.linear_Z MoreExamples.binary_Z
                MoreExamples.binary_Z 2 false "rate") as Hinit.
  simpl in Hinit. eexists. split; [reflexivity |].
  destruct Hinit as (_ & _ & Hinf).
  - intros x. apply Z.sub_0_r.
  - apply (Hinf 3). split; [simpl; repeat constructor | reflexivity].
Defined.

(** ** AutoEncoder *)

(** X14: the constructor of [AutoEncoder] builds two layers without
    bias of shapes (latent_dim, dim) and (dim, latent_dim) when the
    library constructor returns layers of the sizes asked for, and on
    such a model [forward] returns, for a vector or a batch of vectors
    of length [dim], a tensor of the shape of its input. *)
Theorem AutoEncoder_forward_shape {R : Type} `{Scalar R}
    (nn_Linear : nat → nat → bool → Linear R) (torch_tanh : R → R)
    (dim latent_dim B : nat) (batched : bool) (X : tensor R) :
  (∀ n_in n_out b, wf_layer b n_in n_out (nn_Linear n_in n_out b)) →
  has_shape X (lshape B dim batched) →
  wf_AutoEncoder (AutoEncoder.init nn_Linear dim latent_dim) ∧
  ∀ self, wf_AutoEncoder self → AutoEncoder.dim self = dim →
    ∃ y, AutoEncoder.forward torch_tanh self X = Ok y ∧
         has_shape y (lshape B dim batched).
Proof.
  intros Hlin HX. split; [split; apply Hlin |].
  intros self [He Hd] <-. unfold AutoEncoder.forward.
  destruct (linear_forward_shape false B (AutoEncoder.dim self)
              (AutoEncoder.latent_dim self) batched (AutoEncoder.We self) X)
    as (h & -> & Hh); [done | done |].
  simpl.
  destruct (linear_forward_shape false B (AutoEncoder.latent_dim self)
              (AutoEncoder.dim self) batched (AutoEncoder.Wd self)
              (tmap torch_tanh h))
    as (y & -> & Hy); [done | by apply tmap_has_shape |].
  simpl. eexists. split; [done |]. by apply tmap_has_shape.
Qed.

Lemma AutoEncoder_forward_shape_witness :
  ∃ y, AutoEncoder.forward Z.sgn MoreExamples.ae32 (T2 3 [[1; 2; 3]; [0; -1; 0]]%Z)
       = Ok y ∧ has_shape y [2; 3].
Proof.
  destruct (AutoEncoder_forward_shape
              (λ n_in n_out b,
                 {| weight := new_parameter (zeros2 n_out n_in);
                    bias := if b then Some (new_parameter (zeros1 n_out))
                            else None |})
              Z.sgn 3 2 2 true (T2 3 [[1; 2; 3]; [0; -1; 0]]%Z))
    as [_ Hfwd].
  - intros n_in n_out b. split.
    + apply zeros2_has_shape.
    + destruct b; simpl; [| done]. split; [done |].
      split; [done | simpl; by rewrite length_replicate].
  - split; [simpl; repeat constructor | reflexivity].
  - apply (Hfwd MoreExamples.ae32); [| reflexivity].
    split; (split; [split; [simpl; repeat constructor | reflexivity] | reflexivity]).
Defined.

(** ** An input of the wrong width *)

(** Loop rule for a failing loop: the iterations before [k] succeed and
    keep the invariant, iteration [k] raises. *)
Lemma for_range_raises {St : Type} (P : nat → St → Prop)
    (body : St → nat → result St) (a n k : nat) (s0 : St) (e : error) :
  k < n → P 0 s0 →
  (∀ i s, i < k → P i s → ∃ s', body s (a + i) = Ok s' ∧ P (S i) s') →
  (∀ s, P k s → body s (a + k) = Raise e) →
  for_range body (seq a n) s0 = Raise e.
Proof.
  revert P a k s0. induction n as [|n IH]; intros P a k s0 Hk H0 Hstep Hfail;
    [lia |].
  simpl. destruct k as [|k].
  - rewrite <- (Nat.add_0_r a) at 1. by rewrite (Hfail s0 H0).
  - destruct (Hstep 0 s0) as (s1 & Hb & H1); [lia | done |].
    rewrite Nat.add_0_r in Hb. rewrite Hb. simpl.
    apply (IH (λ i, P (S i)) (S a) k); [lia | done | |].
    + intros i s Hi Hs. destruct (Hstep (S i) s) as (s' & Hb' & Hs'); [lia | done |].
      exists s'. split; [| done]. rewrite <- Hb'. f_equal. lia.
    + intros s Hs. rewrite <- (Hfail s Hs). f_equal. lia.
Qed.

Lemma bop_width_mismatch {R : Type} `{Scalar R} (f : R → R → R)
    (a p : tensor R) (B B' m n : nat) (b : bool) :
  has_shape a [B; m] → has_shape p (lshape B' n b) →
  m ≠ n → m ≠ 1 → n ≠ 1 → bop f a p = Raise RuntimeError.
Proof.
  intros (ra & -> & _ & _)%has_shape_T2 Hp Hmn Hm Hn.
  assert (∀ n', n' = n → bdim m n' = Raise RuntimeError) as Hbdim.
  { intros n' ->. unfold bdim. by rewrite !decide_False by done. }
  destruct b; simpl in Hp.
  - apply has_shape_T2 in Hp as (rp & -> & _ & _). simpl.
    by rewrite Hbdim.
  - apply has_shape_T1 in Hp as (vp & -> & Hl). simpl.
    by rewrite Hbdim.
Qed.

Lemma prediction_ext {R : Type} `{Scalar R} (self : MultilayerPCN R)
    (vals vals' : list (option (tensor R))) (l : nat) :
  vals' !! 0 = vals !! 0 → vals' !! (l - 1) = vals !! (l - 1) →
  prediction self vals' l = prediction self vals l.
Proof.
  intros H0 Hl. unfold prediction. case_decide.
  - unfold pred_top. by rewrite (read_ext _ _ _ H0).
  - by apply pred_from_above_ext.
Qed.

Lemma set_nodes_width_mismatch {R : Type} `{Scalar R} (nodes : list nat)
    (self : MultilayerPCN R) (B m n_last : nat) (inp : tensor R) :
  wf_model nodes self →
  nodes !! (length nodes - 1) = Some n_last →
  has_shape inp [B; m] → m ≠ n_last → m ≠ 1 → n_last ≠ 1 →
  set_nodes self (initialize self) inp = Raise RuntimeError.
Proof.
  intros Hwf Hlast Hinp Hmn Hm1 Hn1.
  pose proof (wf_n_layers _ _ Hwf) as HL. pose proof (wf_two _ _ Hwf) as H2.
  destruct (set_nodes_Inv nodes self B n_last (zeros2 B n_last) Hwf Hlast
              (zeros2_has_shape B n_last)) as (st & Hst & HInv & _ & _).
  unfold set_nodes, initialize in Hst |- *. simpl in Hst |- *.
  inv_bind Hst. rename x into vs, Hx into Hvs.
  inv_bind Hst. rename x into s1, Hx into Hloop.
  inv_bind Hst. rename x into i, Hx into Hi.
  inv_bind Hst. rename x into vs', Hx into Hvs'.
  apply setitem_Ok in Hvs' as [Hlt ->].
  rewrite Hvs. simpl. rewrite Hloop. simpl. rewrite Hi. simpl.
  unfold setitem. rewrite decide_True by done. simpl.
  apply update_err_nodes_spec in Hst as (Hv & Hlp & Hle & Hspec).
  simpl in Hv, Hlp, Hle, Hspec.
  apply last_index_Ok in Hi.
  pose proof (inv_len_val _ _ _ _ HInv) as Hlv.
  rewrite Hv, length_insert in Hlv.
  assert (i = length nodes - 1) as -> by lia.
  rewrite (inv_len_preds _ _ _ _ HInv) in Hlp.
  rewrite (inv_len_errs _ _ _ _ HInv) in Hle.
  unfold update_err_nodes.
  assert (for_range (update_err_body self) (seq 0 (n_layers self))
            (with_val_nodes s1 (<[length nodes - 1:=Some inp]> (val_nodes s1)))
          = Raise RuntimeError) as Hraise.
  2:{ pose proof (wf_cls _ _ Hwf). by destruct (cls self). }
  assert (∀ l, l ≤ length nodes - 1 →
    prediction self (<[length nodes - 1:=Some inp]> (val_nodes s1)) l
    = prediction self (val_nodes st) l) as Hpred.
  { intros l Hl. rewrite Hv. apply prediction_ext;
      by rewrite !list_lookup_insert_ne by lia. }
  apply (for_range_raises (λ _ s,
    val_nodes s = <[length nodes - 1:=Some inp]> (val_nodes s1) ∧
    length (preds s) = length nodes ∧ length (errs s) = length nodes)
    _ 0 _ (length nodes - 1)).
  - lia.
  - done.
  - intros l s Hl (Hvs1 & Hps & Hes). simpl.
    destruct (Hspec l) as (p & v & e & Hp & Hrv & He & _); [lia |].
    unfold update_err_body. rewrite Hvs1, Hpred, Hv, Hp by lia. simpl.
    unfold setitem. rewrite decide_True by lia. simpl.
    rewrite (read_ext _ (<[length nodes - 1:=Some (zeros2 B n_last)]> (val_nodes s1)))
      by (by rewrite !list_lookup_insert_ne by lia).
    rewrite Hrv. simpl. rewrite He. simpl. rewrite decide_True by lia. simpl.
    eexists. split; [done |]. simpl. by rewrite !length_insert.
  - intros s (Hvs1 & Hps & Hes). simpl.
    destruct (prediction_shape nodes self B (length nodes - 1) n_last
                (val_nodes st) (length nodes - 1) Hwf (inv_val _ _ _ _ HInv) Hlast)
      as (p & b & Hp & Hsp & _).
    unfold update_err_body. rewrite Hvs1, Hpred, Hp by lia. simpl.
    unfold setitem. rewrite decide_True by lia. simpl.
    assert (read (<[length nodes - 1:=Some inp]> (val_nodes s1)) (length nodes - 1)
            = Ok inp) as ->.
    { apply read_Ok. by rewrite list_lookup_insert_eq by lia. }
    simpl. unfold tsub.
    by rewrite (bop_width_mismatch ssub inp p B B m n_last b).
Qed.

(** X15: an input batch whose width differs from the sensory layer's is
    rejected: when neither width is 1 (no broadcasting), both entry
    points raise [RuntimeError], from the subtraction
    [val_nodes[L-1] - preds[L-1]] at the end of [set_nodes]. *)
Theorem input_width_mismatch_raises {R : Type} `{Scalar R} (nodes : list nat)
    (self : MultilayerPCN R) (B m n_last : nat) (inp update_mask : tensor R)
    (n_iters : nat) (sensory : bool) :
  wf_model nodes self →
  nodes !! (length nodes - 1) = Some n_last →
  has_shape inp [B; m] → m ≠ n_last → m ≠ 1 → n_last ≠ 1 →
  train_pc_generative self inp n_iters update_mask = Raise RuntimeError ∧
  test_pc_generative self inp n_iters update_mask sensory = Raise RuntimeError.
Proof.
  intros Hwf Hlast Hinp Hmn Hm1 Hn1.
  pose proof (set_nodes_width_mismatch nodes self B m n_last inp
                Hwf Hlast Hinp Hmn Hm1 Hn1) as Hs.
  unfold train_pc_generative, test_pc_generative, episode.
  by rewrite Hs.
Qed.

Lemma input_width_mismatch_raises_witness :
  train_pc_generative Examples.hier2 (T2 2 [[1; 2]; [3; 4]]%Z) 4 Examples.ones2
  = Raise RuntimeError ∧
  test_pc_generative Examples.hier2 (T2 2 [[1; 2]; [3; 4]]%Z) 4 Examples.ones2
    false = Raise RuntimeError.
Proof.
  apply (input_width_mismatch_raises [2; 3] Examples.hier2 2 2 3).
  - exact ExamplesFacts.hier2_wf.
  - reflexivity.
  - split; [simpl; repeat constructor | reflexivity].
  - lia.
  - lia.
  - lia.
Defined.

(** ** No error, no gradient *)

Lemma sum0_all_zero {R : Type} `{ScalarLaws R} (t : tensor R) :
  all_zero t → all_zero (sum0 t).
Proof.
  destruct t as [x|v|n rows]; simpl; [done | apply ssum_zero |].
  intros Hz. apply Forall_map.
  eapply Forall_impl; [by apply (columns_zero n) |]. simpl.
  intros col Hcol. by apply ssum_zero.
Qed.

Lemma fill_diagonal_0_all_zero {R : Type} `{Scalar R} (g g' : tensor R) :
  all_zero g → fill_diagonal_0 g = Ok g' → all_zero g'.
Proof.
  destruct g as [x|v|n rows]; simpl; try discriminate.
  intros Hz [= <-]. simpl. apply Forall_lookup. intros i r Hr.
  rewrite list_lookup_imap in Hr.
  destruct (rows !! i) as [r0|] eqn:Hr0; simpl in Hr; [| discriminate].
  injection Hr as <-. apply Forall_insert; [| done].
  by apply (Forall_lookup_1 _ _ _ _ Hz Hr0).
Qed.

Lemma set_grad_zero {R : Type} `{ScalarLaws R} (p p' : Param R) (g : tensor R) :
  all_zero g → set_grad p (tneg g) = Ok p' → grad_zero p'.
Proof.
  intros Hg [_ ->]%set_grad_Ok. exists (tneg g). split; [done |].
  apply tmap_all_zero; [apply sneg_0 | done].
Qed.

(** X16: where the errors vanish, so do the gradients: on buffers in
    which every layer holds a batch and every error is zero,
    [update_grads] returns with an all-zero gradient in [memory], in
    the weight (and the bias, when used) of every layer, and in [Wr] of
    the hybrid class (over scalars with the laws of [ScalarLaws]). *)
Theorem zero_errors_zero_grads {R : Type} `{ScalarLaws R} (nodes : list nat)
    (self : MultilayerPCN R) (B : nat) (st : buffers R) :
  wf_model nodes self → Inv nodes B 0 st → zero_slots (errs st) →
  ∃ self', update_grads self st = Ok self' ∧ grads_zero self'.
Proof.
  intros Hwf HInv Hzero.
  destruct (update_grads_total nodes self B st Hwf HInv) as (self' & Hself').
  exists self'. split; [done |].
  destruct (update_grads_spec self st self' Hself')
    as (e0 & He0 & Hmem & Hlen & _ & Hdone & Hcls).
  assert (all_zero e0) as Hz0 by (eapply zero_slots_read; eassumption).
  split; [| split].
  - eapply set_grad_zero; [| exact Hmem]. by apply sum0_all_zero.
  - apply Forall_lookup. intros l ly' Hly'.
    pose proof (lookup_lt_Some _ _ _ Hly') as Hl.
    rewrite Hlen, (wf_layers_len _ _ Hwf), <- (wf_n_layers _ _ Hwf) in Hl.
    destruct (Hdone l Hl) as (ly1 & Hg & Hlook).
    rewrite Hly' in Hlook. injection Hlook as <-.
    destruct (graded_layer_Ok st self l ly' Hg)
      as (e1 & nl & v & a & g & ly & He1 & _ & _ & _ & Hgm & Hly & Hw & Hb).
    assert (all_zero e1) as Hz1 by (eapply zero_slots_read; eassumption).
    split.
    + eapply set_grad_zero; [| exact Hw].
      eapply matmul_all_zero_l; [| exact Hgm]. by apply transpose_all_zero.
    + destruct (use_bias self) eqn:Hub.
      * destruct Hb as (b & b' & _ & -> & Hb').
        eapply set_grad_zero; [| exact Hb']. by apply sum0_all_zero.
      * rewrite Hb. rewrite (wf_n_layers _ _ Hwf) in Hl.
        destruct (lookup_lt_is_Some_2 nodes l) as (n_in & Hi); [lia |].
        destruct (lookup_lt_is_Some_2 nodes (l + 1)) as (n_out & Ho); [lia |].
        destruct (wf_layers _ _ Hwf l n_in n_out Hi Ho) as (ly0 & Hly0 & _ & Hb0).
        rewrite Hly in Hly0. injection Hly0 as <-. rewrite Hub in Hb0.
        destruct (bias ly); [by destruct Hb0 | done].
  - destruct (cls self) as [| |Wr]; [done | by rewrite Hcls |].
    destruct Hcls as (v0 & g & g' & Wr' & _ & Hg & Hg' & Hw & ->).
    eapply set_grad_zero; [| exact Hw].
    eapply fill_diagonal_0_all_zero; [| exact Hg'].
    eapply matmul_all_zero_l; [| exact Hg]. by apply transpose_all_zero.
Qed.

Lemma zero_errors_zero_grads_witness :
  ∃ self', update_grads Examples.hier2 MoreExamples.hier2_settled = Ok self' ∧
           grads_zero self'.
Proof.
  apply (zero_errors_zero_grads [2; 3] Examples.hier2 2).
  - exact ExamplesFacts.hier2_wf.
  - constructor; simpl; try reflexivity; try lia;
      intros [|[|l]] n Hn; simpl in *; simplify_eq;
      (eexists; split; [reflexivity |];
       split; [simpl; repeat constructor | reflexivity]).
  - intros [|[|l]] t Hl; simpl in Hl; simplify_eq; simpl; repeat constructor.
Defined.

(** ** The errors [set_nodes] leaves *)

Lemma bop_self_zero {R : Type} `{Scalar R} (t e : tensor R) :
  (∀ x : R, ssub x x = szero) → tsub t t = Ok e → all_zero e.
Proof.
  intros Hsub. unfold tsub.
  assert (∀ v w : list R, bvec ssub v v = Ok w → Forall (λ x, x = szero) w)
    as Hvec.
  { intros v w. unfold bvec, bcast. rewrite decide_True by done.
    rewrite zipM_pure. intros [= <-].
    induction v as [|x v IH]; simpl;
      [constructor | constructor; [apply Hsub | exact IH]]. }
  destruct t as [x|v|n rows]; simpl.
  - intros [= <-]. simpl. apply Hsub.
  - intros Hv. inv_bind Hv. injection Hv as <-. simpl. by eapply Hvec.
  - rewrite bdim_same. simpl. unfold bcast. rewrite decide_True by done.
    intros Hr. inv_bind Hr. rename x into rs, Hx into Hrs. injection Hr as <-.
    simpl. clear -Hvec Hrs. revert rs Hrs.
    induction rows as [|r rows IH]; intros rs Hrs; simpl in Hrs.
    + injection Hrs as <-. constructor.
    + inv_bind Hrs. rename x into w, Hx into Hw.
      inv_bind Hrs. rename x into ws, Hx into Hws. injection Hrs as <-.
      constructor; [by eapply Hvec | by apply IH].
Qed.

(** X17: in the hierarchical class [set_nodes] starts every layer above
    the sensory one at its own prediction, so the only error it leaves
    is the sensory one: the errors of layers 0 .. L-2 are all zero,
    whatever the parameters and the input (over scalars with
    x - x = 0). *)
Theorem hierarchical_set_nodes_hidden_errors_zero {R : Type} `{Scalar R}
    (nodes : list nat) (self : MultilayerPCN R) (B n_last : nat)
    (inp : tensor R) :
  (∀ x : R, ssub x x = szero) →
  wf_model nodes self → cls self = Hierarchical →
  nodes !! (length nodes - 1) = Some n_last →
  has_shape inp [B; n_last] →
  ∃ st, set_nodes self (initialize self) inp = Ok st ∧
        ∀ l, l < length nodes - 1 →
          ∃ e, errs st !! l = Some (Some e) ∧ all_zero e.
Proof.
  intros Hsub Hwf Hcls Hlast Hinp.
  pose proof (wf_n_layers _ _ Hwf) as HL. pose proof (wf_two _ _ Hwf) as H2.
  destruct (set_nodes_Inv nodes self B n_last inp Hwf Hlast Hinp)
    as (st & Hst & HInv & _ & _).
  exists st. split; [done |]. intros l Hl.
  destruct (set_nodes_chain self inp st) as (Hmem & Hchain); [lia | done |].
  pose proof Hst as Hst'. unfold set_nodes in Hst'.
  do 4 inv_bind Hst'. pose proof (update_err_nodes_spec _ _ _ Hst') as (Hv & _ & _ & Hspec).
  destruct (Hspec l) as (p & v & e & Hp & Hrv & He & _ & Hle); [lia |].
  rewrite <- Hv in Hp, Hrv. apply read_Ok in Hrv.
  exists e. split; [done |].
  assert (v = p) as ->.
  { unfold prediction in Hp. case_decide as Hl0.
    - subst l. unfold pred_top in Hp. rewrite Hcls in Hp. injection Hp as <-.
      rewrite Hmem in Hrv. by injection Hrv as <-.
    - destruct (Hchain l) as (y & Hy & Hly); [lia |].
      rewrite Hp in Hy. injection Hy as <-.
      rewrite Hly in Hrv. by injection Hrv as <-. }
  by eapply bop_self_zero.
Qed.

Lemma hierarchical_set_nodes_hidden_errors_zero_witness :
  ∃ st, set_nodes Examples.hier2 (initialize Examples.hier2) Examples.batch2
        = Ok st ∧
        ∃ e, errs st !! 0 = Some (Some e) ∧ all_zero e.
Proof.
  destruct (hierarchical_set_nodes_hidden_errors_zero [2; 3] Examples.hier2 2 3
              Examples.batch2) as (st & Hst & Hz).
  - intros x. apply Z.sub_diag.
  - exact ExamplesFacts.hier2_wf.
  - reflexivity.
  - reflexivity.
  - split; [simpl; repeat constructor | reflexivity].
  - exists st. split; [exact Hst |]. apply Hz. simpl. lia.
Defined.

(** ** The samples of a batch do not interact *)

Lemma for_range_sim {St St' : Type} (Rel : St → St' → Prop)
    (body : St → nat → result St) (body' : St' → nat → result St')
    (range : list nat) (s0 s1 : St) (s0' : St') :
  (∀ l s s' t, Rel s s' → body s l = Ok t → ∃ t', body' s' l = Ok t' ∧ Rel t t') →
  Rel s0 s0' → for_range body range s0 = Ok s1 →
  ∃ s1', for_range body' range s0' = Ok s1' ∧ Rel s1 s1'.
Proof.
  intros Hstep. revert s0 s0'.
  induction range as [|l range IH]; intros s0 s0' H0; simpl.
  - intros [= <-]. eauto.
  - intros Hr. inv_bind Hr. rename x into t, Hx into Ht.
    destruct (Hstep l s0 s0' t H0 Ht) as (t' & -> & Hrel). simpl. eauto.
Qed.

Lemma zipM_lookup {A B C : Type} (g : A → B → result C) (la : list A)
    (lb : list B) (lc : list C) (i : nat) (a : A) (b : B) :
  zipM g la lb = Ok lc → la !! i = Some a → lb !! i = Some b →
  ∃ c, g a b = Ok c ∧ lc !! i = Some c.
Proof.
  revert lb lc i.
  induction la as [|a0 la IH]; intros [|b0 lb] lc i Hz Ha Hb; simpl in *;
    try done.
  inv_bind Hz. rename x into c0, Hx into Hc0.
  inv_bind Hz. rename x into cs, Hx into Hcs. injection Hz as <-.
  destruct i as [|i]; simpl in *.
  - simplify_eq. eauto.
  - eauto.
Qed.

Lemma bcast_lookup {A B C : Type} (g : A → B → result C) (la : list A)
    (lb : list B) (lc : list C) (i : nat) (a : A) (b : B) :
  bcast g la lb = Ok lc → la !! i = Some a → lb !! i = Some b →
  ∃ c, g a b = Ok c ∧ lc !! i = Some c.
Proof.
  unfold bcast. case_decide as Hl; [apply zipM_lookup |].
  intros Hc Ha Hb. destruct la as [|a0 [|a1 la]]; [done | |].
  - destruct i as [|i]; [| done]. simpl in Ha. injection Ha as ->.
    apply mapM_lookup in Hc as [_ Hlook].
    destruct (Hlook 0 b Hb) as (c & Hc & Hg). eauto.
  - destruct lb as [|b0 [|b1 lb]]; try done.
    destruct i as [|i]; [| done]. simpl in Hb. injection Hb as ->.
    apply mapM_lookup in Hc as [_ Hlook].
    destruct (Hlook 0 a Ha) as (c & Hc & Hg). eauto.
Qed.

Section Samples.
Context {R : Type} `{Scalar R}.
Implicit Types (self : MultilayerPCN R) (st : buffers R).
Implicit Types (nodes : list nat) (xs ys vals : list (option (tensor R))).

Lemma sample_T2 (i n : nat) (rows : list (list R)) (t' : tensor R) :
  sample i (T2 n rows) = Some t' ↔ ∃ r, rows !! i = Some r ∧ t' = T2 n [r].
Proof.
  simpl. destruct (rows !! i) as [r|]; simpl; split.
  - intros [= <-]. eauto.
  - intros (r' & [= <-] & ->). done.
  - discriminate.
  - intros (r' & Hr & _). discriminate.
Qed.

Lemma sample_vector (i n : nat) (t : tensor R) :
  has_shape t [n] → sample i t = Some t.
Proof. intros (v & -> & _)%has_shape_T1. done. Qed.

Lemma tmap_sample (g : R → R) (i : nat) (t t' : tensor R) :
  sample i t = Some t' → sample i (tmap g t) = Some (tmap g t').
Proof.
  destruct t as [x|v|n rows]; simpl; try (by intros [= <-]).
  rewrite list_lookup_fmap. destruct (rows !! i) as [r|]; simpl; [| done].
  by intros [= <-].
Qed.

Lemma bop_sample (f : R → R → R) (a b c a' b' : tensor R) (i : nat) :
  bop f a b = Ok c → sample i a = Some a' → sample i b = Some b' →
  ∃ c', bop f a' b' = Ok c' ∧ sample i c = Some c'.
Proof.
  destruct a as [x|va|n ra], b as [y|vb|m rb]; intros Hc Ha Hb.
  - simpl in *. simplify_eq. by eexists.
  - simpl in *. simplify_eq. by eexists.
  - apply sample_T2 in Hb as (r & Hr & ->). simpl in *. simplify_eq.
    eexists. split; [done |]. simpl. by rewrite list_lookup_fmap, Hr.
  - simpl in *. simplify_eq. by eexists.
  - simpl in Ha, Hb. simplify_eq. exists c. split; [done |].
    simpl in Hc. inv_bind Hc. by injection Hc as <-.
  - apply sample_T2 in Hb as (r & Hr & ->). simpl in Ha. simplify_eq.
    simpl in Hc. inv_bind Hc. rename x into c0, Hx into Hc0.
    inv_bind Hc. rename x into rs, Hx into Hrs. injection Hc as <-.
    apply mapM_lookup in Hrs as [_ Hlook].
    destruct (Hlook i r Hr) as (w & Hw & Hg).
    simpl. rewrite Hc0. simpl. rewrite Hg. simpl.
    eexists. split; [done |]. by rewrite Hw.
  - apply sample_T2 in Ha as (r & Hr & ->). simpl in *. simplify_eq.
    eexists. split; [done |]. simpl. by rewrite list_lookup_fmap, Hr.
  - apply sample_T2 in Ha as (r & Hr & ->). simpl in Hb. simplify_eq.
    simpl in Hc. inv_bind Hc. rename x into c0, Hx into Hc0.
    inv_bind Hc. rename x into rs, Hx into Hrs. injection Hc as <-.
    apply mapM_lookup in Hrs as [_ Hlook].
    destruct (Hlook i r Hr) as (w & Hw & Hg).
    simpl. rewrite Hc0. simpl. rewrite Hg. simpl.
    eexists. split; [done |]. by rewrite Hw.
  - apply sample_T2 in Ha as (r & Hr & ->).
    apply sample_T2 in Hb as (r' & Hr' & ->).
    simpl in Hc. inv_bind Hc. rename x into c0, Hx into Hc0.
    inv_bind Hc. rename x into rs, Hx into Hrs. injection Hc as <-.
    destruct (bcast_lookup _ _ _ _ _ _ _ Hrs Hr Hr') as (w & Hg & Hw).
    simpl. rewrite Hc0. simpl. unfold bcast. simpl. rewrite Hg. simpl.
    eexists. split; [done |]. by rewrite Hw.
Qed.

Lemma matmul_sample (a c a' : tensor R) (m : nat) (rb : list (list R)) (i : nat) :
  matmul a (T2 m rb) = Ok c → sample i a = Some a' →
  ∃ c', matmul a' (T2 m rb) = Ok c' ∧ sample i c = Some c'.
Proof.
  destruct a as [x|va|n ra]; intros Hc Ha; [done | |].
  - simpl in Ha. simplify_eq. exists c. split; [done |].
    simpl in Hc. case_decide; [| done]. by injection Hc as <-.
  - apply sample_T2 in Ha as (r & Hr & ->).
    simpl in *. case_decide; [| done]. injection Hc as <-.
    eexists. split; [done |]. simpl. by rewrite list_lookup_fmap, Hr.
Qed.

Lemma read_sample (i : nat) xs ys (l : nat) (t : tensor R) :
  Forall2 (sample_slot i) xs ys → read xs l = Ok t →
  ∃ t', read ys l = Ok t' ∧ sample i t = Some t'.
Proof.
  intros Hxy Ht%read_Ok.
  destruct (Forall2_lookup_l _ _ _ _ _ Hxy Ht) as ([t'|] & Hy & Hs); [| done].
  exists t'. split; [by apply read_Ok | done].
Qed.

Lemma setitem_sample (i : nat) xs ys xs1 (l : nat) (t t' : tensor R) :
  Forall2 (sample_slot i) xs ys → sample i t = Some t' →
  setitem xs l (Some t) = Ok xs1 →
  ∃ ys1, setitem ys l (Some t') = Ok ys1 ∧ Forall2 (sample_slot i) xs1 ys1.
Proof.
  intros Hxy Ht [Hl ->]%setitem_Ok.
  exists (<[l:=Some t']> ys). split.
  - apply setitem_Ok. by rewrite <- (Forall2_length _ _ _ Hxy).
  - by apply Forall2_insert.
Qed.

Lemma last_index_sample (i : nat) xs ys :
  Forall2 (sample_slot i) xs ys → last_index ys = last_index xs.
Proof. intros Hxy. unfold last_index. by rewrite (Forall2_length _ _ _ Hxy). Qed.

Lemma call_sample (nl : pyobj R) (i : nat) (v v' a : tensor R) :
  call nl v = Ok a → sample i v = Some v' →
  ∃ a', call nl v' = Ok a' ∧ sample i a = Some a'.
Proof.
  destruct nl as [f|s]; simpl; [| done]. intros [= <-] Hv.
  eexists. split; [done |]. by apply tmap_sample.
Qed.

Lemma call_deriv_sample (nl : pyobj R) (i : nat) (v v' a : tensor R) :
  call_deriv nl v = Ok a → sample i v = Some v' →
  ∃ a', call_deriv nl v' = Ok a' ∧ sample i a = Some a'.
Proof.
  destruct nl as [f|s]; simpl; [| done]. intros [= <-] Hv.
  eexists. split; [done |]. by apply tmap_sample.
Qed.

Lemma wf_model_layer nodes self (l : nat) (ly : Linear R) :
  wf_model nodes self → layers self !! l = Some ly →
  ∃ n_in n_out, wf_layer (use_bias self) n_in n_out ly.
Proof.
  intros Hwf Hly. pose proof (lookup_lt_Some _ _ _ Hly) as Hl.
  rewrite (wf_layers_len _ _ Hwf) in Hl.
  destruct (lookup_lt_is_Some_2 nodes l) as (n_in & Hi); [lia |].
  destruct (lookup_lt_is_Some_2 nodes (l + 1)) as (n_out & Ho); [lia |].
  destruct (wf_layers _ _ Hwf l n_in n_out Hi Ho) as (ly' & Hly' & Hw).
  rewrite Hly in Hly'. injection Hly' as <-. eauto.
Qed.

Lemma linear_forward_sample (use_b : bool) (n_in n_out : nat) (ly : Linear R)
    (i : nat) (a a' y : tensor R) :
  wf_layer use_b n_in n_out ly →
  linear_forward ly a = Ok y → sample i a = Some a' →
  ∃ y', linear_forward ly a' = Ok y' ∧ sample i y = Some y'.
Proof.
  intros [Hw Hb] Hy Ha. unfold linear_forward in *.
  apply has_shape_T2 in Hw as (rows & Hrows & _ & _). rewrite Hrows in *.
  inv_bind Hy. rename x into z, Hx into Hz.
  destruct (matmul_sample _ _ _ _ _ _ Hz Ha) as (z' & Hz' & Hsz).
  simpl in Hz'. simpl. rewrite Hz'. simpl.
  destruct (bias ly) as [b|].
  - destruct Hb as [_ Hb].
    eapply bop_sample; [exact Hy | exact Hsz | by eapply sample_vector].
  - injection Hy as <-. eauto.
Qed.

Lemma pred_from_above_sample nodes self (i : nat) vals vals' (l : nat)
    (p : tensor R) :
  wf_model nodes self → Forall2 (sample_slot i) vals vals' →
  pred_from_above self vals l = Ok p →
  ∃ p', pred_from_above self vals' l = Ok p' ∧ sample i p = Some p'.
Proof.
  intros Hwf Hvals Hp. unfold pred_from_above in *.
  inv_bind Hp. rename x into ly, Hx into Hly.
  inv_bind Hp. rename x into nl, Hx into Hnl.
  inv_bind Hp. rename x into v, Hx into Hv.
  inv_bind Hp. rename x into a, Hx into Ha.
  rewrite Hly, Hnl. simpl.
  destruct (read_sample i _ _ _ _ Hvals Hv) as (v' & -> & Hsv). simpl.
  destruct (call_sample _ _ _ _ _ Ha Hsv) as (a' & -> & Hsa). simpl.
  apply getitem_Ok in Hly.
  destruct (wf_model_layer _ _ _ _ Hwf Hly) as (n_in & n_out & Hwly).
  by eapply linear_forward_sample.
Qed.

Lemma pred_top_sample nodes self (i : nat) vals vals' (p : tensor R) :
  wf_model nodes self → Forall2 (sample_slot i) vals vals' →
  pred_top self vals = Ok p →
  ∃ p', pred_top self vals' = Ok p' ∧ sample i p = Some p'.
Proof.
  intros Hwf Hvals Hp. unfold pred_top in *.
  pose proof (wf_two _ _ Hwf) as H2. pose proof (wf_cls _ _ Hwf) as Hcls.
  destruct (lookup_lt_is_Some_2 nodes 0) as (n0 & Hn0); [lia |].
  pose proof (wf_memory _ _ Hwf n0 Hn0) as Hmem.
  destruct (cls self) as [| |Wr]; [done | |].
  - injection Hp as <-. eexists. split; [done |]. by eapply sample_vector.
  - inv_bind Hp. rename x into v, Hx into Hv.
    inv_bind Hp. rename x into r, Hx into Hr.
    destruct (read_sample i _ _ _ _ Hvals Hv) as (v' & -> & Hsv). simpl.
    destruct (has_shape_T2 _ _ _ (Hcls n0 Hn0)) as (rows & Hrows & _ & _).
    rewrite Hrows in *. simpl in Hr.
    destruct (matmul_sample _ _ _ _ _ _ Hr Hsv) as (r' & Hr' & Hsr).
    simpl. rewrite Hr'. simpl.
    eapply bop_sample; [exact Hp | by eapply sample_vector | exact Hsr].
Qed.

Lemma prediction_sample nodes self (i : nat) vals vals' (l : nat) (p : tensor R) :
  wf_model nodes self → Forall2 (sample_slot i) vals vals' →
  prediction self vals l = Ok p →
  ∃ p', prediction self vals' l = Ok p' ∧ sample i p = Some p'.
Proof.
  intros Hwf Hvals. unfold prediction. case_decide.
  - by eapply pred_top_sample.
  - by eapply pred_from_above_sample.
Qed.

Lemma update_err_body_sample nodes self (i : nat) st st' (l : nat) st1 :
  wf_model nodes self → sample_buffers i st st' →
  update_err_body self st l = Ok st1 →
  ∃ st1', update_err_body self st' l = Ok st1' ∧ sample_buffers i st1 st1'.
Proof.
  intros Hwf (Hv & Hp & He) Hb. unfold update_err_body in *.
  inv_bind Hb. rename x into p, Hx into Hpred.
  inv_bind Hb. rename x into ps, Hx into Hps.
  inv_bind Hb. rename x into v, Hx into Hrv.
  inv_bind Hb. rename x into e, Hx into Hsub.
  inv_bind Hb. rename x into es, Hx into Hes. injection Hb as <-.
  destruct (prediction_sample _ _ i _ _ _ _ Hwf Hv Hpred) as (p' & -> & Hsp).
  simpl.
  destruct (setitem_sample i _ _ _ _ _ _ Hp Hsp Hps) as (ps' & -> & Hps').
  simpl.
  destruct (read_sample i _ _ _ _ Hv Hrv) as (v' & -> & Hsv). simpl.
  destruct (bop_sample _ _ _ _ _ _ i Hsub Hsv Hsp) as (e' & He' & Hse).
  unfold tsub. rewrite He'. simpl.
  destruct (setitem_sample i _ _ _ _ _ _ He Hse Hes) as (es' & -> & Hes').
  simpl. eexists. split; [done |]. done.
Qed.

Lemma update_err_nodes_sample nodes self (i : nat) st st' st1 :
  wf_model nodes self → sample_buffers i st st' →
  update_err_nodes self st = Ok st1 →
  ∃ st1', update_err_nodes self st' = Ok st1' ∧ sample_buffers i st1 st1'.
Proof.
  intros Hwf Hst. unfold update_err_nodes.
  destruct (cls self); [done | |];
    apply (for_range_sim (sample_buffers i)); try done;
    intros l s s' t Hs; by apply (update_err_body_sample nodes).
Qed.

Lemma set_nodes_sample nodes self (i : nat) (inp inp' : tensor R) st :
  wf_model nodes self → sample i inp = Some inp' →
  set_nodes self (initialize self) inp = Ok st →
  ∃ st', set_nodes self (initialize self) inp' = Ok st' ∧ sample_buffers i st st'.
Proof.
  intros Hwf Hinp Hst. unfold set_nodes in *.
  pose proof (wf_two _ _ Hwf) as H2.
  destruct (lookup_lt_is_Some_2 nodes 0) as (n0 & Hn0); [lia |].
  pose proof (wf_memory _ _ Hwf n0 Hn0) as Hmem.
  assert (sample_buffers i (initialize self) (initialize self)) as (Hv0 & Hp0 & He0).
  { unfold initialize, sample_buffers. simpl.
    assert (Forall2 (sample_slot (R:=R) i) (replicate (n_layers self) None)
              (replicate (n_layers self) None)) as Hnone.
    { apply Forall2_replicate. done. }
    done. }
  inv_bind Hst. rename x into vs, Hx into Hvs.
  inv_bind Hst. rename x into s1, Hx into Hloop.
  inv_bind Hst. rename x into k, Hx into Hk.
  inv_bind Hst. rename x into vs1, Hx into Hvs1.
  destruct (setitem_sample i _ _ _ _ _ _ Hv0 (sample_vector i n0 _ Hmem) Hvs)
    as (vs' & -> & Hvs'). simpl.
  assert (∀ l s s' t, sample_buffers i s s' → set_nodes_body self s l = Ok t →
            ∃ t', set_nodes_body self s' l = Ok t' ∧ sample_buffers i t t')
    as Hstep.
  { intros l s s' t (Hsv & Hsp & Hse) Hb. unfold set_nodes_body in *.
    inv_bind Hb. rename x into y, Hx into Hy.
    inv_bind Hb. rename x into ws, Hx into Hws. injection Hb as <-.
    destruct (pred_from_above_sample _ _ i _ _ _ _ Hwf Hsv Hy) as (y' & -> & Hsy).
    simpl.
    destruct (setitem_sample i _ _ _ _ _ _ Hsv Hsy Hws) as (ws' & -> & Hws').
    simpl. eexists. split; [done |]. done. }
  assert (sample_buffers i (with_val_nodes (initialize self) vs)
            (with_val_nodes (initialize self) vs')) as Hrel0 by done.
  destruct (for_range_sim (sample_buffers i) (set_nodes_body self)
              (set_nodes_body self) _ _ s1
              (with_val_nodes (initialize self) vs') Hstep Hrel0 Hloop)
    as (s1' & -> & (Hv1 & Hp1 & He1)).
  simpl. rewrite (last_index_sample i _ _ Hv1), Hk. simpl.
  destruct (setitem_sample i _ _ _ _ _ _ Hv1 Hinp Hvs1) as (vs1' & -> & Hvs1').
  simpl. eapply (update_err_nodes_sample nodes self i); [exact Hwf | | exact Hst].
  done.
Qed.

Lemma layer_delta_sample nodes self (i : nat) st st' (l : nat) (d : tensor R) :
  wf_model nodes self → sample_buffers i st st' →
  layer_delta self st l = Ok d →
  ∃ d', layer_delta self st' l = Ok d' ∧ sample i d = Some d'.
Proof.
  intros Hwf (Hv & Hp & He) Hd. unfold layer_delta in *.
  inv_bind Hd. rename x into nl, Hx into Hnl.
  inv_bind Hd. rename x into v, Hx into Hrv.
  inv_bind Hd. rename x into derivative, Hx into Hder.
  inv_bind Hd. rename x into e, Hx into Hre.
  inv_bind Hd. rename x into a, Hx into Ha.
  inv_bind Hd. rename x into e1, Hx into Hre1.
  inv_bind Hd. rename x into ly, Hx into Hly.
  inv_bind Hd. rename x into m, Hx into Hm.
  inv_bind Hd. rename x into b, Hx into Hb.
  rewrite Hnl. simpl.
  destruct (read_sample i _ _ _ _ Hv Hrv) as (v' & -> & Hsv). simpl.
  destruct (call_deriv_sample _ _ _ _ _ Hder Hsv) as (der' & -> & Hsder). simpl.
  destruct (read_sample i _ _ _ _ He Hre) as (e' & -> & Hse). simpl.
  destruct (bop_sample _ _ _ _ _ _ i Ha (tmap_sample _ _ _ _ Hse)
              (tmap_sample _ _ _ _ (tmap_sample ssign _ _ _ Hsv)))
    as (a' & Ha' & Hsa).
  unfold tsub, tneg, scale, tsign. rewrite Ha'. simpl.
  destruct (read_sample i _ _ _ _ He Hre1) as (e1' & -> & Hse1). simpl.
  rewrite Hly. simpl. apply getitem_Ok in Hly.
  destruct (wf_model_layer _ _ _ _ Hwf Hly) as (n_in & n_out & [Hw _]).
  apply has_shape_T2 in Hw as (rows & Hrows & _ & _). rewrite Hrows in *.
  destruct (matmul_sample _ _ _ _ _ _ Hm Hse1) as (m' & -> & Hsm). simpl.
  destruct (bop_sample _ _ _ _ _ _ i Hb Hsder Hsm) as (b' & Hb' & Hsb).
  unfold tmul. rewrite Hb'. simpl.
  by eapply bop_sample.
Qed.

Lemma update_val_body_sample nodes self (i : nat) st st' (l : nat) st1 :
  wf_model nodes self → sample_buffers i st st' →
  update_val_body self st l = Ok st1 →
  ∃ st1', update_val_body self st' l = Ok st1' ∧ sample_buffers i st1 st1'.
Proof.
  intros Hwf Hst Hb. pose proof Hst as (Hv & Hp & He).
  unfold update_val_body in *.
  inv_bind Hb. rename x into d, Hx into Hd.
  inv_bind Hb. rename x into v, Hx into Hrv.
  inv_bind Hb. rename x into v1, Hx into Hv1.
  inv_bind Hb. rename x into vs, Hx into Hvs. injection Hb as <-.
  destruct (layer_delta_sample _ _ i _ _ _ _ Hwf Hst Hd) as (d' & -> & Hsd).
  simpl.
  destruct (read_sample i _ _ _ _ Hv Hrv) as (v' & -> & Hsv). simpl.
  destruct (bop_sample _ _ _ _ _ _ i Hv1 Hsv (tmap_sample _ _ _ _ Hsd))
    as (v1' & Hv1' & Hsv1).
  unfold tadd, scale. rewrite Hv1'. simpl.
  destruct (setitem_sample i _ _ _ _ _ _ Hv Hsv1 Hvs) as (vs' & -> & Hvs').
  simpl. eexists. split; [done |]. done.
Qed.

Lemma relax_sensory_sample self (i : nat) st st' (mask mask' : tensor R) st1 :
  sample_buffers i st st' → sample i mask = Some mask' →
  relax_sensory self st mask = Ok st1 →
  ∃ st1', relax_sensory self st' mask' = Ok st1' ∧ sample_buffers i st1 st1'.
Proof.
  intros (Hv & Hp & He) Hmask Hb. unfold relax_sensory in *.
  inv_bind Hb. rename x into k, Hx into Hk.
  inv_bind Hb. rename x into v, Hx into Hrv.
  inv_bind Hb. rename x into j, Hx into Hj.
  inv_bind Hb. rename x into e, Hx into Hre.
  inv_bind Hb. rename x into m, Hx into Hm.
  inv_bind Hb. rename x into v1, Hx into Hv1.
  inv_bind Hb. rename x into vs, Hx into Hvs. injection Hb as <-.
  rewrite (last_index_sample i _ _ Hv), Hk. simpl.
  destruct (read_sample i _ _ _ _ Hv Hrv) as (v' & -> & Hsv). simpl.
  rewrite (last_index_sample i _ _ He), Hj. simpl.
  destruct (read_sample i _ _ _ _ He Hre) as (e' & -> & Hse). simpl.
  destruct (bop_sample _ _ _ _ _ _ i Hm (tmap_sample _ _ _ _ Hse) Hmask)
    as (m' & Hm' & Hsm).
  unfold tmul, tneg. rewrite Hm'. simpl.
  destruct (bop_sample _ _ _ _ _ _ i Hv1 Hsv (tmap_sample _ _ _ _ Hsm))
    as (v1' & Hv1' & Hsv1).
  unfold tadd, scale. rewrite Hv1'. simpl.
  destruct (setitem_sample i _ _ _ _ _ _ Hv Hsv1 Hvs) as (vs' & -> & Hvs').
  simpl. eexists. split; [done |]. done.
Qed.

Lemma update_val_nodes_sample nodes self (i : nat) st st'
    (mask mask' : tensor R) (recon : bool) st1 :
  wf_model nodes self → sample_buffers i st st' →
  (recon = true → sample i mask = Some mask') →
  update_val_nodes self st mask recon = Ok st1 →
  ∃ st1', update_val_nodes self st' mask' recon = Ok st1' ∧
          sample_buffers i st1 st1'.
Proof.
  intros Hwf Hst Hmask Hu. unfold update_val_nodes in *.
  inv_bind Hu. rename x into s1, Hx into Hloop.
  inv_bind Hu. rename x into s2, Hx into Hsens.
  assert (∀ l s s' t, sample_buffers i s s' → update_val_body self s l = Ok t →
            ∃ t', update_val_body self s' l = Ok t' ∧ sample_buffers i t t')
    as Hstep.
  { intros l s s' t Hs. by apply (update_val_body_sample nodes). }
  destruct (for_range_sim (sample_buffers i) (update_val_body self)
              (update_val_body self) _ _ _ st' Hstep Hst Hloop)
    as (s1' & -> & Hs1).
  simpl. destruct recon.
  - destruct (relax_sensory_sample self i _ _ _ _ _ Hs1 (Hmask eq_refl) Hsens)
      as (s2' & -> & Hs2).
    simpl. by apply (update_err_nodes_sample nodes self i s2).
  - injection Hsens as <-. simpl.
    by apply (update_err_nodes_sample nodes self i s1).
Qed.

Lemma episode_sample nodes self (i : nat) (inp inp' mask mask' : tensor R)
    (recon : bool) (n_iters : nat) st :
  wf_model nodes self → sample i inp = Some inp' →
  (recon = true → sample i mask = Some mask') →
  episode self inp n_iters mask recon = Ok st →
  ∃ st', episode self inp' n_iters mask' recon = Ok st' ∧ sample_buffers i st st'.
Proof.
  intros Hwf Hinp Hmask He. unfold episode in *.
  inv_bind He. rename x into s0, Hx into Hs0.
  destruct (set_nodes_sample nodes self i inp inp' s0 Hwf Hinp Hs0)
    as (s0' & -> & Hrel).
  simpl. unfold relax in *.
  eapply (for_range_sim (sample_buffers i)); [| exact Hrel | exact He].
  intros l s s' t Hs. simpl. by apply (update_val_nodes_sample nodes).
Qed.

End Samples.

(** X18: the samples of a batch do not interact during relaxation:
    running [set_nodes] and [n_iters] steps of [update_val_nodes] (in
    either mode) on the batch of one row made of sample [i] of the input
    (and of the mask) returns, and leaves in every slot of [val_nodes],
    [preds] and [errs] sample [i] of what the run on the whole batch
    leaves there. *)
Theorem batch_samples_do_not_interact {R : Type} `{Scalar R} (nodes : list nat)
    (self : MultilayerPCN R) (B n_last : nat) (inp update_mask : tensor R)
    (recon : bool) (n_iters i : nat) (inp_i mask_i : tensor R) :
  wf_model nodes self →
  nodes !! (length nodes - 1) = Some n_last →
  has_shape inp [B; n_last] →
  (recon = true → has_shape update_mask [B; n_last]) →
  sample i inp = Some inp_i →
  (recon = true → sample i update_mask = Some mask_i) →
  ∃ st st_i,
    episode self inp n_iters update_mask recon = Ok st ∧
    episode self inp_i n_iters mask_i recon = Ok st_i ∧
    sample_buffers i st st_i.
Proof.
  intros Hwf Hlast Hinp Hmask Hsi Hsm.
  destruct (episode_Inv nodes self B n_last inp update_mask recon n_iters)
    as (st & Hst & _); try done.
  destruct (episode_sample nodes self i inp inp_i update_mask mask_i recon
              n_iters st Hwf Hsi Hsm Hst) as (st_i & Hst_i & Hrel).
  by exists st, st_i.
Qed.

Lemma batch_samples_do_not_interact_witness :
  ∃ st st_i,
    episode Examples.hier2 Examples.batch2 3 MoreExamples.partial_mask2 true
    = Ok st ∧
    episode Examples.hier2 (T2 3 [[0; 1; 0]]%Z) 3 (T2 3 [[1; 1; 0]]%Z) true
    = Ok st_i ∧
    sample_buffers 1 st st_i.
Proof.
  apply (batch_samples_do_not_interact [2; 3] Examples.hier2 2 3).
  - exact ExamplesFacts.hier2_wf.
  - reflexivity.
  - split; [simpl; repeat constructor | reflexivity].
  - intros _. split; [simpl; repeat constructor | reflexivity].
  - reflexivity.
  - intros _. reflexivity.
Defined.

(** X19: reconstruction is per sample: sample [i] of what
    [test_pc_generative] returns on a batch (the relaxed sensory layer,
    or its prediction) is what it returns on the batch of one row made
    of sample [i] of the corrupted input and of the mask. *)
Theorem reconstruction_is_per_sample {R : Type} `{Scalar R} (nodes : list nat)
    (self : MultilayerPCN R) (B n_last : nat) (corrupt_inp update_mask : tensor R)
    (n_iters : nat) (sensory : bool) (i : nat) (inp_i mask_i : tensor R) :
  wf_model nodes self →
  nodes !! (length nodes - 1) = Some n_last →
  has_shape corrupt_inp [B; n_last] →
  has_shape update_mask [B; n_last] →
  sample i corrupt_inp = Some inp_i →
  sample i update_mask = Some mask_i →
  ∃ v v_i,
    test_pc_generative self corrupt_inp n_iters update_mask sensory = Ok (Some v) ∧
    test_pc_generative self inp_i n_iters mask_i sensory = Ok (Some v_i) ∧
    sample i v = Some v_i.
Proof.
  intros Hwf Hlast Hinp Hmask Hsi Hsm.
  pose proof (wf_n_layers _ _ Hwf) as HL. pose proof (wf_two _ _ Hwf) as H2.
  destruct (episode_Inv nodes self B n_last corrupt_inp update_mask true n_iters)
    as (st & Hst & HInv); try done.
  destruct (episode_sample nodes self i corrupt_inp inp_i update_mask mask_i true
              n_iters st Hwf Hsi (λ _, Hsm) Hst) as (st_i & Hst_i & Hv & Hp & He).
  unfold test_pc_generative. rewrite Hst, Hst_i. simpl.
  assert (∀ (xs ys : list (option (tensor R))) (x : tensor R),
            length xs = length nodes →
            Forall2 (sample_slot i) xs ys →
            xs !! (length nodes - 1) = Some (Some x) →
            ∃ y, (do k <- last_index xs; getitem xs k) = Ok (Some x) ∧
                 (do k <- last_index ys; getitem ys k) = Ok (Some y) ∧
                 sample i x = Some y) as Hlast_slot.
  { intros xs ys x Hlen Hxy Hx.
    destruct (Forall2_lookup_l _ _ _ _ _ Hxy Hx) as ([y|] & Hy & Hs); [| done].
    exists y. rewrite (last_index_sample i _ _ Hxy).
    assert (last_index xs = Ok (length nodes - 1)) as ->.
    { apply last_index_Ok. lia. }
    simpl. apply getitem_Ok in Hx, Hy. by rewrite Hx, Hy. }
  destruct sensory.
  - destruct (inv_val _ _ _ _ HInv _ _ Hlast) as (v & Hlv & _).
    destruct (Hlast_slot _ _ v (inv_len_val _ _ _ _ HInv) Hv Hlv)
      as (y & ? & ? & ?).
    by exists v, y.
  - destruct (episode_coherent self _ _ _ _ _ Hst (length nodes - 1))
      as (p & _ & Hlp); [lia |].
    destruct (Hlast_slot _ _ p (inv_len_preds _ _ _ _ HInv) Hp Hlp)
      as (y & ? & ? & ?).
    by exists p, y.
Qed.

Lemma reconstruction_is_per_sample_witness :
  ∃ v v_i,
    test_pc_generative Examples.hier2 Examples.batch2 3
      MoreExamples.partial_mask2 true = Ok (Some v) ∧
    test_pc_generative Examples.hier2 (T2 3 [[1; 0; 0]]%Z) 3
      (T2 3 [[0; 1; 0]]%Z) true = Ok (Some v_i) ∧
    sample 0 v = Some v_i.
Proof.
  apply (reconstruction_is_per_sample [2; 3] Examples.hier2 2 3).
  - exact ExamplesFacts.hier2_wf.
  - reflexivity.
  - split; [simpl; repeat constructor | reflexivity].
  - split; [simpl; repeat constructor | reflexivity].
  - reflexivity.
  - reflexivity.
Defined.

(** ** An all-zero mask clamps the sensory layer *)

Lemma for_range_ext_inv {St : Type} (P : St → Prop)
    (body body' : St → nat → result St) (range : list nat) (s0 : St) :
  (∀ s l, P s → body s l = body' s l) →
  (∀ s l s', P s → body s l = Ok s' → P s') →
  P s0 → for_range body range s0 = for_range body' range s0.
Proof.
  intros Hext Hpres. revert s0.
  induction range as [|l range IH]; intros s0 H0; simpl; [done |].
  rewrite <- (Hext s0 l H0).
  destruct (body s0 l) as [s1|e] eqn:Hb; simpl; [| done].
  apply IH. by eapply Hpres.
Qed.

Lemma relax_sensory_zeros {R : Type} `{Scalar R} (nodes : list nat)
    (self : MultilayerPCN R) (B n_last : nat) (st : buffers R) :
  (∀ x, smul x szero = szero) → (∀ x, sadd x szero = x) →
  length (val_nodes st) = length nodes → length (errs st) = length nodes →
  0 < length nodes →
  slot_shape (val_nodes st) (length nodes - 1) [B; n_last] →
  slot_shape (errs st) (length nodes - 1) [B; n_last] →
  relax_sensory self st (zeros2 B n_last) = Ok st.
Proof.
  intros Hmul Hadd Hlv Hle Hpos (v & Hv & Hsv) (e & He & Hse).
  unfold relax_sensory.
  assert (last_index (val_nodes st) = Ok (length nodes - 1)) as ->
    by (apply last_index_Ok; lia).
  assert (last_index (errs st) = Ok (length nodes - 1)) as ->
    by (apply last_index_Ok; lia).
  pose proof Hv as Hrv. apply read_Ok in Hrv. apply read_Ok in He.
  simpl. rewrite Hrv. simpl. rewrite He. simpl.
  rewrite tmul_zeros2 by (try done; by apply tmap_has_shape). cbn [bind].
  rewrite scale_zeros2, tadd_zeros2 by done. simpl.
  unfold setitem. rewrite decide_True by lia. simpl.
  rewrite list_insert_id by done. by destruct st.
Qed.

Lemma update_val_nodes_zero_mask {R : Type} `{Scalar R} (nodes : list nat)
    (self : MultilayerPCN R) (B k n_last : nat) (st : buffers R)
    (update_mask : tensor R) :
  (∀ x, smul x szero = szero) → (∀ x, sadd x szero = x) →
  wf_model nodes self → Inv nodes B k st →
  nodes !! (length nodes - 1) = Some n_last →
  update_val_nodes self st (zeros2 B n_last) true
  = update_val_nodes self st update_mask false.
Proof.
  intros Hmul Hadd Hwf HInv Hlast.
  pose proof (wf_two _ _ Hwf) as H2.
  destruct (update_val_loop_Inv nodes self B k st Hwf HInv)
    as (s1 & Hs1 & Hp1 & He1 & Hl1 & Hprof1).
  destruct HInv as [Hk Hlv Hlp Hle Hval Herr].
  unfold update_val_nodes. rewrite Hs1. simpl.
  rewrite (relax_sensory_zeros nodes self B n_last s1); try done.
  - congruence.
  - lia.
  - apply (profile_last nodes B (k - 1)); [lia | done | done].
  - rewrite He1. by apply (profile_last nodes B k).
Qed.

(** X20: reconstruction with an all-zero mask is the training
    relaxation: after [set_nodes] and any number of steps, the buffers
    left with [recon = True] and the zero mask are those left with
    [recon = False] and any mask (over scalars with x * 0 = 0 and
    x + 0 = x). *)
Theorem zero_mask_is_clamping {R : Type} `{Scalar R} (nodes : list nat)
    (self : MultilayerPCN R) (B n_last : nat) (inp update_mask : tensor R)
    (n_iters : nat) :
  (∀ x, smul x szero = szero) → (∀ x, sadd x szero = x) →
  wf_model nodes self →
  nodes !! (length nodes - 1) = Some n_last →
  has_shape inp [B; n_last] →
  ∃ st, episode self inp n_iters (zeros2 B n_last) true = Ok st ∧
        episode self inp n_iters update_mask false = Ok st.
Proof.
  intros Hmul Hadd Hwf Hlast Hinp.
  destruct (episode_Inv nodes self B n_last inp update_mask false n_iters)
    as (st & Hst & _); try done.
  exists st. split; [| done]. rewrite <- Hst. unfold episode.
  destruct (set_nodes_Inv nodes self B n_last inp Hwf Hlast Hinp)
    as (st0 & -> & HInv0 & _ & _).
  simpl. unfold relax.
  apply (for_range_ext_inv (λ s, ∃ k, Inv nodes B k s)).
  - intros s l (k & HInv). by apply (update_val_nodes_zero_mask nodes self B k).
  - intros s l s' (k & HInv) Hs'.
    destruct (update_val_nodes_Inv nodes self B k n_last s (zeros2 B n_last) true)
      as (s1 & Hs1 & HInv1); try done.
    { intros _. apply zeros2_has_shape. }
    exists (k - 1). simpl in Hs'. congruence.
  - eauto.
Qed.

Lemma zero_mask_is_clamping_witness :
  ∃ st, episode Examples.hier2 Examples.batch2 3 (zeros2 2 3) true = Ok st ∧
        episode Examples.hier2 Examples.batch2 3 Examples.ones2 false = Ok st.
Proof.
  apply (zero_mask_is_clamping [2; 3] Examples.hier2 2 3).
  - intros x. simpl. lia.
  - intros x. simpl. lia.
  - exact ExamplesFacts.hier2_wf.
  - reflexivity.
  - split; [simpl; repeat constructor | reflexivity].
Defined.

(** ** An unknown nonlinearity name is met on first use *)

Lemma MultilayerPCN_init_unknown_name {R : Type} `{Scalar R}
    (nn_Linear : nat → nat → bool → Linear R) (utils_Tanh utils_ReLU : Nonlin R)
    (n0 : nat) (rest : list nat) (name : string) (Dt lamb : R) (use_bias : bool) :
  name ≠ "Tanh" → name ≠ "ReLU" →
  ∃ lys, length lys = length rest ∧
    MultilayerPCN_init nn_Linear utils_Tanh utils_ReLU (n0 :: rest) (Str name)
      Dt lamb use_bias
    = Ok {| n_layers := S (length rest); layers := lys; mem_dim := n0;
            memory := new_parameter (zeros1 n0); Dt := Dt;
            nonlins := replicate (length rest) (Str name);
            use_bias := use_bias; lamb := lamb; cls := Multilayer |}.
Proof.
  intros Htanh Hrelu. unfold MultilayerPCN_init.
  destruct (mapM_seq_Ok (λ l,
      do n_in <- getitem (n0 :: rest) l;
      do n_out <- getitem (n0 :: rest) (l + 1);
      Ok (nn_Linear n_in n_out use_bias)) 0 (length (n0 :: rest) - 1))
    as (lys & Hlys).
  { intros l Hl.
    destruct (lookup_lt_is_Some_2 (n0 :: rest) l) as (n_in & Hin); [lia |].
    destruct (lookup_lt_is_Some_2 (n0 :: rest) (l + 1)) as (n_out & Hout);
      [lia |].
    apply getitem_Ok in Hin, Hout. rewrite Hin, Hout. simpl. eauto. }
  rewrite Hlys. apply mapM_lookup in Hlys as [Hlen _].
  rewrite length_seq in Hlen. simpl in *. rewrite Nat.sub_0_r in *.
  exists lys. split; [done |]. by rewrite !decide_False by done.
Qed.

(** X21: a nonlinearity name other than 'Tanh' and 'ReLU' passes the
    constructor of [HierarchicalPCN] and is met only when the
    nonlinearity is first applied: on the model constructed with it,
    on any list of at least two nodes, both entry points raise
    [TypeError] (a string is called), for every input, mask and number
    of iterations. *)
Theorem unknown_nonlin_raises_on_first_use {R : Type} `{Scalar R}
    (nn_Linear : nat → nat → bool → Linear R) (utils_Tanh utils_ReLU : Nonlin R)
    (randn1 : nat → tensor R) (nodes : list nat) (name : string)
    (Dt init_std lamb : R) (use_bias : bool) :
  (∀ n, has_shape (randn1 n) [n]) →
  2 ≤ length nodes → name ≠ "Tanh" → name ≠ "ReLU" →
  ∃ self,
    HierarchicalPCN_init nn_Linear utils_Tanh utils_ReLU randn1 nodes (Str name)
      Dt init_std lamb use_bias = Ok self ∧
    ∀ (inp update_mask : tensor R) (n_iters : nat) (sensory : bool),
      train_pc_generative self inp n_iters update_mask = Raise TypeError ∧
      test_pc_generative self inp n_iters update_mask sensory = Raise TypeError.
Proof.
  intros Hr1 H2 Htanh Hrelu.
  destruct nodes as [|n0 [|n1 rest]]; simpl in H2; [lia | lia |].
  destruct (MultilayerPCN_init_unknown_name nn_Linear utils_Tanh utils_ReLU n0
              (n1 :: rest) name Dt lamb use_bias Htanh Hrelu)
    as (lys & Hlen & Hinit).
  unfold HierarchicalPCN_init. rewrite Hinit. simpl.
  eexists. split; [done |].
  destruct (has_shape_T1 _ _ (Hr1 n0)) as (v & Hv & Hlv).
  destruct lys as [|ly0 lys]; [done |].
  assert (∀ inp,
    set_nodes
      (with_cls
         (with_memory
            {| n_layers := S (length (n1 :: rest)); layers := ly0 :: lys;
               mem_dim := n0; memory := new_parameter (zeros1 n0); Dt := Dt;
               nonlins := replicate (length (n1 :: rest)) (Str name);
               use_bias := use_bias; lamb := lamb; cls := Multilayer |}
            (new_parameter (scale init_std (randn1 n0)))) Hierarchical)
      (initialize
         (with_cls
            (with_memory
               {| n_layers := S (length (n1 :: rest)); layers := ly0 :: lys;
                  mem_dim := n0; memory := new_parameter (zeros1 n0); Dt := Dt;
                  nonlins := replicate (length (n1 :: rest)) (Str name);
                  use_bias := use_bias; lamb := lamb; cls := Multilayer |}
               (new_parameter (scale init_std (randn1 n0)))) Hierarchical))
      inp = Raise TypeError) as Hset.
  { intros inp. unfold set_nodes, initialize. rewrite Hv. simpl.
    destruct rest as [|n2 rest]; simpl.
    - unfold update_err_nodes, update_err_body, prediction, pred_top,
        pred_from_above, tsub; simpl.
      rewrite bvec_same by done. done.
    - done. }
  intros inp update_mask n_iters sensory.
  unfold train_pc_generative, test_pc_generative, episode.
  by rewrite Hset.
Qed.

Lemma unknown_nonlin_raises_on_first_use_witness :
  ∃ self,
    HierarchicalPCN_init Examples.zero_Linear Examples.tanh_stub Examples.relu
      Examples.zero_randn1 [2; 3; 1] (Str "Sigmoid") 1%Z 1%Z 0%Z false
    = Ok self ∧
    train_pc_generative self Examples.batch3 5 Examples.batch3 = Raise TypeError.
Proof.
  destruct (unknown_nonlin_raises_on_first_use Examples.zero_Linear
              Examples.tanh_stub Examples.relu Examples.zero_randn1 [2; 3; 1]
              "Sigmoid" 1%Z 1%Z 0%Z false) as (self & Hself & Hraise).
  - intros n. split; [done | simpl; by rewrite length_replicate].
  - simpl. lia.
  - discriminate.
  - discriminate.
  - exists self. split; [exact Hself |].
    apply (Hraise Examples.batch3 Examples.batch3 5 true).
Defined.
